(** * pycalphad.core.minimizer: the equilibrium solver, embedded and verified

    A shallow embedding of [pycalphad/core/minimizer.pyx].  Doubles are the
    kernel's binary64 floats ([PrimFloat]), so that NaN, infinities and
    comparisons behave as they do in the compiled Cython/NumPy code.  Arrays
    are lists, C-contiguous matrices carry their shape, Python exceptions are
    an error monad, and the NumPy routines the module calls (which are not part
    of the repository) are taken as parameters. *)

From Stdlib Require Import Floats ZArith Lia Bool.
From stdpp Require Import base option list gmap sets sorting.

Set Warnings "-inexact-float".
Set Default Proof Using "Type".

(** ** Exceptions *)

Inductive exn : Type :=
  | IndexError            (* an index outside a buffer or a Python list *)
  | ShapeError            (* ValueError: operands could not be broadcast together *)
  | EmptyReduction        (* ValueError: zero-size array to reduction operation maximum *)
  | GibbsPhaseRule        (* ValueError('Conditions do not obey Gibbs Phase Rule') *)
  | LinAlgError           (* numpy.linalg.LinAlgError *)
  | ZeroDivisionError     (* ZeroDivisionError('float division') *)
  | Unallocated.          (* an address outside the store; no Python reference is *)

Inductive res (A : Type) : Type :=
  | Ok (a : A)
  | Raise (e : exn).
Arguments Ok {A} a.
Arguments Raise {A} e.

#[global] Instance res_ret : MRet res := fun A a => Ok a.
#[global] Instance res_bind : MBind res := fun A B f m =>
  match m with
  | Ok a => f a
  | Raise e => Raise e
  end.

Definition of_option {A} (e : exn) (o : option A) : res A :=
  match o with
  | Some a => Ok a
  | None => Raise e
  end.

(** [for i in range(n): s = body i s], stopping at the first exception. *)
Fixpoint for_each {S : Type} (l : list nat) (body : nat -> S -> res S) (s : S) : res S :=
  match l with
  | [] => Ok s
  | i :: l' =>
      match body i s with
      | Ok s' => for_each l' body s'
      | Raise e => Raise e
      end
  end.

Definition for_range {S : Type} (n : nat) (body : nat -> S -> res S) (s : S) : res S :=
  for_each (seq 0 n) body s.

(** ** Doubles *)

Module F.

(** Python's [a > b] and [a >= b] on doubles. *)
Definition gtb (a b : float) : bool := (b <? a)%float.
Definition geb (a b : float) : bool := (b <=? a)%float.

(** Python's two-argument [max(a, b)]: the first argument unless the second
    compares greater, so a NaN second argument is dropped. *)
Definition py_max (a b : float) : float := if gtb b a then b else a.

(** NumPy's [minimum] and [maximum] ufuncs, which propagate NaN:
    [(in1 <= in2 || isnan(in1)) ? in1 : in2] and the same with [>=]. *)
Definition np_minimum (a b : float) : float :=
  if (a <=? b)%float || is_nan a then a else b.
Definition np_maximum (a b : float) : float :=
  if geb a b || is_nan a then a else b.

(** [np.max(a)] and [a.max()]: [maximum.reduce], an error on an empty array. *)
Definition np_max (a : list float) : res float :=
  match a with
  | [] => Raise EmptyReduction
  | x :: a' => Ok (fold_left np_maximum a' x)
  end.

(** [a / b] on C doubles as Cython compiles it with [cdivision] off: a divisor
    that compares equal to zero raises instead of giving an infinity or NaN. *)
Definition c_div (a b : float) : res float :=
  if is_zero b then Raise ZeroDivisionError else Ok (a / b)%float.

(** [lo <= x <= hi] as the code's comparisons decide it. *)
Definition between (lo hi x : float) : Prop :=
  (lo <=? x)%float = true /\ (x <=? hi)%float = true.

End F.

(** ** Buffers *)

(** A one-dimensional memoryview or ndarray. *)
Abbreviation vec := (list float).

Definition np_zeros (n : nat) : vec := replicate n 0%float.

(** [a[i]], bounds-checked. *)
Definition vget (a : vec) (i : nat) : res float := of_option IndexError (a !! i).

(** [a[i] = v], bounds-checked. *)
Definition vset (a : vec) (i : nat) (v : float) : res vec :=
  if decide (i < length a) then Ok (<[i := v]> a) else Raise IndexError.

(** [a[i] += v] and [a[i] -= v]. *)
Definition vadd (a : vec) (i : nat) (v : float) : res vec :=
  old ← vget a i; vset a i (old + v)%float.
Definition vsub (a : vec) (i : nat) (v : float) : res vec :=
  old ← vget a i; vset a i (old - v)%float.

(** An index array ([int[::1]]); the indices the solver handles are
    non-negative. *)
Definition iget (a : list nat) (i : nat) : res nat := of_option IndexError (a !! i).

(** Element-wise binary operation of two arrays of one shape. *)
Definition zip_same (f : float -> float -> float) (a b : vec) : res vec :=
  if decide (length a = length b) then Ok (zip_with f a b) else Raise ShapeError.

(** A C-contiguous two-dimensional buffer ([double[:, ::1]]) with its shape. *)
Record matrix : Type := Matrix {
  nrows : nat;
  ncols : nat;
  cells : vec
}.

Definition np_zeros2 (r c : nat) : matrix := Matrix r c (np_zeros (r * c)).

(** The buffer a callee leaves after overwriting every entry. *)
Definition tabulate (n : nat) (f : nat -> float) : vec := map f (seq 0 n).
Definition tabulate2 (r c : nat) (f : nat -> nat -> float) : matrix :=
  Matrix r c (flat_map (fun i => tabulate c (f i)) (seq 0 r)).

Definition mget (m : matrix) (i j : nat) : res float :=
  if decide (i < nrows m /\ j < ncols m)
  then of_option IndexError (cells m !! (i * ncols m + j))
  else Raise IndexError.

Definition mset (m : matrix) (i j : nat) (v : float) : res matrix :=
  if decide (i < nrows m /\ j < ncols m /\ i * ncols m + j < length (cells m))
  then Ok (Matrix (nrows m) (ncols m) (<[i * ncols m + j := v]> (cells m)))
  else Raise IndexError.

Definition madd (m : matrix) (i j : nat) (v : float) : res matrix :=
  old ← mget m i j; mset m i j (old + v)%float.
Definition msub (m : matrix) (i j : nat) (v : float) : res matrix :=
  old ← mget m i j; mset m i j (old - v)%float.

(** [np.nonzero(mask)[0]] for the mask [p a[i]]. *)
Definition np_nonzero (p : float -> bool) (a : vec) : list nat :=
  filter (fun i => from_option p false (a !! i) = true) (seq 0 (length a)).

(** [np.abs(a)]. *)
Definition np_abs (a : vec) : vec := map abs a.

(** ** External collaborators *)

(** Modelled from the spec: [MIN_SITE_FRACTION] of [pycalphad.core.constants],
    a module that is not among the sources; the spec gives the value 1e-12. *)
Definition MIN_SITE_FRACTION : float := 1e-12.

(** The thermodynamic model of one phase.  Every method overwrites a zeroed
    buffer that the caller owns and sized, so each is given by the entry it
    leaves at every position, as a function of the point [x] (and the
    component). *)
Record PhaseRecord : Type := {
  phase_dof : nat;
  num_internal_cons : nat;
  obj : vec -> float;
  grad : vec -> nat -> float;
  hess : vec -> nat -> nat -> float;
  mass_obj : vec -> nat -> float;
  mass_grad : vec -> nat -> nat -> float;
  internal_cons_func : vec -> nat -> float;
  internal_cons_jac : vec -> nat -> nat -> float
}.

(** The NumPy routines the module calls.  [None] is [LinAlgError]; [lstsq] is
    the solution component of [np.linalg.lstsq(a, b, rcond=1e-21)]. *)
Record NumPy : Type := {
  linalg_solve : matrix -> vec -> option vec;
  linalg_inv : matrix -> option matrix;
  linalg_lstsq : matrix -> vec -> option vec;
  np_sum : vec -> float;
  np_dot : vec -> vec -> float
}.

(** ** PhaseSystemBuilder *)

(** [compute_phase_matrix]: the left-hand side of Eq. 41, Sundman 2015.  The
    three slice assignments are written entry by entry. *)
Definition compute_phase_matrix (phase_matrix hess : matrix) (pr : PhaseRecord)
    (num_statevars : nat) (phase_dof_vec : vec) : res matrix :=
  let D := phase_dof pr in
  let K := num_internal_cons pr in
  let cons_jac_tmp := tabulate2 K (num_statevars + D) (internal_cons_jac pr phase_dof_vec) in
  pm ← for_range D (fun i =>
         for_range D (fun j pm =>
           h ← mget hess (num_statevars + i) (num_statevars + j);
           mset pm i j h)) phase_matrix;
  pm ← for_range K (fun k =>
         for_range D (fun j pm =>
           c ← mget cons_jac_tmp k (num_statevars + j);
           mset pm (D + k) j c)) pm;
  for_range K (fun k =>
    for_range D (fun j pm =>
      c ← mget cons_jac_tmp k (num_statevars + j);
      mset pm j (D + k) c)) pm.

(** [compute_phase_system]: the system of Eq. 41; returns the filled matrix,
    the right-hand side and the largest absolute constraint residual. *)
Definition compute_phase_system (phase_matrix : matrix) (phase_rhs : vec)
    (pr : PhaseRecord) (delta_statevars chemical_potentials phase_dof_vec : vec)
  : res (matrix * vec * float) :=
  let num_statevars := length delta_statevars in
  let num_components := length chemical_potentials in
  let K := num_internal_cons pr in
  let D := phase_dof pr in
  let cons_tmp := tabulate K (internal_cons_func pr phase_dof_vec) in
  let hess_tmp := tabulate2 (num_statevars + D) (num_statevars + D) (hess pr phase_dof_vec) in
  let grad_tmp := tabulate (num_statevars + D) (grad pr phase_dof_vec) in
  let mass_jac_tmp := tabulate2 num_components (num_statevars + D) (mass_grad pr phase_dof_vec) in
  phase_matrix ← compute_phase_matrix phase_matrix hess_tmp pr num_statevars phase_dof_vec;
  phase_rhs ← for_range D (fun i phase_rhs =>
    g ← vget grad_tmp (num_statevars + i);
    phase_rhs ← vset phase_rhs i (- g)%float;
    phase_rhs ← for_range num_statevars (fun sv_idx phase_rhs =>
      h ← mget hess_tmp (num_statevars + i) sv_idx;
      d ← vget delta_statevars sv_idx;
      vsub phase_rhs i (h * d)%float) phase_rhs;
    for_range num_components (fun comp_idx phase_rhs =>
      mu ← vget chemical_potentials comp_idx;
      mj ← mget mass_jac_tmp comp_idx (num_statevars + i);
      vadd phase_rhs i (mu * mj)%float) phase_rhs) phase_rhs;
  phase_rhs ← for_range K (fun cons_idx phase_rhs =>
    c ← vget cons_tmp cons_idx;
    vset phase_rhs (D + cons_idx) (- c)%float) phase_rhs;
  r ← F.np_max (np_abs cons_tmp);
  Ok (phase_matrix, phase_rhs, r).

(** ** EquilibriumSystemBuilder *)

(** One "component row" of the global system (steps 2a and 3 of the source):
    the contributions of phase [idx] to row [row] for component
    [component_idx].  The fixed-component rows assign the stable-phase column
    ([accumulate_phase_column = false]); the N=1 row adds to it. *)
Definition fill_component_row (accumulate_phase_column : bool)
    (masses mass_jac c_component c_statevars : matrix) (c_G phase_amt : vec)
    (free_chemical_potential_indices free_statevar_indices
     free_stable_compset_indices : list nat)
    (idx num_statevars row component_idx : nat)
    (sys : matrix * vec) : res (matrix * vec) :=
  let '(equilibrium_matrix, equilibrium_rhs) := sys in
  let free_variable_column_offset := 0 in
  (* 2a. This component row: free chemical potentials *)
  equilibrium_matrix ←
    for_range (length free_chemical_potential_indices) (fun i em =>
      chempot_idx ← iget free_chemical_potential_indices i;
      for_range (ncols c_component) (fun j em =>
        pa ← vget phase_amt idx;
        mj ← mget mass_jac component_idx (num_statevars + j);
        cc ← mget c_component chempot_idx j;
        madd em row (free_variable_column_offset + i) (pa * mj * cc)%float) em)
      equilibrium_matrix;
  let free_variable_column_offset :=
    free_variable_column_offset + length free_chemical_potential_indices in
  (* 2a. This component row: free stable composition sets *)
  equilibrium_matrix ←
    for_range (length free_stable_compset_indices) (fun i em =>
      compset_idx ← iget free_stable_compset_indices i;
      if decide (compset_idx = idx) then
        m ← mget masses component_idx 0;
        if accumulate_phase_column
        then madd em row (free_variable_column_offset + i) m
        else mset em row (free_variable_column_offset + i) m
      else Ok em)
      equilibrium_matrix;
  let free_variable_column_offset :=
    free_variable_column_offset + length free_stable_compset_indices in
  (* 2a. This component row: free state variables *)
  equilibrium_matrix ←
    for_range (length free_statevar_indices) (fun i em =>
      statevar_idx ← iget free_statevar_indices i;
      for_range (nrows c_statevars) (fun j em =>
        pa ← vget phase_amt idx;
        mj ← mget mass_jac component_idx (num_statevars + j);
        cs ← mget c_statevars j statevar_idx;
        madd em row (free_variable_column_offset + i) (pa * mj * cs)%float) em)
      equilibrium_matrix;
  (* 3. *)
  equilibrium_rhs ←
    for_range (length c_G) (fun j rhs =>
      pa ← vget phase_amt idx;
      mj ← mget mass_jac component_idx (num_statevars + j);
      cg ← vget c_G j;
      vadd rhs row (- pa * mj * cg)%float) equilibrium_rhs;
  Ok (equilibrium_matrix, equilibrium_rhs).

Definition fill_equilibrium_system_for_phase
    (equilibrium_matrix : matrix) (equilibrium_rhs : vec)
    (energy : float) (grad : vec) (hess masses mass_jac e_matrix : matrix)
    (chemical_potentials phase_amt : vec)
    (free_chemical_potential_indices free_statevar_indices
     free_stable_compset_indices fixed_chemical_potential_indices
     prescribed_element_indices : list nat)
    (prescribed_elemental_amounts : vec)
    (idx stable_idx num_statevars : nat) : res (matrix * vec) :=
  let num_components := length chemical_potentials in
  let num_stable_phases := length free_stable_compset_indices in
  let num_fixed_components := length prescribed_elemental_amounts in
  (* Eq. 44 *)
  c_G ← for_range (nrows e_matrix) (fun i =>
    for_range (ncols e_matrix) (fun j c_G =>
      e ← mget e_matrix i j;
      g ← vget grad (num_statevars + j);
      vsub c_G i (e * g)%float)) (np_zeros (nrows e_matrix));
  c_statevars ← for_range (nrows e_matrix) (fun i =>
    for_range (ncols e_matrix) (fun j =>
      for_range num_statevars (fun statevar_idx c_statevars =>
        e ← mget e_matrix i j;
        h ← mget hess (num_statevars + j) statevar_idx;
        msub c_statevars i statevar_idx (e * h)%float)))
    (np_zeros2 (nrows e_matrix) num_statevars);
  c_component ← for_range num_components (fun comp_idx =>
    for_range (nrows e_matrix) (fun i =>
      for_range (ncols e_matrix) (fun j c_component =>
        mj ← mget mass_jac comp_idx (num_statevars + j);
        e ← mget e_matrix i j;
        madd c_component comp_idx i (mj * e)%float)))
    (np_zeros2 num_components (nrows e_matrix));
  (* 1a. This phase row: free chemical potentials *)
  let free_variable_column_offset := 0 in
  equilibrium_matrix ←
    for_range (length free_chemical_potential_indices) (fun i em =>
      chempot_idx ← iget free_chemical_potential_indices i;
      m ← mget masses chempot_idx 0;
      mset em stable_idx (free_variable_column_offset + i) m) equilibrium_matrix;
  let free_variable_column_offset :=
    free_variable_column_offset + length free_chemical_potential_indices in
  (* 1a. This phase row: free stable composition sets = zero contribution *)
  let free_variable_column_offset :=
    free_variable_column_offset + length free_stable_compset_indices in
  (* 1a. This phase row: free state variables *)
  equilibrium_matrix ←
    for_range (length free_statevar_indices) (fun i em =>
      statevar_idx ← iget free_statevar_indices i;
      g ← vget grad statevar_idx;
      mset em stable_idx (free_variable_column_offset + i) (- g)%float) equilibrium_matrix;
  (* 2. Contribute to the row of all fixed components *)
  let component_row_offset := num_stable_phases in
  sys ← for_range num_fixed_components (fun fixed_component_idx sys =>
    component_idx ← iget prescribed_element_indices fixed_component_idx;
    fill_component_row false masses mass_jac c_component c_statevars c_G phase_amt
      free_chemical_potential_indices free_statevar_indices free_stable_compset_indices
      idx num_statevars (component_row_offset + fixed_component_idx) component_idx sys)
    (equilibrium_matrix, equilibrium_rhs);
  let system_amount_index := component_row_offset + num_fixed_components in
  (* 2X. Also handle the N=1 row *)
  sys ← for_range num_components (fun component_idx sys =>
    fill_component_row true masses mass_jac c_component c_statevars c_G phase_amt
      free_chemical_potential_indices free_statevar_indices free_stable_compset_indices
      idx num_statevars system_amount_index component_idx sys) sys;
  let '(equilibrium_matrix, equilibrium_rhs) := sys in
  (* 4. *)
  equilibrium_rhs ← vset equilibrium_rhs idx energy;
  (* 5. Subtract fixed chemical potentials from each phase RHS *)
  equilibrium_rhs ←
    for_range (length fixed_chemical_potential_indices) (fun i rhs =>
      chempot_idx ← iget fixed_chemical_potential_indices i;
      m ← mget masses chempot_idx 0;
      mu ← vget chemical_potentials chempot_idx;
      rhs ← vsub rhs idx (m * mu)%float;
      (* 6. Subtract fixed chemical potentials from each fixed component RHS *)
      for_range num_fixed_components (fun fixed_component_idx rhs =>
        component_idx ← iget prescribed_element_indices fixed_component_idx;
        for_range (ncols c_component) (fun j rhs =>
          pa ← vget phase_amt idx;
          mu ← vget chemical_potentials chempot_idx;
          mj ← mget mass_jac component_idx (num_statevars + j);
          cc ← mget c_component chempot_idx j;
          vsub rhs (component_row_offset + fixed_component_idx)
               (pa * mu * mj * cc)%float) rhs) rhs) equilibrium_rhs;
  Ok (equilibrium_matrix, equilibrium_rhs).

(** A composition set: its phase record, its amount [NP] and the address of
    its [dof] buffer in the store of buffers. *)
Record CompositionSet : Type := {
  phase_record : PhaseRecord;
  NP : float;
  dof : nat
}.

(** [m[:r, :c]] made contiguous: slicing clamps to the shape of [m]. *)
Definition top_left (r c : nat) (m : matrix) : matrix :=
  tabulate2 (r `min` nrows m) (c `min` ncols m)
            (fun i j => default 0%float (cells m !! (i * ncols m + j))).

(** [m[i, :]]. *)
Definition mrow (m : matrix) (i : nat) : res vec :=
  if decide (i < nrows m)
  then Ok (take (ncols m) (drop (i * ncols m) (cells m)))
  else Raise IndexError.

Definition fill_equilibrium_system (np : NumPy)
    (equilibrium_matrix : matrix) (equilibrium_rhs : vec)
    (compsets : list CompositionSet)
    (chemical_potentials current_elemental_amounts phase_amt : vec)
    (free_chemical_potential_indices free_statevar_indices
     free_stable_compset_indices fixed_chemical_potential_indices
     prescribed_element_indices : list nat)
    (prescribed_elemental_amounts : vec)
    (num_statevars : nat) (prescribed_system_amount : float) (dof : list vec)
  : res (matrix * vec * float) :=
  let num_components := length chemical_potentials in
  let num_stable_phases := length free_stable_compset_indices in
  let num_fixed_components := length prescribed_elemental_amounts in
  sys ← for_range (length free_stable_compset_indices) (fun stable_idx sys =>
    idx ← iget free_stable_compset_indices stable_idx;
    compset ← of_option IndexError (compsets !! idx);
    x ← of_option IndexError (dof !! idx);
    let pr := phase_record compset in
    let D := phase_dof pr in
    let K := num_internal_cons pr in
    let energy_tmp := obj pr x in
    let masses_tmp := tabulate2 num_components 1 (fun comp_idx _ => mass_obj pr x comp_idx) in
    let mass_jac_tmp := tabulate2 num_components (num_statevars + D) (mass_grad pr x) in
    let phase_matrix := np_zeros2 (D + K) (D + K) in
    let hess_tmp := tabulate2 (num_statevars + D) (num_statevars + D) (hess pr x) in
    let grad_tmp := tabulate (num_statevars + D) (grad pr x) in
    phase_matrix ← compute_phase_matrix phase_matrix hess_tmp pr num_statevars x;
    inverse ← of_option LinAlgError (linalg_inv np phase_matrix);
    let e_matrix := top_left D D inverse in
    fill_equilibrium_system_for_phase (fst sys) (snd sys) energy_tmp grad_tmp hess_tmp
      masses_tmp mass_jac_tmp e_matrix chemical_potentials phase_amt
      free_chemical_potential_indices free_statevar_indices free_stable_compset_indices
      fixed_chemical_potential_indices prescribed_element_indices
      prescribed_elemental_amounts idx stable_idx num_statevars)
    (equilibrium_matrix, equilibrium_rhs);
  let '(equilibrium_matrix, equilibrium_rhs) := sys in
  (* Add mass residual to fixed component row RHS, plus N=1 row *)
  let mass_residual := 0%float in
  let component_row_offset := num_stable_phases in
  let system_amount_index := component_row_offset + num_fixed_components in
  let current_system_amount := np_sum np phase_amt in
  acc ← for_range num_fixed_components (fun fixed_component_idx acc =>
    component_idx ← iget prescribed_element_indices fixed_component_idx;
    cea ← vget current_elemental_amounts component_idx;
    pea ← vget prescribed_elemental_amounts fixed_component_idx;
    deviation ← F.c_div (abs (cea - pea)) (abs pea);
    rhs ← vsub (fst acc) (component_row_offset + fixed_component_idx) (cea - pea)%float;
    Ok (rhs, (snd acc + deviation)%float))
    (equilibrium_rhs, mass_residual);
  let '(equilibrium_rhs, mass_residual) := acc in
  let mass_residual :=
    (mass_residual + abs (current_system_amount - prescribed_system_amount))%float in
  equilibrium_rhs ← vsub equilibrium_rhs system_amount_index
                      (current_system_amount - prescribed_system_amount)%float;
  Ok (equilibrium_matrix, equilibrium_rhs, mass_residual).

(** ** SolutionExtractor: [extract_equilibrium_solution] *)

(** The arrays [extract_equilibrium_solution] updates in place. *)
Record extracted : Type := Extracted {
  ex_chemical_potentials : vec;
  ex_phase_amt : vec;
  ex_delta_statevars : vec;
  ex_largest_statevar_change : vec;
  ex_largest_phase_amt_change : vec;
  ex_dof : list vec
}.

(** [abs(chempot_change / chemical_potentials[chempot_idx])]. *)
Definition percent_chempot_change (new old : float) : float :=
  abs ((new - old) / old)%float.

(** The two clipping assignments of a phase amount. *)
Definition clip_phase_amt (a : float) : float :=
  F.np_maximum 0%float (F.np_minimum 1%float a).

(** [a[np.isnan(a)] = 0]. *)
Definition mask_nan (a : vec) : vec :=
  map (fun x => if is_nan x then 0%float else x) a.

(** [a[:n] += d] on one buffer. *)
Definition add_to_prefix (n : nat) (d a : vec) : res vec :=
  p ← zip_same add (take n a) d; Ok (p ++ drop n a).

Definition extract_chemical_potentials (free_chemical_potential_indices : list nat)
    (equilibrium_soln : vec) (soln_index_offset : nat)
    (acc : vec * vec) : res (vec * vec) :=
  for_range (length free_chemical_potential_indices) (fun i acc =>
    let '(chemical_potentials, largest_statevar_change) := acc in
    chempot_idx ← iget free_chemical_potential_indices i;
    new ← vget equilibrium_soln (soln_index_offset + i);
    old ← vget chemical_potentials chempot_idx;
    let percent_chempot_change := percent_chempot_change new old in
    chemical_potentials ← vset chemical_potentials chempot_idx new;
    lsc ← vget largest_statevar_change 0;
    largest_statevar_change ←
      vset largest_statevar_change 0 (F.py_max lsc percent_chempot_change);
    Ok (chemical_potentials, largest_statevar_change)) acc.

Definition extract_phase_amounts (free_stable_compset_indices : list nat)
    (equilibrium_soln : vec) (soln_index_offset : nat)
    (acc : vec * vec) : res (vec * vec) :=
  for_range (length free_stable_compset_indices) (fun i acc =>
    let '(phase_amt, largest_phase_amt_change) := acc in
    compset_idx ← iget free_stable_compset_indices i;
    phase_amt_change ← vget phase_amt compset_idx;
    s ← vget equilibrium_soln (soln_index_offset + i);
    phase_amt ← vset phase_amt compset_idx
                  (clip_phase_amt (phase_amt_change + s)%float);
    new ← vget phase_amt compset_idx;
    let phase_amt_change := (new - phase_amt_change)%float in
    lpac ← vget largest_phase_amt_change 0;
    largest_phase_amt_change ←
      vset largest_phase_amt_change 0 (F.py_max lpac phase_amt_change);
    Ok (phase_amt, largest_phase_amt_change)) acc.

Definition extract_equilibrium_solution
    (chemical_potentials phase_amt delta_statevars : vec)
    (free_chemical_potential_indices free_statevar_indices
     free_stable_compset_indices : list nat)
    (equilibrium_soln largest_statevar_change largest_phase_amt_change : vec)
    (dof : list vec) : res extracted :=
  let num_statevars := length delta_statevars in
  let soln_index_offset := 0 in
  '(chemical_potentials, largest_statevar_change) ←
    extract_chemical_potentials free_chemical_potential_indices equilibrium_soln
      soln_index_offset (chemical_potentials, largest_statevar_change);
  let soln_index_offset := soln_index_offset + length free_chemical_potential_indices in
  '(phase_amt, largest_phase_amt_change) ←
    extract_phase_amounts free_stable_compset_indices equilibrium_soln
      soln_index_offset (phase_amt, largest_phase_amt_change);
  let soln_index_offset := soln_index_offset + length free_stable_compset_indices in
  let delta_statevars := np_zeros (length delta_statevars) in
  delta_statevars ← for_range (length free_statevar_indices) (fun i delta_statevars =>
    statevar_idx ← iget free_statevar_indices i;
    s ← vget equilibrium_soln (soln_index_offset + i);
    vset delta_statevars statevar_idx s) delta_statevars;
  dof0 ← of_option IndexError (dof !! 0);
  quot ← zip_same div delta_statevars (take num_statevars dof0);
  let percent_statevar_changes := mask_nan (np_abs quot) in
  largest ← F.np_max percent_statevar_changes;
  lsc ← vget largest_statevar_change 0;
  largest_statevar_change ← vset largest_statevar_change 0 (F.py_max lsc largest);
  dof ← mapM (add_to_prefix num_statevars delta_statevars) dof;
  Ok (Extracted chemical_potentials phase_amt delta_statevars
                largest_statevar_change largest_phase_amt_change dof).

(** ** ConvergenceController: [check_convergence_and_change_phases] *)

(** [driving_forces[:, 0]], the first column of an [(n, 1)] array. *)
Definition column0 (m : matrix) : res vec :=
  if decide (0 < ncols m)
  then mapM (fun i => mget m i 0) (seq 0 (nrows m))
  else Raise IndexError.

Definition compsets_to_add (df : vec) : gset nat :=
  list_to_set (np_nonzero (fun x => F.gtb x (-1e-5)%float) df).

Definition py_sorted (s : gset nat) : list nat := merge_sort (≤) (elements s).

Definition check_convergence_and_change_phases
    (current_free_stable_compset_indices : list nat) (driving_forces : matrix)
    (largest_internal_dof_change : float)
    (largest_phase_amt_change largest_statevar_change : matrix)
  : res (bool * list nat) :=
  df ← column0 driving_forces;
  let to_add := compsets_to_add df in
  let new_free_stable_compset_indices :=
    py_sorted (list_to_set current_free_stable_compset_indices ∪ to_add) in
  if decide (size ((list_to_set current_free_stable_compset_indices : gset nat)
                   ∖ list_to_set new_free_stable_compset_indices) = 0)
  then
    (* feasible system, and no phases to add or remove *)
    if (largest_internal_dof_change <? 1e-11)%float then
      lpac ← mget largest_phase_amt_change 0 0;
      if (lpac <? 1e-10)%float then
        lsvc ← mget largest_statevar_change 0 0;
        if (lsvc <? 1e-1)%float
        then Ok (true, new_free_stable_compset_indices)
        else Ok (false, new_free_stable_compset_indices)
      else Ok (false, new_free_stable_compset_indices)
    else Ok (false, new_free_stable_compset_indices)
  else Ok (false, new_free_stable_compset_indices).

(** ** SolverDriver: [find_solution] *)

(** The arrays and the active set that one outer iteration updates. *)
Record solver_state : Type := SolverState {
  st_phase_amt : vec;
  st_dof : list vec;
  st_chemical_potentials : vec;
  st_delta_statevars : vec;
  st_free_stable_compset_indices : list nat
}.

(** What the first step of an iteration leaves. *)
Record internal_update : Type := InternalUpdate {
  iu_dof : list vec;
  iu_current_elemental_amounts : vec;
  iu_all_phase_energies : matrix;
  iu_all_phase_amounts : matrix;
  iu_largest_internal_dof_change : float;
  iu_largest_internal_cons_max_residual : float
}.

(** How the body of the [for iteration in range(100)] loop ends: it falls
    through to the next iteration, or it reaches [break] with
    [converged = True]. *)
Inductive outcome : Type :=
  | Continue (st : solver_state)
  | Break (st : solver_state).

Definition outcome_state (o : outcome) : solver_state :=
  match o with Continue st | Break st => st end.

(** [new_y[new_y < MIN_SITE_FRACTION] = MIN_SITE_FRACTION; new_y[new_y > 1] = 1]. *)
Definition clip_site_fraction (y : float) : float :=
  let y := if (y <? MIN_SITE_FRACTION)%float then MIN_SITE_FRACTION else y in
  if F.gtb y 1%float then 1%float else y.

(** [x = np.r_[x, cs_dof[num_statevars:]]] over [dof[1:]], then [phase_amt]. *)
Definition pack_solution (num_statevars : nat) (dof : list vec) (phase_amt : vec)
  : res vec :=
  x ← of_option IndexError (dof !! 0);
  Ok (fold_left (fun x cs_dof => x ++ drop num_statevars cs_dof) (drop 1 dof) x
      ++ phase_amt).

(** The inputs of [find_solution] that stay fixed during a call. *)
Record conditions : Type := Conditions {
  num_statevars : nat;
  num_components : nat;
  prescribed_system_amount : float;
  initial_chemical_potentials : vec;
  free_chemical_potential_indices : list nat;
  fixed_chemical_potential_indices : list nat;
  prescribed_element_indices : list nat;
  prescribed_elemental_amounts : vec;
  free_statevar_indices : list nat;
  fixed_statevar_indices : list nat
}.

Section Solver.

Variable np : NumPy.
Variable compsets : list CompositionSet.
Variable c : conditions.

(** The body of [for idx, compset in enumerate(compsets)]. *)
Definition update_internal_dof (phase_amt chemical_potentials delta_statevars : vec)
    (idx : nat) (compset : CompositionSet) (u : internal_update)
  : res internal_update :=
  let pr := phase_record compset in
  let D := phase_dof pr in
  let K := num_internal_cons pr in
  x ← of_option IndexError (iu_dof u !! idx);
  let phase_matrix := np_zeros2 (D + K) (D + K) in
  let rhs := np_zeros (D + K) in
  '(phase_matrix, rhs, internal_cons_max_residual) ←
    compute_phase_system phase_matrix rhs pr delta_statevars chemical_potentials x;
  soln ← of_option LinAlgError (linalg_solve np phase_matrix rhs);
  let delta_y := take D soln in
  let largest_internal_cons_max_residual :=
    F.py_max (iu_largest_internal_cons_max_residual u) internal_cons_max_residual in
  let old_y := drop (num_statevars c) x in
  new_y ← zip_same add old_y delta_y;
  let new_y := map clip_site_fraction new_y in
  change ← zip_same sub new_y old_y;
  largest ← F.np_max (np_abs change);
  let largest_internal_dof_change :=
    F.py_max (iu_largest_internal_dof_change u) largest in
  let x := take (num_statevars c) x ++ new_y in
  let dof := <[idx := x]> (iu_dof u) in
  '(all_phase_amounts, current_elemental_amounts) ←
    for_range (num_components c) (fun comp_idx acc =>
      let masses_tmp := mass_obj pr x comp_idx in
      all_phase_amounts ← mset (fst acc) idx comp_idx masses_tmp;
      pa ← vget phase_amt idx;
      current_elemental_amounts ←
        (if F.gtb pa 0%float
         then vadd (snd acc) comp_idx (pa * masses_tmp)%float
         else Ok (snd acc));
      Ok (all_phase_amounts, current_elemental_amounts))
      (iu_all_phase_amounts u, iu_current_elemental_amounts u);
  all_phase_energies ← mset (iu_all_phase_energies u) idx 0 (obj pr x);
  Ok (InternalUpdate dof current_elemental_amounts all_phase_energies
        all_phase_amounts largest_internal_dof_change
        largest_internal_cons_max_residual).

(** FIRST STEP: Update phase internal degrees of freedom. *)
Definition update_internal_dofs (st : solver_state) : res internal_update :=
  let n := length compsets in
  let m := length (st_chemical_potentials st) in
  for_range n (fun idx u =>
    compset ← of_option IndexError (compsets !! idx);
    update_internal_dof (st_phase_amt st) (st_chemical_potentials st)
                        (st_delta_statevars st) idx compset u)
    (InternalUpdate (st_dof st) (np_zeros m) (np_zeros2 n 1) (np_zeros2 n m)
                    0%float 0%float).

Definition num_equations (st : solver_state) : nat :=
  length (st_free_stable_compset_indices st)
  + length (prescribed_elemental_amounts c) + 1.

Definition num_free_variables (st : solver_state) : nat :=
  length (free_chemical_potential_indices c)
  + length (st_free_stable_compset_indices st)
  + length (free_statevar_indices c).

(** The Gibbs phase rule test of the SECOND STEP. *)
Definition check_gibbs_phase_rule (st : solver_state) : res unit :=
  if decide (num_equations st ≠ num_free_variables st)
  then Raise GibbsPhaseRule else Ok tt.

(** The global system of one iteration: [equilibrium_matrix],
    [equilibrium_rhs] and [mass_residual]. *)
Definition equilibrium_system (st : solver_state) (u : internal_update)
  : res (matrix * vec * float) :=
  let equilibrium_matrix := np_zeros2 (num_equations st) (num_free_variables st) in
  let equilibrium_rhs := np_zeros (num_equations st) in
  fill_equilibrium_system np equilibrium_matrix equilibrium_rhs compsets
    (st_chemical_potentials st) (iu_current_elemental_amounts u) (st_phase_amt st)
    (free_chemical_potential_indices c) (free_statevar_indices c)
    (st_free_stable_compset_indices st) (fixed_chemical_potential_indices c)
    (prescribed_element_indices c) (prescribed_elemental_amounts c)
    (num_statevars c) (prescribed_system_amount c) (iu_dof u).

Definition system_is_feasible (mass_residual : float) (u : internal_update) : bool :=
  (mass_residual <? 1e-05)%float
  && (iu_largest_internal_cons_max_residual u <? 1e-10)%float.

(** The phase-change and convergence block guarded by [system_is_feasible]. *)
Definition change_phases (u : internal_update) (e : extracted)
    (largest_phase_amt_change largest_statevar_change : matrix)
  : res (bool * list nat) :=
  let free_stable_compset_indices :=
    np_nonzero (fun a => F.gtb a MIN_SITE_FRACTION) (ex_phase_amt e) in
  (* Check driving forces for metastable phases *)
  all_phase_energies ← for_range (length compsets) (fun idx energies =>
    amounts ← mrow (iu_all_phase_amounts u) idx;
    msub energies idx 0 (np_dot np (ex_chemical_potentials e) amounts))
    (iu_all_phase_energies u);
  check_convergence_and_change_phases free_stable_compset_indices all_phase_energies
    (iu_largest_internal_dof_change u) largest_phase_amt_change
    largest_statevar_change.

(** The state an iteration leaves, given the active set it ends with. *)
Definition next_state (e : extracted) (free_stable_compset_indices : list nat)
  : solver_state :=
  SolverState (ex_phase_amt e) (ex_dof e) (ex_chemical_potentials e)
              (ex_delta_statevars e) free_stable_compset_indices.

(** The body of the outer loop. *)
Definition iteration (st : solver_state) : res outcome :=
  u ← update_internal_dofs st;
  (* SECOND STEP: Update potentials and phase amounts, according to conditions *)
  _ ← check_gibbs_phase_rule st;
  '(equilibrium_matrix, equilibrium_rhs, mass_residual) ← equilibrium_system st u;
  equilibrium_soln ←
    of_option LinAlgError (linalg_lstsq np equilibrium_matrix equilibrium_rhs);
  e ← extract_equilibrium_solution (st_chemical_potentials st) (st_phase_amt st)
        (st_delta_statevars st) (free_chemical_potential_indices c)
        (free_statevar_indices c) (st_free_stable_compset_indices st)
        equilibrium_soln (np_zeros 1) (np_zeros 1) (iu_dof u);
  (* Wait for mass balance to be satisfied before changing phases *)
  if system_is_feasible mass_residual u then
    '(converged, new_free_stable_compset_indices) ←
      change_phases u e (Matrix 1 1 (ex_largest_phase_amt_change e))
                        (Matrix 1 1 (ex_largest_statevar_change e));
    if converged : bool
    then Ok (Break (next_state e new_free_stable_compset_indices))
    else Ok (Continue (next_state e new_free_stable_compset_indices))
  else Ok (Continue (next_state e (st_free_stable_compset_indices st))).

End Solver.

(** *** The caller's objects and the solver's own arrays *)

(** The Python heap as far as [find_solution] can reach it: the
    [CompositionSet] objects and the array buffers, each list indexed by
    address.  A composition set holds the address of its [dof] buffer, so a
    write through an alias of that buffer is a write the caller sees. *)
Record store : Type := Store {
  objects : list CompositionSet;
  buffers : list vec
}.

(** The addresses of the arrays [find_solution] binds to its local names. *)
Record frame : Type := Frame {
  a_phase_amt : nat;
  a_dof : list nat;
  a_chemical_potentials : nat;
  a_delta_statevars : nat
}.

Definition get_object (σ : store) (r : nat) : res CompositionSet :=
  of_option Unallocated (objects σ !! r).

Definition read (σ : store) (a : nat) : res vec :=
  of_option Unallocated (buffers σ !! a).

Definition write (σ : store) (a : nat) (v : vec) : res store :=
  if decide (a < length (buffers σ))
  then Ok (Store (objects σ) (<[a := v]> (buffers σ)))
  else Raise Unallocated.

(** A new array holding [v]; its address is fresh. *)
Definition alloc (σ : store) (v : vec) : store * nat :=
  (Store (objects σ) (buffers σ ++ [v]), length (buffers σ)).

(** [np.array(a)] of an existing buffer: a copy in a new array. *)
Definition np_array (σ : store) (a : nat) : res (store * nat) :=
  v ← read σ a; Ok (alloc σ v).

Section FindSolution.

Variable np : NumPy.
(** The list [compsets] holds references to the caller's objects. *)
Variable compsets : list nat.
Variable c : conditions.

Definition get_compsets (σ : store) : res (list CompositionSet) :=
  mapM (get_object σ) compsets.

(** [dof = [np.array(compset.dof) for compset in compsets]]. *)
Fixpoint copy_dofs (σ : store) (cs : list CompositionSet) : res (store * list nat) :=
  match cs with
  | [] => Ok (σ, [])
  | compset :: cs' =>
      '(σ, a) ← np_array σ (dof compset);
      '(σ, copies) ← copy_dofs σ cs';
      Ok (σ, a :: copies)
  end.

(** The four assignments before the loop. *)
Definition initialise (σ : store) : res (store * frame) :=
  cs ← get_compsets σ;
  (* phase_amt = np.array([compset.NP for compset in compsets]) *)
  let '(σ, phase_amt) := alloc σ (map NP cs) in
  '(σ, copies) ← copy_dofs σ cs;
  let '(σ, chemical_potentials) := alloc σ (initial_chemical_potentials c) in
  let '(σ, delta_statevars) := alloc σ (np_zeros (num_statevars c)) in
  Ok (σ, Frame phase_amt copies chemical_potentials delta_statevars).

Definition load (σ : store) (fr : frame) (free_stable_compset_indices : list nat)
  : res solver_state :=
  phase_amt ← read σ (a_phase_amt fr);
  dof ← mapM (read σ) (a_dof fr);
  chemical_potentials ← read σ (a_chemical_potentials fr);
  delta_statevars ← read σ (a_delta_statevars fr);
  Ok (SolverState phase_amt dof chemical_potentials delta_statevars
                  free_stable_compset_indices).

Fixpoint write_all (σ : store) (addresses : list nat) (values : list vec) : res store :=
  match addresses, values with
  | a :: addresses', v :: values' => σ ← write σ a v; write_all σ addresses' values'
  | _, _ => Ok σ
  end.

(** The in-place updates of one iteration, written to the arrays they
    belong to. *)
Definition store_back (σ : store) (fr : frame) (st : solver_state) : res store :=
  σ ← write σ (a_phase_amt fr) (st_phase_amt st);
  σ ← write_all σ (a_dof fr) (st_dof st);
  σ ← write σ (a_chemical_potentials fr) (st_chemical_potentials st);
  write σ (a_delta_statevars fr) (st_delta_statevars st).

(** One pass through the loop body, on the arrays in the store. *)
Definition iteration_in_place (σ : store) (fr : frame)
    (free_stable_compset_indices : list nat) : res (store * outcome) :=
  cs ← get_compsets σ;
  st ← load σ fr free_stable_compset_indices;
  o ← iteration np cs c st;
  σ ← store_back σ fr (outcome_state o);
  Ok (σ, o).

(** [for iteration in range(n)]: the number of bodies entered, and either
    the exception that ended the loop or the store, [converged] and the
    active set after it. *)
Fixpoint iterations (n : nat) (σ : store) (fr : frame)
    (free_stable_compset_indices : list nat)
  : nat * res (store * bool * list nat) :=
  match n with
  | 0 => (0, Ok (σ, false, free_stable_compset_indices))
  | S n' =>
      match iteration_in_place σ fr free_stable_compset_indices with
      | Raise e => (1, Raise e)
      | Ok (σ', Break st) => (1, Ok (σ', true, st_free_stable_compset_indices st))
      | Ok (σ', Continue st) =>
          let r := iterations n' σ' fr (st_free_stable_compset_indices st) in
          (S (fst r), snd r)
      end
  end.

(** The run of [find_solution] up to the end of the loop. *)
Definition solve (σ : store) (free_stable_compset_indices : list nat)
  : nat * res (store * frame * bool) :=
  match initialise σ with
  | Raise e => (0, Raise e)
  | Ok (σ, fr) =>
      let r := iterations 100 σ fr free_stable_compset_indices in
      (fst r, '(σ, converged, _) ← snd r; Ok (σ, fr, converged))
  end.

Definition find_solution (σ : store) (free_stable_compset_indices : list nat)
  : res (store * (bool * vec * vec)) :=
  '(σ, fr, converged) ← snd (solve σ free_stable_compset_indices);
  st ← load σ fr [];
  x ← pack_solution (num_statevars c) (st_dof st) (st_phase_amt st);
  Ok (σ, (converged, x, st_chemical_potentials st)).

(** The outer iterations a call executes. *)
Definition iterations_executed (σ : store) (free_stable_compset_indices : list nat)
  : nat :=
  fst (solve σ free_stable_compset_indices).

End FindSolution.

(** ** Notions used in the statements *)

(** A phase amount as the two [np.minimum]/[np.maximum] clips leave it. *)
Definition clipped_amount (v : float) : Prop :=
  is_nan v = true \/ F.between 0 1 v.

(** The internal degrees of freedom of a [dof] vector, as the two masked
    assignments leave them. *)
Definition site_fractions_clipped (num_statevars : nat) (x : vec) : Prop :=
  forall j v, num_statevars <= j -> x !! j = Some v ->
    is_nan v = true \/ F.between MIN_SITE_FRACTION 1 v.

(** A spec float that is NaN or plus infinity. *)
Definition sf_nonfinite (x : spec_float) : Prop :=
  x = S754_nan \/ x = S754_infinity false.

(** [phase_amt[idx] > 0]. *)
Definition has_positive_amount (phase_amt : vec) (idx : nat) : bool :=
  from_option (fun pa => F.gtb pa 0%float) false (phase_amt !! idx).

(** [phase_amt[idx] * mass[idx, comp_idx]], the mass taken at the point [dof[idx]]. *)
Definition mass_contribution (compsets : list CompositionSet) (phase_amt : vec)
    (dof : list vec) (comp_idx idx : nat) : float :=
  match compsets !! idx, phase_amt !! idx, dof !! idx with
  | Some compset, Some pa, Some x =>
      (pa * mass_obj (phase_record compset) x comp_idx)%float
  | _, _, _ => 0%float
  end.

(** The sum, in the order of [phases], of one contribution per phase. *)
Definition accumulate (contribution : nat -> float) (phases : list nat) : float :=
  fold_left (fun acc idx => (acc + contribution idx)%float) phases 0%float.

(** The composition sets with a positive amount, in the order of [compsets]. *)
Definition positive_phases (compsets : list CompositionSet) (phase_amt : vec)
  : list nat :=
  filter (fun idx => has_positive_amount phase_amt idx = true)
         (seq 0 (length compsets)).

(** No exception, or one other than the phase-rule error. *)
Definition never_gibbs {A} (r : res A) : Prop := r <> Raise GibbsPhaseRule.

(** The shape of a matrix, and of a system (matrix and right-hand side). *)
Definition mshape (m : matrix) : nat * nat := (nrows m, ncols m).
Definition sshape (s : matrix * vec) : nat * nat * nat :=
  (nrows s.1, ncols s.1, length s.2).

(** Every address of the frame is at least [n]. *)
Definition frame_above (n : nat) (fr : frame) : Prop :=
  n <= a_phase_amt fr /\ Forall (fun a => n <= a) (a_dof fr)
  /\ n <= a_chemical_potentials fr /\ n <= a_delta_statevars fr.

(** [σ'] has the objects of [σ] and its buffers below address [n]. *)
Definition unchanged_below (n : nat) (σ σ' : store) : Prop :=
  objects σ' = objects σ
  /\ length (buffers σ) <= length (buffers σ')
  /\ forall a, a < n -> buffers σ' !! a = buffers σ !! a.

(** The reading of the lifecycle sentence of the spec: after the loop every
    composition set holds the solver's [dof] and [phase_amt] entries. *)
Definition solution_in_composition_sets (np : NumPy) (compsets : list nat)
    (c : conditions) (σ : store) (free_stable_compset_indices : list nat) : Prop :=
  forall σ' fr converged st,
    snd (solve np compsets c σ free_stable_compset_indices) = Ok (σ', fr, converged) ->
    load σ' fr [] = Ok st ->
    forall i r compset,
      compsets !! i = Some r -> get_object σ' r = Ok compset ->
      buffers σ' !! dof compset = st_dof st !! i
      /\ Some (NP compset) = st_phase_amt st !! i.

(** The phase system of a composition set at the point [x], as the first
    step of an iteration builds it, and what [np.linalg.solve] returns on it. *)
Definition internal_step (np : NumPy) (st : solver_state) (compset : CompositionSet)
    (x psoln : vec) : Prop :=
  let pr := phase_record compset in
  let n := phase_dof pr + num_internal_cons pr in
  exists phase_matrix phase_rhs r,
    compute_phase_system (np_zeros2 n n) (np_zeros n) pr (st_delta_statevars st)
      (st_chemical_potentials st) x = Ok (phase_matrix, phase_rhs, r)
    /\ linalg_solve np phase_matrix phase_rhs = Some psoln.

(** [n] passes through the loop body from the state [st], none raising and
    none reaching [break]: the state they leave. *)
Fixpoint passes (np : NumPy) (compsets : list CompositionSet) (c : conditions)
    (n : nat) (st : solver_state) : option solver_state :=
  match n with
  | 0 => Some st
  | S n' =>
      match iteration np compsets c st with
      | Ok (Continue st') => passes np compsets c n' st'
      | _ => None
      end
  end.

(** The state at the head of the loop: the amounts and the [dof] vectors of
    the composition sets, the initial chemical potentials and no increment
    of the state variables. *)
Definition initial_state (c : conditions) (cs : list CompositionSet) (dofs : list vec)
    (free_stable_compset_indices : list nat) : solver_state :=
  SolverState (map NP cs) dofs (initial_chemical_potentials c)
              (np_zeros (num_statevars c)) free_stable_compset_indices.

(** The arrays of the frame are distinct arrays of the store. *)
Definition frame_addresses (fr : frame) : list nat :=
  a_phase_amt fr :: a_chemical_potentials fr :: a_delta_statevars fr :: a_dof fr.
Definition frame_allocated (σ : store) (fr : frame) : Prop :=
  NoDup (frame_addresses fr)
  /\ Forall (fun a => a < length (buffers σ)) (frame_addresses fr).

(** No pass through the loop reaches [break]. *)
Definition never_converges (np : NumPy) (compsets : list nat) (c : conditions)
    (σ : store) (free_stable_compset_indices : list nat) : Prop :=
  forall σ0 fr k σ' fs',
    initialise compsets c σ = Ok (σ0, fr) -> k <= 100 ->
    snd (iterations np compsets c k σ0 fr free_stable_compset_indices)
    <> Ok (σ', true, fs').

(** The reading of the termination sentences of the spec: a call in which the
    convergence predicate never holds returns, with [converged = False]. *)
Definition returns_unless_converged (np : NumPy) (compsets : list nat) (c : conditions)
    (σ : store) (free_stable_compset_indices : list nat) : Prop :=
  never_converges np compsets c σ free_stable_compset_indices ->
  exists σ' x mu,
    find_solution np compsets c σ free_stable_compset_indices = Ok (σ', (false, x, mu)).

(** ** A worked instance *)

(** A one-component system with one state variable.  The phases have one
    site fraction [y] and one internal constraint; the per-phase matrix is the
    exchange matrix [[0, 1], [1, 0]] and the global matrix is the identity. *)
Module Demo.

Definition same_cells (a b : vec) : bool :=
  bool_decide (length a = length b)
  && forallb (fun p => (fst p =? snd p)%float) (zip a b).

Definition is_matrix (m : matrix) (r c : nat) (l : vec) : bool :=
  bool_decide (nrows m = r) && bool_decide (ncols m = c) && same_cells (cells m) l.

(** Constraint [y - 1 = 0], unit mass, zero energy. *)
Definition unit_phase : PhaseRecord := {|
  phase_dof := 1; num_internal_cons := 1;
  obj := fun _ => 0%float;
  grad := fun _ _ => 0%float;
  hess := fun _ _ _ => 0%float;
  mass_obj := fun _ _ => 1%float;
  mass_grad := fun _ _ _ => 0%float;
  internal_cons_func := fun x _ => (default 0 (x !! 1%nat) - 1)%float;
  internal_cons_jac := fun _ _ j => if decide (j = 1) then 1%float else 0%float
|}.

(** The same phase with a constraint residual that stays at 1. *)
Definition stuck_phase : PhaseRecord := {|
  phase_dof := 1; num_internal_cons := 1;
  obj := fun _ => 0%float;
  grad := fun _ _ => 0%float;
  hess := fun _ _ _ => 0%float;
  mass_obj := fun _ _ => 1%float;
  mass_grad := fun _ _ _ => 0%float;
  internal_cons_func := fun _ _ => 1%float;
  internal_cons_jac := fun _ _ j => if decide (j = 1) then 1%float else 0%float
|}.

(** What NumPy returns on the systems met here, which it solves exactly: the
    exchange matrix (its own inverse) swaps the two right-hand sides, and
    least squares with the identity returns the right-hand side.  Sums and
    dot products of the one-element arrays met here are left folds. *)
Definition numpy : NumPy := {|
  linalg_solve := fun a b =>
    if is_matrix a 2 2 [0; 1; 1; 0]%float
    then match b with [b0; b1] => Some [b1; b0] | _ => None end
    else None;
  linalg_inv := fun a =>
    if is_matrix a 2 2 [0; 1; 1; 0]%float then Some a else None;
  linalg_lstsq := fun a b =>
    if is_matrix a 2 2 [1; 0; 0; 1]%float then Some b else None;
  np_sum := fun a => fold_left add a 0%float;
  np_dot := fun a b => fold_left add (zip_with mul a b) 0%float
|}.

(** One state variable (fixed), one component whose potential is free. *)
Definition one_free_potential : conditions :=
  Conditions 1 1 1 [1%float] [0] [] [] [] [] [0].

(** The same with the potential fixed: two equations, one unknown. *)
Definition no_free_potential : conditions :=
  Conditions 1 1 1 [1%float] [] [0] [] [] [] [0].

Definition unit_compset : CompositionSet := Build_CompositionSet unit_phase 0.5 0.
Definition stuck_compset : CompositionSet := Build_CompositionSet stuck_phase 0.5 0.
Definition unit_store : store := Store [unit_compset] [[1000; 0.5]%float].
Definition stuck_store : store := Store [stuck_compset] [[1000; 0.5]%float].

(** The state at the head of the first iteration on [unit_store]. *)
Definition start : solver_state :=
  SolverState [0.5]%float [[1000; 0.5]%float] [1%float] [0%float] [0].

(** Two composition sets with a positive amount; only the first is active. *)
Definition two_phases : solver_state :=
  SolverState [0.5; 0.5]%float [[1000; 0.5]; [1000; 0.5]]%float
              [1%float] [0%float] [0].

(** What the first step leaves on [start]. *)
Definition start_update : internal_update :=
  InternalUpdate [[1000; 1]%float] [0.5%float] (Matrix 1 1 [0%float])
                 (Matrix 1 1 [1%float]) 0.5 0.5.

End Demo.

(** ** Notions used in the further statements *)

(** A matrix whose buffer has as many cells as its shape says. *)
Definition well_formed (m : matrix) : Prop := length (cells m) = nrows m * ncols m.

(** Entry [(i, j)] of the left-hand side of Eq. 41 for a phase with [D]
    internal degrees of freedom: the Hessian block, the constraint Jacobian
    below it, its transpose beside it, and zeros in the corner. *)
Definition phase_matrix_entry (pr : PhaseRecord) (num_statevars : nat) (x : vec)
    (hess : nat -> nat -> float) (i j : nat) : float :=
  let D := phase_dof pr in
  if decide (i < D) then
    if decide (j < D) then hess (num_statevars + i) (num_statevars + j)
    else internal_cons_jac pr x (j - D) (num_statevars + i)
  else
    if decide (j < D) then internal_cons_jac pr x (i - D) (num_statevars + j)
    else 0%float.

(** The default of a total lookup [a !!! i] in an array; inside the bounds it
    is never reached. *)
#[global] Instance float_inhabited : Inhabited float := populate 0%float.

(** [init - t 0 - ... - t (n-1)] and [init + t 0 + ... + t (n-1)], in the
    order of the loop. *)
Definition subtract_terms (init : float) (n : nat) (t : nat -> float) : float :=
  fold_left (fun acc k => (acc - t k)%float) (seq 0 n) init.
Definition add_terms (init : float) (n : nat) (t : nat -> float) : float :=
  fold_left (fun acc k => (acc + t k)%float) (seq 0 n) init.

(** Entry [i] of the right-hand side of Eq. 41. *)
Definition phase_rhs_entry (pr : PhaseRecord) (delta_statevars chemical_potentials x : vec)
    (i : nat) : float :=
  let n := length delta_statevars in
  if decide (i < phase_dof pr) then
    add_terms
      (subtract_terms (- grad pr x (n + i))%float n
         (fun sv_idx => (hess pr x (n + i) sv_idx * (delta_statevars !!! sv_idx))%float))
      (length chemical_potentials)
      (fun comp_idx =>
         ((chemical_potentials !!! comp_idx) * mass_grad pr x comp_idx (n + i))%float)
  else (- internal_cons_func pr x (i - phase_dof pr))%float.

(** One of the internal constraints of the phase is NaN at the point [x]. *)
Definition nan_residual (pr : PhaseRecord) (x : vec) : Prop :=
  exists k, k < num_internal_cons pr /\ is_nan (internal_cons_func pr x k) = true.

(** Every internal constraint of the phase is at most [bound] in absolute
    value at the point [x]. *)
Definition residuals_within (pr : PhaseRecord) (x : vec) (bound : float) : Prop :=
  forall k, k < num_internal_cons pr ->
    (abs (internal_cons_func pr x k) <=? bound)%float = true.

(** What a cell of a matrix and an entry of a vector hold. *)
Definition at_cell (a b : nat) (m : matrix) : res float := mget m a b.
Definition at_index (k : nat) (v : vec) : option float := v !! k.

(** What [fill_equilibrium_system] returns: the relative deviations of the
    prescribed elements, in the order of the loop, then the absolute
    deviation of the system amount. *)
Definition mass_residual_of (np : NumPy) (current_elemental_amounts phase_amt : vec)
    (prescribed_element_indices : list nat) (prescribed_elemental_amounts : vec)
    (prescribed_system_amount : float) : float :=
  (add_terms 0 (length prescribed_elemental_amounts)
     (fun k =>
        let amount := current_elemental_amounts !!! (prescribed_element_indices !!! k) in
        let target := prescribed_elemental_amounts !!! k in
        abs (amount - target) / abs target)
   + abs (np_sum np phase_amt - prescribed_system_amount))%float.

(** All the [dof] vectors hold the same state variables. *)
Definition shared_statevars (num_statevars : nat) (dof : list vec) : Prop :=
  forall i j x y, dof !! i = Some x -> dof !! j = Some y ->
    take num_statevars x = take num_statevars y.

(** The chemical potentials agree with [mu0] outside the free indices. *)
Definition fixed_potentials_kept (c : conditions) (mu0 mu : vec) : Prop :=
  length mu = length mu0
  /\ forall k, k ∉ free_chemical_potential_indices c -> mu !! k = mu0 !! k.

(** The driving force of a phase at the point [x]: its energy minus the dot
    product of the chemical potentials with its masses. *)
Definition driving_force (np : NumPy) (pr : PhaseRecord) (x mu : vec) : float :=
  (obj pr x - np_dot np mu (tabulate (length mu) (mass_obj pr x)))%float.

(** The second pass through the loop on [Demo.unit_store], in which the
    solver converges. *)
Module SecondPass.

(** The state at the head of the second iteration. *)
Definition start : solver_state :=
  SolverState [1]%float [[1000; 1]%float] [0%float] [0%float] [0].

End SecondPass.

(** * Properties *)

(** ** Comparisons of doubles *)

Lemma SFcompare_swap x y : SFcompare y x = option_map CompOpp (SFcompare x y).
Proof.
  destruct x as [s| s| |s m e], y as [s'| s'| |s' m' e']; simpl; try reflexivity;
    try (destruct s; reflexivity); try (destruct s'; reflexivity);
    try (destruct s, s'; reflexivity).
  f_equal. destruct s, s'; try reflexivity.
  - rewrite (Z.compare_antisym e e'). destruct (e ?= e')%Z; simpl; try reflexivity.
    rewrite Pos.compare_cont_antisym. simpl. now destruct (Pos.compare_cont Eq m m').
  - rewrite (Z.compare_antisym e e'). destruct (e ?= e')%Z; simpl; try reflexivity.
    rewrite Pos.compare_cont_antisym. simpl. reflexivity.
Qed.

Lemma SFcompare_None x y : SFcompare x y = None <-> x = S754_nan \/ y = S754_nan.
Proof.
  destruct x as [s| s| |s m e], y as [s'| s'| |s' m' e']; simpl; split; intros H;
    try discriminate; try (destruct H; discriminate); auto.
Qed.

Lemma is_nan_spec x : is_nan x = true <-> Prim2SF x = S754_nan.
Proof.
  unfold is_nan. rewrite FloatAxioms.eqb_spec. unfold SFeqb.
  destruct (Prim2SF x) as [s| s| |s m e] eqn:E; simpl; split; intros H;
    try discriminate; auto.
  - destruct s; discriminate.
  - destruct s; rewrite Z.compare_refl, ?Pos.compare_cont_refl in H; discriminate.
Qed.

Lemma is_nan_false x : Prim2SF x <> S754_nan -> is_nan x = false.
Proof.
  intros H. destruct (is_nan x) eqn:N; [|reflexivity].
  apply is_nan_spec in N. contradiction.
Qed.

(** [x >= c] excludes [x < c]. *)
Lemma leb_not_ltb x y : (x <=? y)%float = true -> (y <? x)%float = false.
Proof.
  rewrite FloatAxioms.leb_spec, FloatAxioms.ltb_spec. unfold SFleb, SFltb.
  rewrite (SFcompare_swap (Prim2SF x) (Prim2SF y)).
  destruct (SFcompare (Prim2SF x) (Prim2SF y)) as [[]|]; simpl; congruence.
Qed.

(** Numbers are totally ordered; only a NaN is not comparable. *)
Lemma not_ltb_leb x y :
  is_nan x = false -> is_nan y = false ->
  (x <? y)%float = false -> (y <=? x)%float = true.
Proof.
  intros Hx Hy. rewrite FloatAxioms.leb_spec, FloatAxioms.ltb_spec. unfold SFleb, SFltb.
  rewrite (SFcompare_swap (Prim2SF x) (Prim2SF y)).
  destruct (SFcompare (Prim2SF x) (Prim2SF y)) as [[]|] eqn:E; simpl; try congruence.
  apply SFcompare_None in E. rewrite <- !is_nan_spec in E. destruct E; congruence.
Qed.

Lemma not_leb_ltb x y :
  is_nan x = false -> is_nan y = false ->
  (x <=? y)%float = false -> (y <? x)%float = true.
Proof.
  intros Hx Hy. rewrite FloatAxioms.leb_spec, FloatAxioms.ltb_spec. unfold SFleb, SFltb.
  rewrite (SFcompare_swap (Prim2SF x) (Prim2SF y)).
  destruct (SFcompare (Prim2SF x) (Prim2SF y)) as [[]|] eqn:E; simpl; try congruence.
  apply SFcompare_None in E. rewrite <- !is_nan_spec in E. destruct E; congruence.
Qed.

Lemma ltb_leb x y : (x <? y)%float = true -> (x <=? y)%float = true.
Proof.
  rewrite FloatAxioms.leb_spec, FloatAxioms.ltb_spec. unfold SFleb, SFltb.
  destruct (SFcompare (Prim2SF x) (Prim2SF y)) as [[]|]; simpl; congruence.
Qed.

(** ** The two clips *)

Lemma clip_phase_amt_between a :
  is_nan a = false -> F.between 0 1 (clip_phase_amt a).
Proof.
  intros Ha. unfold clip_phase_amt, F.np_minimum, F.np_maximum, F.geb, F.between.
  change (is_nan 1) with false. change (is_nan 0) with false. rewrite !orb_false_r.
  destruct (1 <=? a)%float eqn:H1.
  - vm_compute. auto.
  - destruct (a <=? 0)%float eqn:H0.
    + vm_compute; auto.
    + split; apply ltb_leb, not_leb_ltb; auto.
Qed.

Lemma clip_phase_amt_nan a : is_nan a = true -> is_nan (clip_phase_amt a) = true.
Proof.
  intros Ha. unfold clip_phase_amt, F.np_minimum, F.np_maximum, F.geb.
  change (is_nan 1) with false. change (is_nan 0) with false. rewrite !orb_false_r.
  pose proof Ha as Hsf%is_nan_spec.
  assert (H1 : (1 <=? a)%float = false).
  { rewrite FloatAxioms.leb_spec, Hsf. reflexivity. }
  assert (H0 : (a <=? 0)%float = false).
  { rewrite FloatAxioms.leb_spec, Hsf. reflexivity. }
  rewrite H1, H0. exact Ha.
Qed.

Lemma clip_phase_amt_clipped a : clipped_amount (clip_phase_amt a).
Proof.
  destruct (is_nan a) eqn:E.
  - left. now apply clip_phase_amt_nan.
  - right. now apply clip_phase_amt_between.
Qed.

Lemma clip_site_fraction_between y :
  is_nan y = false -> F.between MIN_SITE_FRACTION 1 (clip_site_fraction y).
Proof.
  intros Hy. unfold clip_site_fraction, F.gtb, F.between.
  destruct (y <? MIN_SITE_FRACTION)%float eqn:Hlo.
  - vm_compute. auto.
  - destruct (1 <? y)%float eqn:Hhi.
    + vm_compute. auto.
    + split; apply not_ltb_leb; auto.
Qed.

Lemma clip_site_fraction_nan y : is_nan y = true -> clip_site_fraction y = y.
Proof.
  intros Hy%is_nan_spec. unfold clip_site_fraction, F.gtb.
  assert ((y <? MIN_SITE_FRACTION)%float = false) as ->
    by (rewrite FloatAxioms.ltb_spec, Hy; reflexivity).
  assert ((1 <? y)%float = false) as ->
    by (rewrite FloatAxioms.ltb_spec, Hy; reflexivity).
  reflexivity.
Qed.

Lemma clip_site_fraction_clipped y :
  is_nan (clip_site_fraction y) = true
  \/ F.between MIN_SITE_FRACTION 1 (clip_site_fraction y).
Proof.
  destruct (is_nan y) eqn:E.
  - left. now rewrite clip_site_fraction_nan.
  - right. now apply clip_site_fraction_between.
Qed.

(** ** Division by a zero potential *)

Lemma is_zero_spec x : is_zero x = true -> exists s, Prim2SF x = S754_zero s.
Proof.
  unfold is_zero. rewrite FloatAxioms.eqb_spec. unfold SFeqb.
  change (Prim2SF zero) with (S754_zero false).
  destruct (Prim2SF x) as [s| s| |s m e]; simpl; try discriminate; eauto.
  - destruct s; discriminate.
  - destruct s; discriminate.
Qed.

Lemma is_zero_eq x : is_zero x = SFeqb (Prim2SF x) (S754_zero false).
Proof. unfold is_zero. now rewrite FloatAxioms.eqb_spec. Qed.

(** The relative change against a zero potential: NaN when the difference is
    a zero or a NaN, plus infinity otherwise. *)
Lemma percent_chempot_change_zero new old :
  is_zero old = true ->
  Prim2SF (percent_chempot_change new old)
  = match Prim2SF (new - old)%float with
    | S754_zero _ | S754_nan => S754_nan
    | _ => S754_infinity false
    end.
Proof.
  intros [s Hs]%is_zero_spec. unfold percent_chempot_change.
  rewrite abs_spec, div_spec, Hs. unfold SF64div, SFdiv.
  destruct (Prim2SF (new - old)); reflexivity.
Qed.

(** Subtracting a zero leaves the class of the new value. *)
Lemma sub_zero_class new old :
  is_zero old = true ->
  match Prim2SF (new - old)%float with
  | S754_zero _ => is_zero new = true
  | S754_nan => is_nan new = true
  | _ => is_zero new = false /\ is_nan new = false
  end.
Proof.
  intros [s Hs]%is_zero_spec. rewrite sub_spec, Hs, is_zero_eq.
  destruct (Prim2SF new) as [s'| s'| |s' m e] eqn:E; simpl.
  - destruct s', s; reflexivity.
  - split; [now destruct s' | apply is_nan_false; congruence].
  - now apply is_nan_spec.
  - split; [now destruct s' | apply is_nan_false; congruence].
Qed.

(** A NaN second argument is dropped by [max]. *)
Lemma py_max_nan t p : is_nan p = true -> F.py_max t p = t.
Proof.
  intros Hp%is_nan_spec. unfold F.py_max, F.gtb.
  rewrite FloatAxioms.ltb_spec, Hp. unfold SFltb.
  now destruct (Prim2SF t) as [[]|[]| |[]].
Qed.

Lemma is_finite_false x : sf_nonfinite (Prim2SF x) -> is_finite x = false.
Proof.
  unfold is_finite. intros [H|H].
  - apply is_nan_spec in H. now rewrite H.
  - unfold is_infinity. rewrite FloatAxioms.eqb_spec, abs_spec, H.
    change (Prim2SF infinity) with (S754_infinity false). simpl.
    change (SFeqb (S754_infinity false) (S754_infinity false)) with true.
    now rewrite orb_true_r.
Qed.

(** With plus infinity as second argument, [max] returns plus infinity, or
    the NaN it was given first. *)
Lemma py_max_infinity t p :
  Prim2SF p = S754_infinity false -> sf_nonfinite (Prim2SF (F.py_max t p)).
Proof.
  intros Hp. unfold F.py_max, F.gtb. rewrite FloatAxioms.ltb_spec, Hp. unfold SFltb.
  destruct (Prim2SF t) as [s|s| |s m e] eqn:E; simpl.
  - right. exact Hp.
  - destruct s; simpl; [right; exact Hp | right; exact E].
  - left. exact E.
  - right. destruct s; exact Hp.
Qed.

(** ** The error monad and the loops *)

Lemma bind_Ok {A B} (m : res A) (f : A -> res B) b :
  m ≫= f = Ok b -> exists a, m = Ok a /\ f a = Ok b.
Proof. destruct m; simpl; [eauto | discriminate]. Qed.

Lemma of_option_Ok {A} e (o : option A) a : of_option e o = Ok a -> o = Some a.
Proof. destruct o; simpl; congruence. Qed.

(** Splits a hypothesis [... = Ok _] along the binds it is made of. *)
Ltac inv_ok :=
  repeat match goal with
  | H : Ok _ = Ok _ |- _ => injection H as H; try subst
  | H : Raise _ = Ok _ |- _ => discriminate H
  | H : mret _ = Ok _ |- _ => unfold mret, res_ret in H
  | H : (_ , _) = (_ , _) |- _ => injection H as ? ?; try subst
  | H : mbind _ _ = Ok _ |- _ =>
      let a := fresh "a" in let E := fresh "E" in
      apply bind_Ok in H as (a & E & H)
  | H : (let '(_, _) := ?p in _) = Ok _ |- _ =>
      first [is_var p; destruct p
            | let x := fresh in let y := fresh in let E := fresh "E" in
              destruct p as [x y] eqn:E; cbv beta iota in H]
  | H : of_option _ _ = Ok _ |- _ => apply of_option_Ok in H
  end.

Lemma for_each_seq_ind {S} (I : nat -> S -> Prop) (body : nat -> S -> res S) a n s s' :
  I a s ->
  (forall i s1 s2, a <= i < a + n -> I i s1 -> body i s1 = Ok s2 -> I (Datatypes.S i) s2) ->
  for_each (seq a n) body s = Ok s' -> I (a + n) s'.
Proof.
  revert a s. induction n as [|n IH]; simpl; intros a s Hs Hstep H.
  - rewrite Nat.add_0_r. congruence.
  - destruct (body a s) as [s1|] eqn:E; [|discriminate].
    replace (a + Datatypes.S n) with (Datatypes.S a + n) by lia.
    apply (IH (Datatypes.S a) s1); auto.
    + eapply Hstep; eauto. lia.
    + intros. eapply Hstep; eauto. lia.
Qed.

(** Invariants of a [for i in range(n)] loop, indexed by the passes made. *)
Lemma for_range_ind {S} (I : nat -> S -> Prop) (body : nat -> S -> res S) n s s' :
  I 0 s ->
  (forall i s1 s2, i < n -> I i s1 -> body i s1 = Ok s2 -> I (Datatypes.S i) s2) ->
  for_range n body s = Ok s' -> I n s'.
Proof.
  intros H0 Hstep H. change n with (0 + n).
  eapply for_each_seq_ind; eauto. intros. eapply Hstep; eauto. lia.
Qed.

(** A quantity that no pass changes. *)
Lemma for_range_preserves {S T} (f : S -> T) n (body : nat -> S -> res S) s s' :
  (forall i s1 s2, body i s1 = Ok s2 -> f s2 = f s1) ->
  for_range n body s = Ok s' -> f s' = f s.
Proof.
  intros Hb. apply (for_range_ind (fun _ a => f a = f s)); [done|].
  intros i s1 s2 _ IH H. rewrite <- IH. eauto.
Qed.

Lemma mapM_Ok {A B} (f : A -> res B) l l' :
  mapM f l = Ok l' -> Forall2 (fun a b => f a = Ok b) l l'.
Proof.
  revert l'. induction l as [|a l IH]; simpl; intros l' H.
  - inv_ok. constructor.
  - inv_ok. constructor; auto.
Qed.

(** ** Buffers *)

Lemma vget_Ok a i v : vget a i = Ok v -> a !! i = Some v.
Proof. apply of_option_Ok. Qed.

Lemma vset_Ok a i v a' : vset a i v = Ok a' -> i < length a /\ a' = <[i := v]> a.
Proof. unfold vset. destruct (decide _); intros; inv_ok; auto. Qed.

Lemma vadd_Ok a i v a' :
  vadd a i v = Ok a' -> exists old, a !! i = Some old /\ a' = <[i := (old + v)%float]> a.
Proof.
  unfold vadd. intros H. inv_ok.
  match goal with Hg : vget _ _ = Ok _ |- _ => apply vget_Ok in Hg end.
  apply vset_Ok in H as [_ ->]. eauto.
Qed.

Lemma zip_same_Ok f a b r :
  zip_same f a b = Ok r -> length a = length b /\ r = zip_with f a b.
Proof. unfold zip_same. destruct (decide _); intros; inv_ok; auto. Qed.

Lemma mset_mshape m i j v m' : mset m i j v = Ok m' -> mshape m' = mshape m.
Proof. unfold mset. destruct (decide _); intros; inv_ok; reflexivity. Qed.

Lemma madd_mshape m i j v m' : madd m i j v = Ok m' -> mshape m' = mshape m.
Proof. unfold madd. intros; inv_ok. eauto using mset_mshape. Qed.

Lemma msub_mshape m i j v m' : msub m i j v = Ok m' -> mshape m' = mshape m.
Proof. unfold msub. intros; inv_ok. eauto using mset_mshape. Qed.

Lemma vset_length a i v a' : vset a i v = Ok a' -> length a' = length a.
Proof. intros [_ ->]%vset_Ok. apply length_insert. Qed.

Lemma vadd_length a i v a' : vadd a i v = Ok a' -> length a' = length a.
Proof. unfold vadd. intros; inv_ok. eauto using vset_length. Qed.

Lemma vsub_length a i v a' : vsub a i v = Ok a' -> length a' = length a.
Proof. unfold vsub. intros; inv_ok. eauto using vset_length. Qed.

(** ** ConvergenceController *)

Lemma elem_of_np_nonzero p (a : vec) i :
  i ∈ np_nonzero p a <-> exists x, a !! i = Some x /\ p x = true.
Proof.
  unfold np_nonzero. rewrite list_elem_of_filter, elem_of_seq. split.
  - intros [H _]. destruct (a !! i) as [x|] eqn:E; simpl in H; [eauto | discriminate].
  - intros (x & E & H). rewrite E. simpl. split; [done|].
    apply lookup_lt_Some in E. lia.
Qed.

Lemma elem_of_py_sorted (s : gset nat) i : i ∈ py_sorted s <-> i ∈ s.
Proof. unfold py_sorted. rewrite merge_sort_Permutation. apply elem_of_elements. Qed.

Lemma py_sorted_sorted s : StronglySorted (≤) (py_sorted s) /\ NoDup (py_sorted s).
Proof.
  split.
  - apply StronglySorted_merge_sort; apply _.
  - unfold py_sorted. rewrite merge_sort_Permutation. apply NoDup_elements.
Qed.

(** Nothing of the current active set is missing from the new one. *)
Lemma no_removal (cur : list nat) (to_add : gset nat) :
  (list_to_set cur : gset nat) ∖ list_to_set (py_sorted (list_to_set cur ∪ to_add)) = ∅.
Proof.
  apply set_eq. intros i.
  rewrite elem_of_difference, !elem_of_list_to_set, elem_of_py_sorted, elem_of_union,
    elem_of_list_to_set.
  split.
  - intros [Hc Hn]. destruct Hn. now left.
  - intros H. apply elem_of_empty in H. destruct H.
Qed.

(** What the function returns on arrays of the shapes [find_solution] passes. *)
Lemma check_convergence_returns cur df a L P d l p :
  column0 df = Ok d -> mget L 0 0 = Ok l -> mget P 0 0 = Ok p ->
  check_convergence_and_change_phases cur df a L P
  = Ok ((a <? 1e-11)%float && (l <? 1e-10)%float && (p <? 1e-1)%float,
        py_sorted (list_to_set cur ∪ compsets_to_add d)).
Proof.
  intros Hd HL HP. unfold check_convergence_and_change_phases.
  rewrite Hd. simpl. rewrite no_removal, size_empty. simpl.
  destruct (a <? 1e-11)%float; [|reflexivity].
  rewrite HL. simpl. destruct (l <? 1e-10)%float; [|reflexivity].
  rewrite HP. simpl. now destruct (p <? 1e-1)%float.
Qed.

(** C6.  On a column of driving forces and two 1x1 trackers,
    [check_convergence_and_change_phases] returns, and its flag is [True]
    exactly when the current active set minus the new one is empty and
    [largest_internal_dof_change < 1e-11] and
    [largest_phase_amt_change[0, 0] < 1e-10] and
    [largest_statevar_change[0, 0] < 1e-1]; it is [False] as soon as one of
    the four fails. *)
Theorem check_convergence_predicate cur df a L P d l p :
  column0 df = Ok d -> mget L 0 0 = Ok l -> mget P 0 0 = Ok p ->
  exists converged new,
    check_convergence_and_change_phases cur df a L P = Ok (converged, new)
    /\ (converged = true <->
        (list_to_set cur : gset nat) ∖ list_to_set new = ∅
        /\ (a <? 1e-11)%float = true /\ (l <? 1e-10)%float = true
        /\ (p <? 1e-1)%float = true)
    /\ (converged = false <->
        (list_to_set cur : gset nat) ∖ list_to_set new <> ∅
        \/ (a <? 1e-11)%float = false \/ (l <? 1e-10)%float = false
        \/ (p <? 1e-1)%float = false).
Proof.
  intros Hd HL HP. eexists _, _. split; [exact (check_convergence_returns _ _ _ _ _ _ _ _ Hd HL HP)|].
  rewrite no_removal.
  destruct (a <? 1e-11)%float, (l <? 1e-10)%float, (p <? 1e-1)%float; simpl;
    intuition congruence.
Qed.

Lemma check_convergence_predicate_witness :
  exists converged new,
    check_convergence_and_change_phases [0] (Matrix 2 1 [0; -1]%float) 0
      (Matrix 1 1 [0%float]) (Matrix 1 1 [0.5%float]) = Ok (converged, new)
    /\ converged = false.
Proof.
  destruct (check_convergence_predicate [0] (Matrix 2 1 [0; -1]%float) 0
              (Matrix 1 1 [0%float]) (Matrix 1 1 [0.5%float]) [0; -1]%float 0 0.5)
    as (converged & new & Hret & _ & Hfalse); try reflexivity.
  exists converged, new. split; [exact Hret|].
  apply Hfalse. right. right. right. reflexivity.
Defined.

(** C9.  The new active set is the sorted union of the current one with the
    phases whose driving force exceeds -1e-5: it has every current phase, so
    the set difference tested inside the function is empty on every call,
    and the flag is decided by the three tolerances alone. *)
Theorem new_active_set_is_superset cur df a L P d l p :
  column0 df = Ok d -> mget L 0 0 = Ok l -> mget P 0 0 = Ok p ->
  exists converged new,
    check_convergence_and_change_phases cur df a L P = Ok (converged, new)
    /\ StronglySorted (≤) new /\ NoDup new
    /\ (forall i, i ∈ new <->
          i ∈ cur \/ exists x, d !! i = Some x /\ F.gtb x (-1e-5)%float = true)
    /\ (forall i, i ∈ cur -> i ∈ new)
    /\ (list_to_set cur : gset nat) ∖ list_to_set new = ∅
    /\ (converged = true <->
        (a <? 1e-11)%float = true /\ (l <? 1e-10)%float = true
        /\ (p <? 1e-1)%float = true).
Proof.
  intros Hd HL HP. eexists _, _. split; [exact (check_convergence_returns _ _ _ _ _ _ _ _ Hd HL HP)|].
  assert (Hin : forall i, i ∈ py_sorted (list_to_set cur ∪ compsets_to_add d) <->
            i ∈ cur \/ exists x, d !! i = Some x /\ F.gtb x (-1e-5)%float = true).
  { intros i. unfold compsets_to_add.
    rewrite elem_of_py_sorted, elem_of_union, !elem_of_list_to_set, elem_of_np_nonzero.
    reflexivity. }
  split; [apply py_sorted_sorted|]. split; [apply py_sorted_sorted|].
  split; [exact Hin|]. split; [intros i Hi; apply Hin; now left|].
  split; [apply no_removal|].
  destruct (a <? 1e-11)%float, (l <? 1e-10)%float, (p <? 1e-1)%float; simpl;
    intuition congruence.
Qed.

Lemma new_active_set_is_superset_witness :
  exists converged,
    check_convergence_and_change_phases [1] (Matrix 2 1 [0; -1]%float) 0
      (Matrix 1 1 [0%float]) (Matrix 1 1 [0%float]) = Ok (converged, [0; 1])
    /\ (list_to_set [1] : gset nat) ∖ list_to_set [0; 1] = ∅.
Proof.
  destruct (new_active_set_is_superset [1] (Matrix 2 1 [0; -1]%float) 0
              (Matrix 1 1 [0%float]) (Matrix 1 1 [0%float]) [0; -1]%float 0 0)
    as (converged & new & Hret & _ & _ & _ & _ & Hempty & _); try reflexivity.
  assert (Hnew : new = [0; 1]).
  { assert (Hc : check_convergence_and_change_phases [1] (Matrix 2 1 [0; -1]%float) 0
                   (Matrix 1 1 [0%float]) (Matrix 1 1 [0%float]) = Ok (true, [0; 1]))
      by (vm_compute; reflexivity).
    rewrite Hc in Hret. now injection Hret as _ <-. }
  subst new. exists converged. split; [exact Hret | exact Hempty].
Defined.

(** ** SolutionExtractor *)

Lemma extract_phase_amounts_clipped fs soln off pa l pa' l' :
  extract_phase_amounts fs soln off (pa, l) = Ok (pa', l') ->
  forall k, k ∈ fs -> exists v, pa' !! k = Some v /\ clipped_amount v.
Proof.
  unfold extract_phase_amounts. intros H.
  enough (Hinv : forall i k, i < length fs -> fs !! i = Some k ->
            exists v, (pa', l').1 !! k = Some v /\ clipped_amount v).
  { intros k Hk. apply list_elem_of_lookup in Hk as [i Hi].
    eapply (Hinv i); eauto. eapply lookup_lt_Some; eauto. }
  revert H.
  apply (for_range_ind (fun n acc => forall i k, i < n -> fs !! i = Some k ->
           exists v, acc.1 !! k = Some v /\ clipped_amount v)).
  - intros; lia.
  - intros i [pa1 l1] [pa2 l2] Hi IH Hbody i' k Hi' Hk. simpl in *.
    inv_ok. unfold iget in *. inv_ok.
    match goal with
    | Hs : vset pa1 ?j (clip_phase_amt ?x) = Ok pa2, Hj : fs !! i = Some ?j |- _ =>
        apply vset_Ok in Hs as [Hlt ->];
        destruct (decide (k = j)) as [->|Hne];
        [ exists (clip_phase_amt x); rewrite list_lookup_insert_eq by done;
          split; [done | apply clip_phase_amt_clipped]
        | rewrite list_lookup_insert_ne by done;
          apply (IH i'); [|done];
          destruct (decide (i' = i)) as [->|]; [congruence | lia] ]
    end.
Qed.

Lemma site_fractions_clipped_update n x y :
  site_fractions_clipped n (take n x ++ map clip_site_fraction y).
Proof.
  intros j v Hj H. rewrite lookup_app_r in H by (rewrite length_take; lia).
  rewrite list_lookup_fmap in H. destruct (y !! _); simpl in H; [|discriminate].
  injection H as <-. apply clip_site_fraction_clipped.
Qed.

Lemma extract_equilibrium_solution_spec mu pa delta fci fsi fs soln lsc lpac dof e :
  extract_equilibrium_solution mu pa delta fci fsi fs soln lsc lpac dof = Ok e ->
  (forall k, k ∈ fs -> exists v, ex_phase_amt e !! k = Some v /\ clipped_amount v)
  /\ length (ex_delta_statevars e) = length delta
  /\ Forall2 (fun a a' => add_to_prefix (length delta) (ex_delta_statevars e) a = Ok a')
             dof (ex_dof e)
  /\ dof <> [].
Proof.
  unfold extract_equilibrium_solution. intros H. inv_ok. simpl.
  split; [eapply extract_phase_amounts_clipped; eauto|].
  split.
  { erewrite (for_range_preserves (@length float)); [apply length_replicate| |eassumption].
    intros i w w' Hb. simpl in Hb. inv_ok. apply vset_Ok in Hb as [_ ->].
    apply length_insert. }
  split; [now apply mapM_Ok|].
  intros ->. discriminate.
Qed.

Lemma py_max_nonfinite t p : sf_nonfinite (Prim2SF t) -> F.py_max t p = t.
Proof.
  unfold F.py_max, F.gtb. rewrite FloatAxioms.ltb_spec. intros [-> | ->].
  - reflexivity.
  - unfold SFltb. now destruct (Prim2SF p) as [[]|[]| |[]].
Qed.

Lemma fold_py_max_nonfinite l t :
  sf_nonfinite (Prim2SF t) -> fold_left F.py_max l t = t.
Proof.
  revert t. induction l as [|p l IH]; simpl; intros t Ht; [done|].
  rewrite py_max_nonfinite by done. now apply IH.
Qed.

Lemma fold_py_max_split (l : list float) i ch t :
  l !! i = Some ch ->
  fold_left F.py_max l t
  = fold_left F.py_max (drop (S i) l) (F.py_max (fold_left F.py_max (take i l) t) ch).
Proof.
  intros Hi. rewrite <- (take_drop_middle l i ch Hi) at 1.
  now rewrite fold_left_app.
Qed.

(** An infinite entry makes the running maximum not finite for good. *)
Lemma fold_py_max_infinity (l : list float) i ch t p :
  l !! i = Some ch -> Prim2SF ch = S754_infinity false ->
  is_finite (F.py_max (fold_left F.py_max l t) p) = false.
Proof.
  intros Hi Hch. rewrite (fold_py_max_split _ _ _ _ Hi).
  pose proof (py_max_infinity (fold_left F.py_max (take i l) t) ch Hch) as Hn.
  rewrite fold_py_max_nonfinite by done. rewrite py_max_nonfinite by done.
  now apply is_finite_false.
Qed.

(** A NaN entry leaves the running maximum as if it were not there. *)
Lemma fold_py_max_nan (l : list float) i ch t :
  l !! i = Some ch -> is_nan ch = true ->
  fold_left F.py_max l t = fold_left F.py_max (delete i l) t.
Proof.
  intros Hi Hch. rewrite (fold_py_max_split _ _ _ _ Hi), py_max_nan by done.
  rewrite delete_take_drop. now rewrite fold_left_app.
Qed.

Lemma Prim2SF_infinity x : Prim2SF x = S754_infinity false -> x = infinity.
Proof. intros H. rewrite <- (SF2Prim_Prim2SF x), H. reflexivity. Qed.

(** The loop over the free chemical potentials: the change computed at each
    position and the running maximum it leaves. *)
Lemma extract_chemical_potentials_changes fci soln off mu lsc t mu' lsc' :
  extract_chemical_potentials fci soln off (mu, lsc) = Ok (mu', lsc') ->
  NoDup fci -> lsc !! 0 = Some t ->
  exists changes,
    length changes = length fci
    /\ (forall i chempot_idx, fci !! i = Some chempot_idx ->
          exists new old,
            soln !! (off + i) = Some new /\ mu !! chempot_idx = Some old
            /\ changes !! i = Some (abs ((new - old) / old))%float
            /\ mu' !! chempot_idx = Some new)
    /\ lsc' !! 0 = Some (fold_left F.py_max changes t).
Proof.
  unfold extract_chemical_potentials. intros H Hnd Ht.
  pose (I := fun (i0 : nat) (acc : vec * vec) =>
    exists changes,
      length changes = i0
      /\ (forall i cp, i < i0 -> fci !! i = Some cp ->
            exists new old,
              soln !! (off + i) = Some new /\ mu !! cp = Some old
              /\ changes !! i = Some (abs ((new - old) / old))%float
              /\ acc.1 !! cp = Some new)
      /\ (forall i cp, i0 <= i -> fci !! i = Some cp -> acc.1 !! cp = mu !! cp)
      /\ acc.2 !! 0 = Some (fold_left F.py_max changes t)).
  assert (Hinv : I (length fci) (mu', lsc')).
  { revert H. apply (for_range_ind I); subst I; cbv beta.
    - exists []. simpl. split; [done|]. split; [intros; lia|]. split; [done|done].
    - intros i0 [mu1 l1] [mu2 l2] Hi0 (changes & Hlen & Hdone & Hrest & Hl) Hb.
      cbn [fst snd] in *. inv_ok. unfold iget, vget in *. inv_ok.
      repeat match goal with Hv : vset _ _ _ = Ok _ |- _ =>
        apply vset_Ok in Hv as [? ->] end.
      match goal with
      | Hcp : fci !! _ = Some ?cp, Hnew : soln !! _ = Some ?new,
        Hold : mu1 !! ?cp = Some ?old |- _ =>
          exists (changes ++ [percent_chempot_change new old]);
          rewrite (Hrest (length changes) cp) in Hold by done
      end.
      split; [rewrite length_app; simpl; lia|]. split; [|split].
      + intros i cp Hi Hcp. destruct (decide (i = length changes)) as [->|Hne].
        * simplify_eq. eexists _, _. split; [eassumption|]. split; [eassumption|].
          split; [rewrite lookup_app_r by lia; now rewrite Nat.sub_diag|].
          now apply list_lookup_insert_eq.
        * destruct (Hdone i cp) as (new & old & ? & ? & ? & ?); [lia | done |].
          exists new, old. split; [done|]. split; [done|].
          split; [rewrite lookup_app_l by lia; done|].
          rewrite list_lookup_insert_ne; [done|].
          intros ->. apply Hne. eapply NoDup_lookup; eauto.
      + intros i cp Hi Hcp. rewrite list_lookup_insert_ne; [apply (Hrest i); [lia|done]|].
        intros ->. assert (i = length changes) by (eapply NoDup_lookup; eauto). lia.
      + rewrite list_lookup_insert_eq by done. rewrite fold_left_app. simpl.
        congruence. }
  destruct Hinv as (changes & Hlen & Hdone & _ & Hl). exists changes.
  split; [done|]. split; [|done].
  intros i cp Hcp. apply Hdone; [eapply lookup_lt_Some; eauto | done].
Qed.

(** C10 (amended).  [extract_equilibrium_solution] divides by the current
    chemical potential with no guard.  With distinct free indices, the
    relative change computed for the i-th free potential is
    [abs((new - old) / old)] of the solution entry and the potential on
    entry, and the tracker ends as the [max] of its value on entry, these
    changes in order, and the largest state-variable change.  For a potential
    that is zero the change is plus infinity when the new value is a non-zero
    number, and then the tracker is not finite; it is NaN when the new value is
    zero or NaN, and then the tracker is what it would be without this
    potential.  On the state-variable path each entry is
    [abs(delta / dof[0][j])] with NaN replaced by zero. *)
Theorem unguarded_chempot_division mu pa delta fci fsi fs soln lsc lpac dof e t :
  extract_equilibrium_solution mu pa delta fci fsi fs soln lsc lpac dof = Ok e ->
  NoDup fci -> lsc !! 0 = Some t ->
  exists changes statevar_changes largest dof0,
    let tracker := F.py_max (fold_left F.py_max changes t) largest in
    length changes = length fci
    /\ (forall i chempot_idx, fci !! i = Some chempot_idx ->
          exists new old,
            soln !! i = Some new /\ mu !! chempot_idx = Some old
            /\ changes !! i = Some (abs ((new - old) / old))%float
            /\ ex_chemical_potentials e !! chempot_idx = Some new
            /\ (is_zero old = true -> is_zero new = false -> is_nan new = false ->
                  abs ((new - old) / old) = infinity /\ is_finite tracker = false)
            /\ (is_zero old = true -> is_zero new = true \/ is_nan new = true ->
                  is_nan (abs ((new - old) / old)) = true
                  /\ tracker
                     = F.py_max (fold_left F.py_max (delete i changes) t) largest))
    /\ dof !! 0 = Some dof0
    /\ length statevar_changes = length delta
    /\ (forall j d x0, ex_delta_statevars e !! j = Some d -> dof0 !! j = Some x0 ->
          statevar_changes !! j
          = Some (if is_nan (abs (d / x0)) then 0 else abs (d / x0))%float)
    /\ F.np_max statevar_changes = Ok largest
    /\ ex_largest_statevar_change e !! 0 = Some tracker.
Proof.
  intros H Hnd Ht. unfold extract_equilibrium_solution in H. inv_ok.
  cbn [ex_chemical_potentials ex_delta_statevars ex_largest_statevar_change].
  match goal with Hc : extract_chemical_potentials _ _ _ _ = Ok _ |- _ =>
    apply (extract_chemical_potentials_changes _ _ _ _ _ t) in Hc
      as (changes & Hlen & Hch & Hl); [|done..] end.
  match goal with Hz : zip_same _ _ _ = Ok _ |- _ =>
    apply zip_same_Ok in Hz as [Hzl ->] end.
  match goal with Hd : dof !! 0 = Some ?x, Hm : F.np_max ?svc = Ok ?l |- _ =>
    exists changes, svc, l, x; rename l into largest; rename Hm into Hmax;
    rename x into dof0 end.
  cbv zeta.
  match goal with Hf : for_range (length fsi) _ _ = Ok ?d |- _ =>
    assert (Hdl : length d = length delta);
    [ erewrite (for_range_preserves (@length float)); [apply length_replicate| |exact Hf];
      intros ? ? ? Hb; simpl in Hb; inv_ok; now apply vset_length in Hb
    | rename d into delta' ]
  end.
  split; [done|]. split.
  { intros i cp Hcp. destruct (Hch i cp Hcp) as (new & old & Hnew & Hold & Hci & Hmu').
    exists new, old. change (0 + i) with i in Hnew.
    split; [done|]. split; [done|]. split; [done|]. split; [done|].
    split.
    - intros Hzero Hnz Hnn.
      pose proof (percent_chempot_change_zero new old Hzero) as Hclass.
      pose proof (sub_zero_class new old Hzero) as Hsub.
      unfold percent_chempot_change in Hclass.
      assert (Hinf : Prim2SF (abs ((new - old) / old)) = S754_infinity false).
      { rewrite Hclass. destruct (Prim2SF (new - old)); try reflexivity; congruence. }
      split; [now apply Prim2SF_infinity|].
      eapply fold_py_max_infinity; eauto.
    - intros Hzero Hor.
      pose proof (percent_chempot_change_zero new old Hzero) as Hclass.
      pose proof (sub_zero_class new old Hzero) as Hsub.
      unfold percent_chempot_change in Hclass.
      assert (Hnan : is_nan (abs ((new - old) / old)) = true).
      { apply is_nan_spec. rewrite Hclass.
        destruct (Prim2SF (new - old)); try reflexivity;
          destruct Hsub as [Hnz Hnn]; destruct Hor; congruence. }
      split; [done|]. f_equal. eapply fold_py_max_nan; eauto. }
  split; [done|].
  split; [unfold mask_nan, np_abs; rewrite !length_map, length_zip_with, <- Hzl; lia|].
  split.
  { intros j d x0 Hd Hx0. unfold mask_nan, np_abs.
    rewrite !list_lookup_fmap, lookup_zip_with, Hd. simpl.
    assert (Hj : j < length delta) by (rewrite <- Hdl; eapply lookup_lt_Some; eauto).
    rewrite lookup_take_lt by lia. rewrite Hx0. reflexivity. }
  split; [done|].
  repeat match goal with Hv : vset _ _ _ = Ok _ |- _ =>
    apply vset_Ok in Hv as [? ->] end.
  unfold vget in *. inv_ok.
  rewrite list_lookup_insert_eq by done. congruence.
Qed.

Lemma unguarded_chempot_division_witness :
  exists e tracker,
    extract_equilibrium_solution [0]%float [1]%float [0]%float [0] [] [0]
      [5; 0]%float [0]%float [0]%float [[1000; 1]%float] = Ok e
    /\ ex_largest_statevar_change e !! 0 = Some tracker
    /\ is_finite tracker = false.
Proof.
  assert (H : exists e,
    extract_equilibrium_solution [0]%float [1]%float [0]%float [0] [] [0]
      [5; 0]%float [0]%float [0]%float [[1000; 1]%float] = Ok e)
    by (eexists; vm_compute; reflexivity).
  destruct H as [e H].
  destruct (unguarded_chempot_division _ _ _ _ _ _ _ _ _ _ e 0%float H
              (NoDup_singleton 0) eq_refl)
    as (changes & svc & largest & dof0 & _ & Hch & _ & _ & _ & _ & Htr).
  destruct (Hch 0 0 eq_refl) as (new & old & Hnew & Hold & _ & _ & Hinf & _).
  injection Hnew as <-. injection Hold as <-.
  destruct Hinf as [_ Hinf]; [reflexivity..|].
  eexists e, _. split; [exact H|]. split; [exact Htr | exact Hinf].
Defined.

(** C10 as stated fails: the potential is zero and so is its new value; the
    relative change is NaN, and the tracker is still the finite 0 it was. *)
Lemma nan_change_leaves_tracker_finite :
  extract_equilibrium_solution [0]%float [1]%float [0]%float [0] [] [0]
    [0; 0]%float [0]%float [0]%float [[1000; 1]%float]
  = Ok (Extracted [0]%float [1]%float [0]%float [0]%float [0]%float [[1000; 1]%float])
  /\ is_zero 0 = true
  /\ is_nan (percent_chempot_change 0 0) = true
  /\ is_finite 0 = true.
Proof. vm_compute. auto. Qed.

(** C5 as stated fails: a NaN in the solution vector passes both clips of
    the phase amount, and what is written is not in [0, 1]. *)
Lemma nan_phase_amount_is_written :
  extract_equilibrium_solution [0]%float [0.5]%float [0]%float [0] [] [0]
    [0; nan]%float [0]%float [0]%float [[1000; 1]%float]
  = Ok (Extracted [0]%float [nan] [0]%float [0]%float [0]%float [[1000; 1]%float])
  /\ ~ F.between 0 1 nan.
Proof.
  split; [vm_compute; reflexivity|]. intros [H _]. vm_compute in H. discriminate.
Qed.

(** ** SolverDriver: the first step *)

Lemma accumulate_app f l1 l2 :
  accumulate f (l1 ++ l2)
  = fold_left (fun acc idx => (acc + f idx)%float) l2 (accumulate f l1).
Proof. unfold accumulate. apply fold_left_app. Qed.

Lemma accumulate_ext f g l :
  (forall i, i ∈ l -> f i = g i) -> accumulate f l = accumulate g l.
Proof.
  unfold accumulate. generalize 0%float.
  induction l as [|i l IH]; simpl; intros a H; [done|].
  rewrite (H i) by left. apply IH. intros j Hj. apply H. now right.
Qed.

Lemma filter_seq_S (P : nat -> Prop) `{forall i, Decision (P i)} n :
  filter P (seq 0 (S n)) = filter P (seq 0 n) ++ (if decide (P n) then [n] else []).
Proof. rewrite seq_S, filter_app. f_equal. Qed.

Section FirstStep.

Variable np : NumPy.
Variable compsets : list CompositionSet.
Variable c : conditions.

Lemma update_internal_dof_dof pa mu d idx cs u u' :
  update_internal_dof np c pa mu d idx cs u = Ok u' ->
  exists x y, iu_dof u !! idx = Some x
    /\ iu_dof u' = <[idx := take (num_statevars c) x ++ map clip_site_fraction y]> (iu_dof u).
Proof. unfold update_internal_dof. intros H. inv_ok. simpl. eauto. Qed.

(** After the first step every [dof] vector has clipped site fractions. *)
Lemma update_internal_dofs_clipped st u :
  update_internal_dofs np compsets c st = Ok u ->
  length (iu_dof u) = length (st_dof st)
  /\ forall idx x, idx < length compsets -> iu_dof u !! idx = Some x ->
       site_fractions_clipped (num_statevars c) x.
Proof.
  unfold update_internal_dofs.
  apply (for_range_ind (fun n u => length (iu_dof u) = length (st_dof st)
    /\ forall idx x, idx < n -> iu_dof u !! idx = Some x ->
         site_fractions_clipped (num_statevars c) x)).
  - simpl. split; [done | intros; lia].
  - intros i u1 u2 Hi [Hlen IH] Hbody. inv_ok.
    apply update_internal_dof_dof in Hbody as (x & y & Hx & ->).
    rewrite length_insert. split; [done|].
    intros idx x' Hidx Hx'. destruct (decide (idx = i)) as [->|Hne].
    + rewrite list_lookup_insert_eq in Hx' by (eapply lookup_lt_Some; eauto).
      injection Hx' as <-. apply site_fractions_clipped_update.
    + rewrite list_lookup_insert_ne in Hx' by done. apply (IH idx); [lia | done].
Qed.

(** The accumulation loop over the components of one phase. *)
Lemma accumulate_masses_spec (pr : PhaseRecord) (x : vec) pa idx n apa cea apa' cea' :
  for_range n (fun comp_idx acc =>
      let masses_tmp := mass_obj pr x comp_idx in
      all_phase_amounts ← mset (fst acc) idx comp_idx masses_tmp;
      p ← vget pa idx;
      current_elemental_amounts ←
        (if F.gtb p 0%float
         then vadd (snd acc) comp_idx (p * masses_tmp)%float
         else Ok (snd acc));
      Ok (all_phase_amounts, current_elemental_amounts)) (apa, cea) = Ok (apa', cea') ->
  length cea' = length cea
  /\ forall comp v', cea' !! comp = Some v' ->
       exists v, cea !! comp = Some v
         /\ v' = if decide (comp < n)
                 then match pa !! idx with
                      | Some p => if F.gtb p 0%float
                                  then (v + p * mass_obj pr x comp)%float else v
                      | None => v
                      end
                 else v.
Proof.
  pose (I := fun (m : nat) (a : matrix * vec) => length a.2 = length cea
    /\ forall comp v', a.2 !! comp = Some v' ->
       exists v, cea !! comp = Some v
         /\ v' = if decide (comp < m)
                 then match pa !! idx with
                      | Some p => if F.gtb p 0%float
                                  then (v + p * mass_obj pr x comp)%float else v
                      | None => v
                      end
                 else v).
  change (for_range n (fun comp_idx acc =>
      let masses_tmp := mass_obj pr x comp_idx in
      all_phase_amounts ← mset (fst acc) idx comp_idx masses_tmp;
      p ← vget pa idx;
      current_elemental_amounts ←
        (if F.gtb p 0%float
         then vadd (snd acc) comp_idx (p * masses_tmp)%float
         else Ok (snd acc));
      Ok (all_phase_amounts, current_elemental_amounts)) (apa, cea) = Ok (apa', cea')
      -> I n (apa', cea')).
  apply (for_range_ind I); subst I; cbv beta.
  - simpl. split; [done|]. intros comp v' H. exists v'. split; [done|].
    destruct (decide (comp < 0)); [lia | done].
  - intros i [a1 c1] [a2 c2] Hi [Hlen IH] Hbody. simpl in *. inv_ok.
    match goal with Hg : vget pa idx = Ok ?p |- _ =>
      apply vget_Ok in Hg; rewrite Hg in *; destruct (F.gtb p 0) eqn:Hpos end.
    + match goal with Ha : vadd c1 i _ = Ok c2 |- _ =>
        apply vadd_Ok in Ha as (old & Hold & ->) end.
      rewrite length_insert. split; [done|]. intros comp v' Hv'.
      destruct (decide (comp = i)) as [->|Hne].
      * rewrite list_lookup_insert_eq in Hv' by (eapply lookup_lt_Some; eauto).
        injection Hv' as <-. destruct (IH i old Hold) as (v & Hv & ->).
        exists v. split; [done|].
        destruct (decide (i < i)); [lia|]. destruct (decide (i < S i)); [done | lia].
      * rewrite list_lookup_insert_ne in Hv' by done.
        destruct (IH comp v' Hv') as (v & Hv & ->). exists v. split; [done|].
        destruct (decide (comp < i)), (decide (comp < S i)); try lia; done.
    + inv_ok. split; [done|]. intros comp v' Hv'.
      destruct (IH comp v' Hv') as (v & Hv & ->). exists v. split; [done|].
      destruct (decide (comp < i)), (decide (comp < S i)); try lia; done.
Qed.

Lemma update_internal_dof_amounts pa mu d idx cs u u' :
  update_internal_dof np c pa mu d idx cs u = Ok u' ->
  exists x', iu_dof u' = <[idx := x']> (iu_dof u) /\ idx < length (iu_dof u)
    /\ length (iu_current_elemental_amounts u') = length (iu_current_elemental_amounts u)
    /\ forall comp v', iu_current_elemental_amounts u' !! comp = Some v' ->
       exists v, iu_current_elemental_amounts u !! comp = Some v
         /\ v' = if decide (comp < num_components c)
                 then match pa !! idx with
                      | Some p => if F.gtb p 0%float
                                  then (v + p * mass_obj (phase_record cs) x' comp)%float
                                  else v
                      | None => v
                      end
                 else v.
Proof.
  unfold update_internal_dof. intros H. inv_ok. simpl.
  eexists. split; [reflexivity|]. split; [eapply lookup_lt_Some; eauto|].
  eapply accumulate_masses_spec; eauto.
Qed.

(** C8 (amended).  During the internal-DOF update step
    [current_elemental_amounts] accumulates, for each component, the
    contributions [phase_amt[idx] * mass[idx, comp]] of exactly the
    composition sets with [phase_amt[idx] > 0], in the order of [compsets]
    and whether or not they are in [free_stable_compset_indices]; the mass
    is taken at the updated [dof[idx]]. *)
Theorem accumulated_elemental_amounts st u :
  update_internal_dofs np compsets c st = Ok u ->
  length (iu_current_elemental_amounts u) = length (st_chemical_potentials st)
  /\ forall comp v, comp < num_components c ->
       iu_current_elemental_amounts u !! comp = Some v ->
       v = accumulate (mass_contribution compsets (st_phase_amt st) (iu_dof u) comp)
                      (positive_phases compsets (st_phase_amt st)).
Proof.
  unfold update_internal_dofs, positive_phases.
  pose (I := fun (m : nat) (u : internal_update) =>
    length (iu_current_elemental_amounts u) = length (st_chemical_potentials st)
    /\ forall comp v, comp < num_components c ->
         iu_current_elemental_amounts u !! comp = Some v ->
         v = accumulate (mass_contribution compsets (st_phase_amt st) (iu_dof u) comp)
               (filter (fun idx => has_positive_amount (st_phase_amt st) idx = true)
                       (seq 0 m))).
  apply (for_range_ind I); subst I; cbv beta.
  - simpl. split; [apply length_replicate|]. intros comp v _ Hv.
    apply lookup_replicate in Hv as [-> _]. reflexivity.
  - intros m u1 u2 Hm [Hlen IH] Hbody. inv_ok.
    apply update_internal_dof_amounts in Hbody as (x' & Hdof & Hidx & Hlen' & Hcea).
    split; [congruence|]. intros comp v' Hcomp Hv'.
    destruct (Hcea comp v' Hv') as (v & Hv & ->).
    destruct (decide (comp < num_components c)); [|lia].
    specialize (IH comp v Hcomp Hv).
    rewrite filter_seq_S, accumulate_app.
    assert (Hext : accumulate (mass_contribution compsets (st_phase_amt st) (iu_dof u2) comp)
              (filter (fun idx => has_positive_amount (st_phase_amt st) idx = true) (seq 0 m))
            = v).
    { rewrite IH. apply accumulate_ext. intros i [_ Hi%elem_of_seq]%list_elem_of_filter.
      unfold mass_contribution. rewrite Hdof, list_lookup_insert_ne by lia. done. }
    rewrite Hext. unfold has_positive_amount.
    destruct (st_phase_amt st !! m) as [p|] eqn:Hp; simpl; [|done].
    destruct (F.gtb p 0) eqn:Hpos.
    + rewrite decide_True by done. simpl. unfold mass_contribution.
      match goal with Hc : compsets !! m = Some _ |- _ => rewrite Hc end.
      rewrite Hp, Hdof, list_lookup_insert_eq by done. done.
    + rewrite decide_False by congruence. done.
Qed.

End FirstStep.

Lemma accumulated_elemental_amounts_witness :
  exists u,
    update_internal_dofs Demo.numpy [Demo.unit_compset; Demo.unit_compset]
      Demo.one_free_potential Demo.two_phases = Ok u
    /\ length (iu_current_elemental_amounts u) = 1
    /\ forall comp v, comp < 1 ->
         iu_current_elemental_amounts u !! comp = Some v ->
         v = accumulate
               (mass_contribution [Demo.unit_compset; Demo.unit_compset]
                  (st_phase_amt Demo.two_phases) (iu_dof u) comp)
               (positive_phases [Demo.unit_compset; Demo.unit_compset]
                  (st_phase_amt Demo.two_phases)).
Proof.
  eexists. split; [vm_compute; reflexivity|].
  apply (accumulated_elemental_amounts Demo.numpy
           [Demo.unit_compset; Demo.unit_compset] Demo.one_free_potential
           Demo.two_phases).
  vm_compute. reflexivity.
Defined.

(** C8 as stated fails: only composition set 0 is in the active set, yet the
    amount of component 0 is the sum over both composition sets, 1, and not
    the contribution 0.5 of the active one. *)
Lemma metastable_phase_contributes :
  exists u,
    update_internal_dofs Demo.numpy [Demo.unit_compset; Demo.unit_compset]
      Demo.one_free_potential Demo.two_phases = Ok u
    /\ st_free_stable_compset_indices Demo.two_phases = [0]
    /\ iu_current_elemental_amounts u !! 0 = Some 1%float
    /\ accumulate (mass_contribution [Demo.unit_compset; Demo.unit_compset]
                     (st_phase_amt Demo.two_phases) (iu_dof u) 0)
                  (st_free_stable_compset_indices Demo.two_phases) = 0.5%float
    /\ (1 =? 0.5)%float = false.
Proof. eexists. split; [vm_compute; reflexivity|]. vm_compute. auto. Qed.

(** ** SolverDriver: which exceptions an iteration can raise *)

Lemma ng_Ok {A} (a : A) : never_gibbs (Ok a).
Proof. discriminate. Qed.

Lemma ng_bind {A B} (m : res A) (f : A -> res B) :
  never_gibbs m -> (forall a, never_gibbs (f a)) -> never_gibbs (m ≫= f).
Proof.
  intros Hm Hf. destruct m; simpl; [apply Hf|].
  intros H. apply Hm. congruence.
Qed.

Lemma ng_of_option {A} e (o : option A) :
  e <> GibbsPhaseRule -> never_gibbs (of_option e o).
Proof. destruct o; simpl; unfold never_gibbs; congruence. Qed.

Lemma ng_for_each {S} l (body : nat -> S -> res S) s :
  (forall i s, never_gibbs (body i s)) -> never_gibbs (for_each l body s).
Proof.
  intros Hb. revert s. induction l as [|i l IH]; simpl; intros s; [discriminate|].
  specialize (Hb i s). destruct (body i s); [apply IH | exact Hb].
Qed.

Lemma ng_for_range {S} n (body : nat -> S -> res S) s :
  (forall i s, never_gibbs (body i s)) -> never_gibbs (for_range n body s).
Proof. apply ng_for_each. Qed.

Lemma ng_mapM {A B} (f : A -> res B) l :
  (forall a, never_gibbs (f a)) -> never_gibbs (mapM f l).
Proof.
  intros Hf. induction l as [|a l IH]; simpl; [discriminate|].
  apply ng_bind; [apply Hf|]. intros b. apply ng_bind; [apply IH|]. discriminate.
Qed.

(** One step through the syntax of a monadic body. *)
Ltac ng_step :=
  match goal with
  | |- never_gibbs (Ok _) => apply ng_Ok
  | |- never_gibbs (mret _) => apply ng_Ok
  | |- never_gibbs (Raise _) => discriminate
  | |- never_gibbs (of_option _ _) => apply ng_of_option; discriminate
  | |- never_gibbs (mbind _ _) => apply ng_bind; [|intros ?]
  | |- never_gibbs (for_range _ _ _) => apply ng_for_range; intros ? ?
  | |- never_gibbs (for_each _ _ _) => apply ng_for_each; intros ? ?
  | |- never_gibbs (mapM _ _) => apply ng_mapM; intros ?
  | |- never_gibbs (match ?x with _ => _ end) => destruct x
  end.

Create HintDb ng.

Ltac ng_auto := repeat first [ng_step | solve [auto with ng]].

Lemma ng_vget a i : never_gibbs (vget a i).
Proof. unfold vget. ng_auto. Qed.
Lemma ng_iget a i : never_gibbs (iget a i).
Proof. unfold iget. ng_auto. Qed.
Lemma ng_vset a i v : never_gibbs (vset a i v).
Proof. unfold vset. ng_auto. Qed.
Lemma ng_mget m i j : never_gibbs (mget m i j).
Proof. unfold mget. ng_auto. Qed.
Lemma ng_mset m i j v : never_gibbs (mset m i j v).
Proof. unfold mset. ng_auto. Qed.
#[local] Hint Resolve ng_vget ng_iget ng_vset ng_mget ng_mset : ng.

Lemma ng_vadd a i v : never_gibbs (vadd a i v).
Proof. unfold vadd. ng_auto. Qed.
Lemma ng_vsub a i v : never_gibbs (vsub a i v).
Proof. unfold vsub. ng_auto. Qed.
Lemma ng_madd m i j v : never_gibbs (madd m i j v).
Proof. unfold madd. ng_auto. Qed.
Lemma ng_msub m i j v : never_gibbs (msub m i j v).
Proof. unfold msub. ng_auto. Qed.
Lemma ng_zip_same f a b : never_gibbs (zip_same f a b).
Proof. unfold zip_same. ng_auto. Qed.
Lemma ng_np_max a : never_gibbs (F.np_max a).
Proof. unfold F.np_max. ng_auto. Qed.
Lemma ng_c_div a b : never_gibbs (F.c_div a b).
Proof. unfold F.c_div. ng_auto. Qed.
Lemma ng_mrow m i : never_gibbs (mrow m i).
Proof. unfold mrow. ng_auto. Qed.
#[local] Hint Resolve ng_vadd ng_vsub ng_madd ng_msub ng_zip_same ng_np_max ng_c_div
  ng_mrow : ng.

Lemma ng_column0 m : never_gibbs (column0 m).
Proof. unfold column0. ng_auto. Qed.

Lemma ng_compute_phase_matrix pm h pr n x :
  never_gibbs (compute_phase_matrix pm h pr n x).
Proof. unfold compute_phase_matrix. ng_auto. Qed.
#[local] Hint Resolve ng_column0 ng_compute_phase_matrix : ng.

Lemma ng_compute_phase_system pm rhs pr d mu x :
  never_gibbs (compute_phase_system pm rhs pr d mu x).
Proof. unfold compute_phase_system. ng_auto. Qed.

Lemma ng_fill_component_row b m mj cc cs cG pa fci fsi fs idx n row comp sys :
  never_gibbs (fill_component_row b m mj cc cs cG pa fci fsi fs idx n row comp sys).
Proof. unfold fill_component_row. ng_auto. Qed.
#[local] Hint Resolve ng_compute_phase_system ng_fill_component_row : ng.

Lemma ng_fill_equilibrium_system_for_phase em rhs en g h m mj e mu pa fci fsi fs fxi
    pei pea idx sidx n :
  never_gibbs (fill_equilibrium_system_for_phase em rhs en g h m mj e mu pa fci fsi fs
                 fxi pei pea idx sidx n).
Proof. unfold fill_equilibrium_system_for_phase. ng_auto. Qed.
#[local] Hint Resolve ng_fill_equilibrium_system_for_phase : ng.

Lemma ng_fill_equilibrium_system np em rhs cs mu cea pa fci fsi fs fxi pei pea n psa dof :
  never_gibbs (fill_equilibrium_system np em rhs cs mu cea pa fci fsi fs fxi pei pea n
                 psa dof).
Proof. unfold fill_equilibrium_system. ng_auto. Qed.

Lemma ng_extract_equilibrium_solution mu pa d fci fsi fs soln lsc lpac dof :
  never_gibbs (extract_equilibrium_solution mu pa d fci fsi fs soln lsc lpac dof).
Proof.
  unfold extract_equilibrium_solution, extract_chemical_potentials,
    extract_phase_amounts, add_to_prefix. ng_auto.
Qed.

Lemma ng_check_convergence cur df a L P :
  never_gibbs (check_convergence_and_change_phases cur df a L P).
Proof. unfold check_convergence_and_change_phases. ng_auto. Qed.
#[local] Hint Resolve ng_fill_equilibrium_system ng_extract_equilibrium_solution
  ng_check_convergence : ng.

(** ** EquilibriumSystemBuilder: the shape of the global system *)

(** Chains the shape of what a block returns back to the shape it was given. *)
Ltac shape :=
  intros; inv_ok;
  repeat match goal with
  | H : (if ?b then _ else _) = Ok _ |- _ => destruct b; inv_ok
  end;
  first
  [ reflexivity
  | match goal with
    | H : for_range _ _ ?m = Ok ?m' |- ?f ?m' = _ =>
        transitivity (f m);
        [apply (for_range_preserves f _ _ _ _) with (2 := H); shape | shape]
    | H : mset ?m _ _ _ = Ok ?m' |- mshape ?m' = _ =>
        transitivity (mshape m); [exact (mset_mshape _ _ _ _ _ H) | shape]
    | H : madd ?m _ _ _ = Ok ?m' |- mshape ?m' = _ =>
        transitivity (mshape m); [exact (madd_mshape _ _ _ _ _ H) | shape]
    | H : msub ?m _ _ _ = Ok ?m' |- mshape ?m' = _ =>
        transitivity (mshape m); [exact (msub_mshape _ _ _ _ _ H) | shape]
    | H : vset ?m _ _ = Ok ?m' |- length ?m' = _ =>
        transitivity (length m); [exact (vset_length _ _ _ _ H) | shape]
    | H : vadd ?m _ _ = Ok ?m' |- length ?m' = _ =>
        transitivity (length m); [exact (vadd_length _ _ _ _ H) | shape]
    | H : vsub ?m _ _ = Ok ?m' |- length ?m' = _ =>
        transitivity (length m); [exact (vsub_length _ _ _ _ H) | shape]
    end ].

Lemma fill_component_row_shape b m mj cc cs cG pa fci fsi fs idx n row comp sys sys' :
  fill_component_row b m mj cc cs cG pa fci fsi fs idx n row comp sys = Ok sys' ->
  sshape sys' = sshape sys.
Proof.
  unfold fill_component_row. destruct sys as [em rhs]. intros H. inv_ok.
  match goal with
  | |- sshape (?m, ?r) = _ =>
      assert (mshape m = mshape em) by shape; assert (length r = length rhs) by shape
  end.
  unfold sshape, mshape in *. simpl. congruence.
Qed.

Lemma fill_equilibrium_system_for_phase_shape em rhs en g h m mj e mu pa fci fsi fs fxi
    pei pea idx sidx n sys' :
  fill_equilibrium_system_for_phase em rhs en g h m mj e mu pa fci fsi fs fxi pei pea
    idx sidx n = Ok sys' ->
  sshape sys' = sshape (em, rhs).
Proof.
  unfold fill_equilibrium_system_for_phase. intros H. inv_ok.
  repeat match goal with
  | H : for_range _ (fun _ _ => fill_component_row _ _ _ _ _ _ _ _ _ _ _ _ _ _ _) _ = Ok _
    |- _ =>
      apply (for_range_preserves sshape) in H;
      [| intros ? ? ? Hb;
         exact (fill_component_row_shape _ _ _ _ _ _ _ _ _ _ _ _ _ _ _ _ Hb)]
  | H : for_range _ (fun _ _ => mbind _ _) (_, _) = Ok _ |- _ =>
      apply (for_range_preserves sshape) in H;
      [| intros ? ? ? Hb; inv_ok;
         exact (fill_component_row_shape _ _ _ _ _ _ _ _ _ _ _ _ _ _ _ _ Hb)]
  end.
  match goal with
  | H1 : sshape (?m1, ?r1) = sshape ?s1, H2 : sshape ?s1 = sshape (?m0, rhs)
    |- sshape (_, ?r) = _ =>
      assert (mshape m0 = mshape em) by shape;
      assert (length r = length r1) by shape
  end.
  unfold sshape, mshape in *. simpl in *. congruence.
Qed.

Lemma fill_equilibrium_system_shape np em rhs cs mu cea pa fci fsi fs fxi pei pea n psa
    dof em' rhs' mr :
  fill_equilibrium_system np em rhs cs mu cea pa fci fsi fs fxi pei pea n psa dof
    = Ok (em', rhs', mr) ->
  sshape (em', rhs') = sshape (em, rhs).
Proof.
  unfold fill_equilibrium_system. intros H. inv_ok.
  match goal with
  | H : for_range _ _ (em, rhs) = Ok ?s |- _ =>
      apply (for_range_preserves sshape) in H;
      [| intros ? [? ?] ? Hb; inv_ok;
         exact (fill_equilibrium_system_for_phase_shape
                  _ _ _ _ _ _ _ _ _ _ _ _ _ _ _ _ _ _ _ _ Hb)]
  end.
  match goal with
  | H : for_range _ _ (?r0, _) = Ok (?r1, _) |- _ =>
      apply (for_range_preserves (fun a => length a.1)) in H;
      [| intros ? [? ?] [? ?] Hb; inv_ok; simpl in *; shape]
  end.
  match goal with
  | H : vsub ?r _ _ = Ok ?r' |- _ => apply vsub_length in H
  end.
  unfold sshape in *. simpl in *. congruence.
Qed.

(** ** SolverDriver: one iteration *)

Section Iteration.

Variable np : NumPy.
Variable compsets : list CompositionSet.
Variable c : conditions.

Lemma ng_update_internal_dofs st : never_gibbs (update_internal_dofs np compsets c st).
Proof. unfold update_internal_dofs, update_internal_dof. ng_auto. Qed.

Lemma ng_equilibrium_system st u : never_gibbs (equilibrium_system np compsets c st u).
Proof. unfold equilibrium_system. ng_auto. Qed.

Lemma ng_change_phases u e L P : never_gibbs (change_phases np compsets u e L P).
Proof. unfold change_phases. ng_auto. Qed.

Lemma iteration_never_gibbs st :
  num_equations c st = num_free_variables c st ->
  never_gibbs (iteration np compsets c st).
Proof.
  intros Heq. unfold iteration.
  apply ng_bind; [apply ng_update_internal_dofs|]. intros u.
  unfold check_gibbs_phase_rule. rewrite decide_False by (intros H; apply H, Heq). simpl.
  apply ng_bind; [apply ng_equilibrium_system|]. intros [[em rhs] mr].
  apply ng_bind; [apply ng_of_option; discriminate|]. intros soln.
  apply ng_bind; [apply ng_extract_equilibrium_solution|]. intros e.
  destruct (system_is_feasible mr u); [|discriminate].
  apply ng_bind; [apply ng_change_phases|]. intros [[] new]; discriminate.
Qed.

Lemma equilibrium_system_shape st u em rhs mr :
  equilibrium_system np compsets c st u = Ok (em, rhs, mr) ->
  nrows em = num_equations c st /\ ncols em = num_free_variables c st
  /\ length rhs = num_equations c st.
Proof.
  unfold equilibrium_system. intros H%fill_equilibrium_system_shape.
  unfold sshape, np_zeros2, np_zeros in H. cbn [fst snd nrows ncols] in H.
  rewrite length_replicate in H. injection H as -> -> ->. auto.
Qed.

(** An iteration that completes started from a non-empty [dof]. *)
Lemma iteration_dof_nonempty st o : iteration np compsets c st = Ok o -> st_dof st <> [].
Proof.
  unfold iteration. intros H. inv_ok.
  match goal with Hu : update_internal_dofs _ _ _ _ = Ok _ |- _ =>
    apply update_internal_dofs_clipped in Hu as [Hlen _] end.
  match goal with He : extract_equilibrium_solution _ _ _ _ _ _ _ _ _ _ = Ok _ |- _ =>
    apply extract_equilibrium_solution_spec in He as (_ & _ & _ & Hne) end.
  intros Hnil. rewrite Hnil in Hlen. destruct (iu_dof _); [done | discriminate].
Qed.

(** C3.  When the number of equations differs from the number of free
    variables, an iteration is the internal-DOF step followed by the
    phase-rule error: it ends in an exception and nothing of the global
    system is evaluated.  When the two numbers are equal, no phase-rule error
    is raised and the global matrix is square, with as many rows as the
    right-hand side has entries. *)
Theorem gibbs_phase_rule_check st :
  (num_equations c st <> num_free_variables c st ->
     iteration np compsets c st
     = (update_internal_dofs np compsets c st ≫= fun _ => Raise GibbsPhaseRule)
     /\ exists e, iteration np compsets c st = Raise e)
  /\ (num_equations c st = num_free_variables c st ->
     never_gibbs (iteration np compsets c st)
     /\ forall u em rhs mr,
          equilibrium_system np compsets c st u = Ok (em, rhs, mr) ->
          nrows em = ncols em /\ length rhs = nrows em).
Proof.
  split.
  - intros Hne.
    assert (Heq : iteration np compsets c st
              = (update_internal_dofs np compsets c st ≫= fun _ => Raise GibbsPhaseRule)).
    { unfold iteration, check_gibbs_phase_rule. rewrite decide_True by done.
      destruct (update_internal_dofs np compsets c st); reflexivity. }
    split; [exact Heq|]. rewrite Heq.
    destruct (update_internal_dofs np compsets c st) as [u|e]; simpl; eauto.
  - intros Heq. split; [now apply iteration_never_gibbs|].
    intros u em rhs mr (Hr & Hc & Hl)%equilibrium_system_shape. split; congruence.
Qed.

(** C7.  In an iteration where [mass_residual >= 1e-5] or
    [largest_internal_cons_max_residual >= 1e-10], the body ends without
    [break], so convergence is not declared, and the active set it leaves is
    the one it started with. *)
Theorem infeasible_iteration st u em rhs mass_residual o :
  update_internal_dofs np compsets c st = Ok u ->
  equilibrium_system np compsets c st u = Ok (em, rhs, mass_residual) ->
  F.geb mass_residual 1e-5 = true
  \/ F.geb (iu_largest_internal_cons_max_residual u) 1e-10 = true ->
  iteration np compsets c st = Ok o ->
  exists st', o = Continue st'
    /\ st_free_stable_compset_indices st' = st_free_stable_compset_indices st.
Proof.
  intros Hu Hsys Hinf H. unfold iteration in H. rewrite Hu in H. simpl in H.
  destruct (check_gibbs_phase_rule c st); [|discriminate]. simpl in H.
  rewrite Hsys in H. simpl in H.
  assert (Hf : system_is_feasible mass_residual u = false).
  { unfold system_is_feasible. unfold F.geb in Hinf.
    destruct Hinf as [Hinf|Hinf]; apply leb_not_ltb in Hinf; rewrite Hinf;
      [reflexivity | apply andb_false_r]. }
  rewrite Hf in H. inv_ok. eexists. split; reflexivity.
Qed.

End Iteration.

Lemma gibbs_phase_rule_check_witness :
  iteration Demo.numpy [Demo.unit_compset] Demo.no_free_potential Demo.start
  = Raise GibbsPhaseRule
  /\ never_gibbs
       (iteration Demo.numpy [Demo.unit_compset] Demo.one_free_potential Demo.start).
Proof.
  split.
  - destruct (gibbs_phase_rule_check Demo.numpy [Demo.unit_compset]
                Demo.no_free_potential Demo.start) as [Hne _].
    destruct Hne as [Hraise _]; [vm_compute; lia|].
    rewrite Hraise. vm_compute. reflexivity.
  - destruct (gibbs_phase_rule_check Demo.numpy [Demo.unit_compset]
                Demo.one_free_potential Demo.start) as [_ Heq].
    destruct Heq as [Hng _]; [vm_compute; reflexivity | exact Hng].
Defined.

Lemma infeasible_iteration_witness :
  exists st',
    iteration Demo.numpy [Demo.unit_compset] Demo.one_free_potential Demo.start
    = Ok (Continue st')
    /\ st_free_stable_compset_indices st' = [0].
Proof.
  assert (Hi : exists o, iteration Demo.numpy [Demo.unit_compset]
                           Demo.one_free_potential Demo.start = Ok o).
  { eexists. vm_compute. reflexivity. }
  destruct Hi as [o Ho].
  destruct (infeasible_iteration Demo.numpy [Demo.unit_compset]
              Demo.one_free_potential Demo.start Demo.start_update
              (Matrix 2 2 [1; 0; 0; 1]%float) [0; 0.5]%float 0.5%float o)
    as (st' & -> & Hfs).
  - vm_compute. reflexivity.
  - vm_compute. reflexivity.
  - left. vm_compute. reflexivity.
  - exact Ho.
  - exists st'. split; [exact Ho | exact Hfs].
Defined.

(** ** SolverDriver: the caller's objects and the loop *)

Lemma unchanged_below_refl n σ : unchanged_below n σ σ.
Proof. repeat split; auto. Qed.

Lemma unchanged_below_trans n σ1 σ2 σ3 :
  unchanged_below n σ1 σ2 -> unchanged_below n σ2 σ3 -> unchanged_below n σ1 σ3.
Proof.
  intros (Ho & Hl & Hb) (Ho' & Hl' & Hb'). repeat split; [congruence | lia |].
  intros a Ha. rewrite Hb', Hb; auto.
Qed.

Lemma unchanged_below_le n m σ σ' :
  n <= m -> unchanged_below m σ σ' -> unchanged_below n σ σ'.
Proof. intros Hle (Ho & Hl & Hb). repeat split; auto. intros a Ha. apply Hb. lia. Qed.

Lemma write_Ok σ a v σ' :
  write σ a v = Ok σ' ->
  a < length (buffers σ) /\ σ' = Store (objects σ) (<[a := v]> (buffers σ)).
Proof. unfold write. destruct (decide _); intros; inv_ok; auto. Qed.

(** A write at or above [n] changes nothing below [n]. *)
Lemma write_unchanged n σ a v σ' :
  write σ a v = Ok σ' -> n <= a ->
  unchanged_below n σ σ' /\ length (buffers σ') = length (buffers σ).
Proof.
  intros [Ha ->]%write_Ok Hn. simpl. rewrite length_insert.
  split; [|done]. split; [done|]. simpl. rewrite length_insert. split; [done|].
  intros b Hb. apply list_lookup_insert_ne. lia.
Qed.

(** A new array gets the first free address. *)
Lemma alloc_unchanged σ v :
  unchanged_below (length (buffers σ)) σ (alloc σ v).1
  /\ (alloc σ v).2 = length (buffers σ)
  /\ length (buffers (alloc σ v).1) = S (length (buffers σ)).
Proof.
  unfold alloc. simpl. rewrite length_app. simpl.
  split; [|split; [done | lia]]. split; [done|]. simpl. rewrite length_app. simpl.
  split; [lia|]. intros a Ha. now apply lookup_app_l.
Qed.

Section Store.

Variable np : NumPy.
Variable compsets : list nat.
Variable c : conditions.

Lemma write_all_unchanged n σ addresses values σ' :
  write_all σ addresses values = Ok σ' -> Forall (fun a => n <= a) addresses ->
  unchanged_below n σ σ' /\ length (buffers σ') = length (buffers σ).
Proof.
  revert σ values. induction addresses as [|a l IH]; intros σ [|v values] H Hall;
    simpl in H; inv_ok; try (split; [apply unchanged_below_refl | done]).
  inversion Hall; subst.
  match goal with Hw : write _ _ _ = Ok ?s |- _ =>
    apply (write_unchanged n) in Hw as [Hu Hl]; [|done];
    destruct (IH s values H) as [Hu' Hl']; [done|] end.
  split; [eapply unchanged_below_trans; eauto | congruence].
Qed.

Lemma store_back_unchanged n σ fr st σ' :
  store_back σ fr st = Ok σ' -> frame_above n fr ->
  unchanged_below n σ σ' /\ length (buffers σ') = length (buffers σ).
Proof.
  unfold store_back. intros H (H1 & H2 & H3 & H4). inv_ok.
  repeat match goal with
  | Hw : write _ _ _ = Ok _ |- _ => apply (write_unchanged n) in Hw as [? ?]; [|done]
  | Hw : write_all _ _ _ = Ok _ |- _ =>
      apply (write_all_unchanged n) in Hw as [? ?]; [|done]
  end.
  split; [|congruence].
  repeat (eapply unchanged_below_trans; [eassumption|]). apply unchanged_below_refl.
Qed.

(** An iteration writes to the arrays of the frame only. *)
Lemma iteration_in_place_unchanged n σ fr fs σ' o :
  iteration_in_place np compsets c σ fr fs = Ok (σ', o) -> frame_above n fr ->
  unchanged_below n σ σ' /\ length (buffers σ') = length (buffers σ).
Proof.
  unfold iteration_in_place. intros H Hfr. inv_ok. eapply store_back_unchanged; eauto.
Qed.

Lemma iterations_unchanged n k σ fr fs σ' conv fs' :
  snd (iterations np compsets c k σ fr fs) = Ok (σ', conv, fs') -> frame_above n fr ->
  unchanged_below n σ σ' /\ length (buffers σ') = length (buffers σ).
Proof.
  revert σ fs. induction k as [|k IH]; simpl; intros σ fs H Hfr.
  - inv_ok. split; [apply unchanged_below_refl | done].
  - destruct (iteration_in_place np compsets c σ fr fs) as [[σ1 [st|st]]|] eqn:E;
      simpl in H; inv_ok.
    + apply (iteration_in_place_unchanged n) in E as [Hu Hl]; [|done].
      destruct (IH _ _ H Hfr) as [Hu' Hl'].
      split; [eapply unchanged_below_trans; eauto | congruence].
    + eapply iteration_in_place_unchanged; eauto.
Qed.

Lemma copy_dofs_spec σ cs σ' copies :
  copy_dofs σ cs = Ok (σ', copies) ->
  unchanged_below (length (buffers σ)) σ σ'
  /\ Forall (fun a => length (buffers σ) <= a) copies
  /\ length copies = length cs.
Proof.
  revert σ σ' copies. induction cs as [|compset cs IH]; simpl; intros σ σ' copies H.
  - inv_ok. split; [apply unchanged_below_refl | split; [constructor | done]].
  - inv_ok. unfold np_array in *. inv_ok.
    match goal with Hc : copy_dofs _ _ = Ok _ |- _ =>
      apply IH in Hc as (Hu & Hall & Hlen) end.
    match goal with v : vec |- _ =>
      destruct (alloc_unchanged σ v) as (Hu0 & Ha & Hl0) end.
    unfold alloc in Hu0. cbn [fst snd buffers] in Hu, Hall, Hu0.
    rewrite length_app in Hu, Hall. cbn [length] in Hu, Hall.
    split; [|split].
    + eapply unchanged_below_trans; [exact Hu0|].
      eapply unchanged_below_le; [|exact Hu]. lia.
    + constructor; [lia|]. eapply Forall_impl; [exact Hall|]. simpl. intros; lia.
    + simpl. congruence.
Qed.

(** The arrays bound before the loop are new ones. *)
Lemma initialise_spec σ σ0 fr :
  initialise compsets c σ = Ok (σ0, fr) ->
  unchanged_below (length (buffers σ)) σ σ0
  /\ frame_above (length (buffers σ)) fr
  /\ length (a_dof fr) = length compsets.
Proof.
  unfold initialise, alloc. intros H. inv_ok. cbn [fst snd buffers objects] in *.
  match goal with Hc : copy_dofs _ _ = Ok _ |- _ =>
    apply copy_dofs_spec in Hc as ((Ho & Hl & Hb) & Hall & Hlen) end.
  cbn [fst snd buffers objects a_phase_amt a_dof a_chemical_potentials
       a_delta_statevars] in *.
  rewrite length_app in Hl, Hb, Hall. cbn [length] in Hl, Hb, Hall.
  match goal with Hg : get_compsets _ _ = Ok _ |- _ =>
    apply mapM_Ok, Forall2_length in Hg end.
  split; [|split].
  - split; [done|]. cbn [buffers]. rewrite !length_app. cbn [length].
    split; [lia|]. intros a0 Ha0.
    rewrite !lookup_app_l by (rewrite ?length_app; cbn [length]; lia).
    rewrite Hb by lia. apply lookup_app_l. lia.
  - unfold frame_above. cbn [a_phase_amt a_dof a_chemical_potentials a_delta_statevars].
    rewrite ?length_app. cbn [length]. repeat split; try lia.
    eapply Forall_impl; [exact Hall|]. cbv beta. intros; lia.
  - congruence.
Qed.

(** C2 (amended).  [find_solution] works on copies: when it returns, every
    object of the caller, so every [CompositionSet] with its [NP], and every
    buffer that existed on entry, so every [dof] vector of a composition set,
    is what it was on entry.  The solver's final [dof] and [phase_amt] are in
    arrays that did not exist on entry, and the caller gets them through the
    returned packed vector only. *)
Theorem find_solution_frame σ fs σ' r :
  find_solution np compsets c σ fs = Ok (σ', r) ->
  objects σ' = objects σ
  /\ (forall a v, buffers σ !! a = Some v -> buffers σ' !! a = Some v)
  /\ exists fr st converged x,
       frame_above (length (buffers σ)) fr
       /\ load σ' fr [] = Ok st
       /\ pack_solution (num_statevars c) (st_dof st) (st_phase_amt st) = Ok x
       /\ r = (converged, x, st_chemical_potentials st).
Proof.
  unfold find_solution, solve.
  destruct (initialise compsets c σ) as [[σ0 fr0]|] eqn:Hi; [|discriminate].
  apply initialise_spec in Hi as (Hu0 & Hfr & _).
  pose proof (iterations_unchanged (length (buffers σ)) 100 σ0 fr0 fs) as Hit.
  destruct (iterations np compsets c 100 σ0 fr0 fs) as [k [[[σ1 conv] fs1]|e]];
    cbn [fst snd mbind res_bind]; [|discriminate].
  intros H. inv_ok.
  destruct (Hit _ _ _ eq_refl Hfr) as [Hu _].
  destruct (unchanged_below_trans _ _ _ _ Hu0 Hu) as (Ho & _ & Hb).
  split; [done|]. split.
  - intros adr w Hadr. rewrite Hb; [done|]. eapply lookup_lt_Some; eauto.
  - eexists fr0, _, _, _. repeat split; try eassumption; apply Hfr.
Qed.

Lemma iterations_le k σ fr fs : fst (iterations np compsets c k σ fr fs) <= k.
Proof.
  revert σ fs. induction k as [|k IH]; simpl; intros σ fs; [lia|].
  destruct (iteration_in_place np compsets c σ fr fs) as [[σ1 [st|st]]|]; simpl; try lia.
  specialize (IH σ1 (st_free_stable_compset_indices st)). lia.
Qed.

End Store.

Lemma find_solution_frame_witness :
  exists σ',
    find_solution Demo.numpy [0] Demo.one_free_potential Demo.unit_store [0]
    = Ok (σ', (true, [1000; 1; 1]%float, [0%float]))
    /\ objects σ' = objects Demo.unit_store
    /\ forall a v, buffers Demo.unit_store !! a = Some v -> buffers σ' !! a = Some v.
Proof.
  eexists. split; [vm_compute; reflexivity|].
  destruct (find_solution_frame Demo.numpy [0] Demo.one_free_potential
              Demo.unit_store [0] _ _ ltac:(vm_compute; reflexivity))
    as (Hobj & Hbuf & _).
  split; [exact Hobj | exact Hbuf].
Defined.

(** C2 as stated fails: the call converges in two iterations on the internal
    degree of freedom 1 and the amount 1, and the composition set still has
    the 0.5 and 0.5 it was given. *)
Lemma composition_sets_keep_their_state :
  ~ solution_in_composition_sets Demo.numpy [0] Demo.one_free_potential
      Demo.unit_store [0].
Proof.
  intros H.
  specialize (H (Store [Demo.unit_compset]
                   [[1000; 0.5]; [1]; [1000; 1]; [0]; [0]]%float)
                (Frame 1 [2] 3 4) true
                (SolverState [1]%float [[1000; 1]%float] [0]%float [0]%float [])
                ltac:(vm_compute; reflexivity) ltac:(vm_compute; reflexivity)
                0 0 Demo.unit_compset eq_refl eq_refl) as [Hdof _].
  vm_compute in Hdof. discriminate.
Qed.

(** ** EquilibriumSystemBuilder: the row of the phase energy *)

(** C1 (the code departs from it).  Two composition sets of which only the
    second is stable ([idx = 1], [stable_idx = 0]), two components, the
    chemical potential of the second one fixed.  The coefficients of the
    phase go to row 0, but the energy 5 minus [masses[1] * mu[1] = 8] is
    written to row 1, over what the N=1 row had accumulated there (2); row 0
    of the right-hand side stays 0. *)
Theorem phase_energy_written_to_row_idx :
  fill_equilibrium_system_for_phase (np_zeros2 2 2) (np_zeros 2) 5
    [0; 1]%float (np_zeros2 2 2) (Matrix 2 1 [1; 2]%float)
    (Matrix 2 2 [0; 1; 0; 1]%float) (Matrix 1 1 [1%float]) [3; 4]%float
    [0; 1]%float [0] [] [1] [1] [] [] 1 0 1
  = Ok (Matrix 2 2 [1; 0; 2; 3]%float, [0; -3]%float)
  /\ (5 - 2 * 4 = -3)%float.
Proof. vm_compute. auto. Qed.

(** * Further properties *)

(** ** Loops that cannot fail, cells of a matrix *)

Lemma for_each_seq_total {S} (I : nat -> S -> Prop) (body : nat -> S -> res S) a n s :
  I a s ->
  (forall i s1, a <= i < a + n -> I i s1 -> exists s2, body i s1 = Ok s2 /\ I (Datatypes.S i) s2) ->
  exists s', for_each (seq a n) body s = Ok s' /\ I (a + n) s'.
Proof.
  revert a s. induction n as [|n IH]; simpl; intros a s Hs Hstep.
  - exists s. rewrite Nat.add_0_r. done.
  - destruct (Hstep a s) as (s1 & E & Hs1); [lia | done |]. rewrite E.
    replace (a + Datatypes.S n) with (Datatypes.S a + n) by lia.
    apply IH; [done|]. intros. apply Hstep; [lia | done].
Qed.

Lemma for_range_total {S} (I : nat -> S -> Prop) (body : nat -> S -> res S) n s :
  I 0 s ->
  (forall i s1, i < n -> I i s1 -> exists s2, body i s1 = Ok s2 /\ I (Datatypes.S i) s2) ->
  exists s', for_range n body s = Ok s' /\ I n s'.
Proof.
  intros H0 Hstep. change n with (0 + n) at 2.
  apply for_each_seq_total; [done|]. intros. apply Hstep; [lia | done].
Qed.

Lemma mset_Ok m i j v m' :
  mset m i j v = Ok m' ->
  i < nrows m /\ j < ncols m /\ i * ncols m + j < length (cells m)
  /\ m' = Matrix (nrows m) (ncols m) (<[i * ncols m + j := v]> (cells m)).
Proof. unfold mset. destruct (decide _) as [(?&?&?)|]; intros; inv_ok; auto. Qed.

Lemma mset_succeeds m i j v :
  well_formed m -> i < nrows m -> j < ncols m ->
  exists m', mset m i j v = Ok m' /\ well_formed m' /\ mshape m' = mshape m.
Proof.
  unfold well_formed, mset. intros Hwf Hi Hj.
  rewrite decide_True by (repeat split; [done..|rewrite Hwf; nia]).
  eexists. split; [done|]. split; [|done]. simpl. now rewrite length_insert.
Qed.

Lemma mset_well_formed m i j v m' :
  mset m i j v = Ok m' -> well_formed m -> well_formed m'.
Proof.
  intros (_ & _ & _ & ->)%mset_Ok. unfold well_formed. simpl. now rewrite length_insert.
Qed.

Lemma mget_mset_eq m i j v m' : mset m i j v = Ok m' -> mget m' i j = Ok v.
Proof.
  intros (Hi & Hj & Hl & ->)%mset_Ok. unfold mget. simpl.
  rewrite decide_True by done. now rewrite list_lookup_insert_eq.
Qed.

Lemma mget_mset_ne m i j v m' a b :
  mset m i j v = Ok m' -> (a, b) <> (i, j) -> mget m' a b = mget m a b.
Proof.
  intros (Hi & Hj & Hl & ->)%mset_Ok Hne. unfold mget. simpl.
  destruct (decide (a < nrows m /\ b < ncols m)) as [[Ha Hb]|]; [|done].
  rewrite list_lookup_insert_ne; [done|].
  intros Heq. apply Hne.
  assert (i = a) by nia. subst. f_equal. lia.
Qed.

Lemma tabulate_lookup n f i : i < n -> tabulate n f !! i = Some (f i).
Proof.
  intros Hi. unfold tabulate. rewrite list_lookup_fmap, lookup_seq_lt by done. done.
Qed.

Lemma tabulate_length n f : length (tabulate n f) = n.
Proof. unfold tabulate. now rewrite length_map, length_seq. Qed.

Lemma flat_map_tabulate_length (r c : nat) (f : nat -> nat -> float) a :
  length (flat_map (fun i => tabulate c (f i)) (seq a r)) = r * c.
Proof.
  revert a. induction r as [|r IH]; intros a; simpl; [done|].
  rewrite length_app, tabulate_length, IH. done.
Qed.

Lemma flat_map_tabulate_lookup (r c : nat) (f : nat -> nat -> float) a i j :
  i < r -> j < c ->
  flat_map (fun i => tabulate c (f i)) (seq a r) !! (i * c + j) = Some (f (a + i) j).
Proof.
  revert a i. induction r as [|r IH]; intros a i Hi Hj; [lia|]. simpl.
  destruct i as [|i].
  - rewrite lookup_app_l by (rewrite tabulate_length; lia).
    rewrite Nat.add_0_r. now apply tabulate_lookup.
  - rewrite lookup_app_r by (rewrite tabulate_length; nia).
    rewrite tabulate_length.
    replace (Datatypes.S i * c + j - c) with (i * c + j) by nia.
    rewrite IH by lia. f_equal. f_equal. lia.
Qed.

Lemma mget_tabulate2 r c f i j : i < r -> j < c -> mget (tabulate2 r c f) i j = Ok (f i j).
Proof.
  intros Hi Hj. unfold mget, tabulate2. simpl. rewrite decide_True by done.
  now rewrite flat_map_tabulate_lookup.
Qed.

Lemma np_zeros2_well_formed r c : well_formed (np_zeros2 r c).
Proof. unfold well_formed, np_zeros2, np_zeros. simpl. apply length_replicate. Qed.

Lemma mget_np_zeros2 r c i j : i < r -> j < c -> mget (np_zeros2 r c) i j = Ok 0%float.
Proof.
  intros Hi Hj. unfold mget, np_zeros2, np_zeros. simpl. rewrite decide_True by done.
  rewrite lookup_replicate_2 by nia. done.
Qed.

Lemma vset_succeeds a i v : i < length a -> vset a i v = Ok (<[i := v]> a).
Proof. intros. unfold vset. now rewrite decide_True. Qed.

(** A doubly nested loop that copies [src i j] to the cell [pos i j]. *)
Lemma block_copy (R C : nat) (src : nat -> nat -> res float)
    (row col : nat -> nat -> nat) (val : nat -> nat -> float) (m : matrix) :
  well_formed m ->
  (forall i j, i < R -> j < C -> src i j = Ok (val i j)) ->
  (forall i j, i < R -> j < C -> row i j < nrows m /\ col i j < ncols m) ->
  (forall i j i' j', i < R -> j < C -> i' < R -> j' < C ->
     (row i j, col i j) = (row i' j', col i' j') -> i = i' /\ j = j') ->
  exists m',
    for_range R (fun i => for_range C (fun j pm =>
      v ← src i j; mset pm (row i j) (col i j) v)) m = Ok m'
    /\ well_formed m' /\ mshape m' = mshape m
    /\ (forall i j, i < R -> j < C -> mget m' (row i j) (col i j) = Ok (val i j))
    /\ (forall a b, (forall i j, i < R -> j < C -> (a, b) <> (row i j, col i j)) ->
          mget m' a b = mget m a b).
Proof.
  intros Hwf Hsrc Hpos Hinj.
  pose (I := fun (i0 : nat) (pm : matrix) =>
    well_formed pm /\ mshape pm = mshape m
    /\ (forall i j, i < i0 -> j < C -> mget pm (row i j) (col i j) = Ok (val i j))
    /\ (forall a b, (forall i j, i < i0 -> j < C -> (a, b) <> (row i j, col i j)) ->
          mget pm a b = mget m a b)).
  destruct (for_range_total I (fun i => for_range C (fun j pm =>
      v ← src i j; mset pm (row i j) (col i j) v)) R m) as (m' & Hm' & HI).
  - subst I. cbv beta. split; [done|]. split; [done|]. split; [intros; lia | done].
  - intros i0 pm Hi0 (Hwf1 & Hsh1 & Hset1 & Hkeep1).
    pose (J := fun (j0 : nat) (pm' : matrix) =>
      well_formed pm' /\ mshape pm' = mshape m
      /\ (forall i j, (i < i0 /\ j < C) \/ (i = i0 /\ j < j0) ->
            mget pm' (row i j) (col i j) = Ok (val i j))
      /\ (forall a b, (forall i j, (i < i0 /\ j < C) \/ (i = i0 /\ j < j0) ->
                         (a, b) <> (row i j, col i j)) ->
            mget pm' a b = mget m a b)).
    destruct (for_range_total J (fun j pm =>
      v ← src i0 j; mset pm (row i0 j) (col i0 j) v) C pm) as (pm' & Hpm' & HJ).
    + subst J. cbv beta. split; [done|]. split; [done|]. split.
      * intros i j [[? ?]|[_ ?]]; [auto | lia].
      * intros a b H. apply Hkeep1. intros i j ? ?. apply H. auto.
    + intros j0 pm1 Hj0 (Hwf2 & Hsh2 & Hset2 & Hkeep2).
      rewrite (Hsrc i0 j0) by done. simpl.
      destruct (Hpos i0 j0) as [Hr Hc]; [done..|].
      unfold mshape in Hsh2. injection Hsh2 as Hr2 Hc2.
      destruct (mset_succeeds pm1 (row i0 j0) (col i0 j0) (val i0 j0))
        as (pm2 & Hpm2 & Hwf3 & Hsh3); [done | lia | lia |].
      exists pm2. split; [done|]. subst J. cbv beta.
      split; [done|]. split; [unfold mshape in *; congruence|]. split.
      * intros i j Hij.
        destruct (decide ((row i j, col i j) = (row i0 j0, col i0 j0))) as [Heq|Hne].
        -- assert (i = i0 /\ j = j0) as [-> ->].
           { apply Hinj; [| |done..]; destruct Hij as [[? ?]|[-> ?]]; lia. }
           eapply mget_mset_eq; eauto.
        -- rewrite (mget_mset_ne _ _ _ _ _ _ _ Hpm2 Hne). apply Hset2.
           destruct Hij as [?|[-> Hj]]; [auto|]. right. split; [done|].
           destruct (decide (j = j0)) as [->|]; [done | lia].
      * intros a b H. rewrite (mget_mset_ne _ _ _ _ _ _ _ Hpm2).
        -- apply Hkeep2. intros i j Hij. apply H.
           destruct Hij as [?|[-> ?]]; [auto | right; split; [done | lia]].
        -- apply H. right. split; [done | lia].
    + exists pm'. split; [done|]. subst I J. cbv beta in *.
      destruct HJ as (Hw & Hsh & Hs & Hk). split; [done|]. split; [done|]. split.
      * intros i j Hi Hj. apply Hs. destruct (decide (i = i0)) as [->|]; [right | left]; lia.
      * intros a b Hab. apply Hk. intros i j Hij. apply Hab; lia.
  - exists m'. split; [done|]. exact HI.
Qed.

(** ** PhaseSystemBuilder: the phase matrix *)

Lemma matrix_ext r c f m :
  well_formed m -> nrows m = r -> ncols m = c ->
  (forall i j, i < r -> j < c -> mget m i j = Ok (f i j)) ->
  m = tabulate2 r c f.
Proof.
  destruct m as [r' c' l]. unfold well_formed. simpl. intros Hwf -> -> Hget.
  unfold tabulate2. f_equal. apply list_eq_same_length with (r * c);
    [apply flat_map_tabulate_length | done |].
  intros k v w Hk Hv Hw.
  assert (Hc : 0 < c) by nia.
  assert (Hdiv : k = k / c * c + k mod c) by (rewrite Nat.mul_comm; apply Nat.div_mod; lia).
  assert (Hj : k mod c < c) by (apply Nat.mod_upper_bound; lia).
  assert (Hi : k / c < r) by (apply Nat.Div0.div_lt_upper_bound; nia).
  specialize (Hget _ _ Hi Hj). unfold mget in Hget. simpl in Hget.
  rewrite decide_True in Hget by done. rewrite <- Hdiv, Hv in Hget. simpl in Hget.
  rewrite Hdiv, flat_map_tabulate_lookup in Hw by done. simpl in Hw. congruence.
Qed.

Lemma compute_phase_matrix_spec pr n x H pm :
  let D := phase_dof pr in
  let K := num_internal_cons pr in
  well_formed pm -> nrows pm = D + K -> ncols pm = D + K ->
  exists pm',
    compute_phase_matrix pm (tabulate2 (n + D) (n + D) H) pr n x = Ok pm'
    /\ well_formed pm' /\ nrows pm' = D + K /\ ncols pm' = D + K
    /\ forall i j, i < D + K -> j < D + K ->
         mget pm' i j = if decide (D <= i /\ D <= j) then mget pm i j
                        else Ok (phase_matrix_entry pr n x H i j).
Proof.
  intros D K Hwf Hr Hc. unfold compute_phase_matrix. fold D K.
  destruct (block_copy D D (fun i j => mget (tabulate2 (n + D) (n + D) H) (n + i) (n + j))
              (fun i _ => i) (fun _ j => j) (fun i j => H (n + i) (n + j)) pm)
    as (pm1 & -> & Hwf1 & Hsh1 & Hset1 & Hkeep1); [done | | | |].
  { intros. apply mget_tabulate2; lia. }
  { intros. lia. }
  { intros * ? ? ? ? [= -> ->]. done. }
  cbn [mbind res_bind]. injection Hsh1 as Hr1 Hc1.
  destruct (block_copy K D
              (fun k j => mget (tabulate2 K (n + D) (internal_cons_jac pr x)) k (n + j))
              (fun k _ => D + k) (fun _ j => j)
              (fun k j => internal_cons_jac pr x k (n + j)) pm1)
    as (pm2 & -> & Hwf2 & Hsh2 & Hset2 & Hkeep2); [done | | | |].
  { intros. apply mget_tabulate2; lia. }
  { intros. lia. }
  { intros * ? ? ? ? [= ? ->]. lia. }
  cbn [mbind res_bind]. injection Hsh2 as Hr2 Hc2.
  destruct (block_copy K D
              (fun k j => mget (tabulate2 K (n + D) (internal_cons_jac pr x)) k (n + j))
              (fun _ j => j) (fun k _ => D + k)
              (fun k j => internal_cons_jac pr x k (n + j)) pm2)
    as (pm3 & -> & Hwf3 & Hsh3 & Hset3 & Hkeep3); [done | | | |].
  { intros. apply mget_tabulate2; lia. }
  { intros. lia. }
  { intros * ? ? ? ? [= -> ?]. lia. }
  injection Hsh3 as Hr3 Hc3.
  exists pm3. split; [done|]. split; [done|]. split; [lia|]. split; [lia|].
  intros i j Hi Hj. unfold phase_matrix_entry. fold D.
  destruct (decide (i < D)) as [HiD|HiD], (decide (j < D)) as [HjD|HjD].
  - rewrite decide_False by lia.
    rewrite Hkeep3 by (intros ? ? ? ? [= -> ->]; lia).
    rewrite Hkeep2 by (intros ? ? ? ? [= -> ->]; lia).
    now apply Hset1.
  - rewrite decide_False by lia.
    replace j with (D + (j - D)) at 1 by lia.
    apply (Hset3 (j - D) i); lia.
  - rewrite decide_False by lia.
    rewrite Hkeep3 by (intros ? ? ? ? [= -> ->]; lia).
    replace i with (D + (i - D)) at 1 by lia.
    apply (Hset2 (i - D) j); lia.
  - rewrite decide_True by lia.
    rewrite Hkeep3 by (intros ? ? ? ? [= -> ->]; lia).
    rewrite Hkeep2 by (intros ? ? ? ? [= -> ->]; lia).
    apply Hkeep1. intros ? ? ? ? [= -> ->]; lia.
Qed.

(** X1.  On the zeroed [(D+K, D+K)] matrix and the [(n+D, n+D)] Hessian that
    both callers pass, [compute_phase_matrix] returns, and what it returns is
    the block matrix of Eq. 41: the Hessian of the internal degrees of
    freedom, the constraint Jacobian below it, its transpose beside it, and a
    corner of zeros that it never writes. *)
Theorem compute_phase_matrix_blocks pr n x H :
  let D := phase_dof pr in
  let K := num_internal_cons pr in
  compute_phase_matrix (np_zeros2 (D + K) (D + K)) (tabulate2 (n + D) (n + D) H) pr n x
  = Ok (tabulate2 (D + K) (D + K) (phase_matrix_entry pr n x H)).
Proof.
  cbv zeta.
  destruct (compute_phase_matrix_spec pr n x H
              (np_zeros2 (phase_dof pr + num_internal_cons pr)
                         (phase_dof pr + num_internal_cons pr)))
    as (pm & -> & Hwf & Hr & Hc & Hget); [apply np_zeros2_well_formed | done..|].
  f_equal. apply matrix_ext; [done..|].
  intros i j Hi Hj. rewrite (Hget i j Hi Hj).
  destruct (decide (phase_dof pr <= i /\ phase_dof pr <= j)) as [[? ?]|Hn].
  - rewrite mget_np_zeros2 by done. unfold phase_matrix_entry.
    now rewrite !decide_False by lia.
  - done.
Qed.

(** X2.  When the Hessian block of the internal degrees of freedom is
    symmetric, so is the phase matrix. *)
Theorem compute_phase_matrix_symmetric pr n x H :
  let D := phase_dof pr in
  let K := num_internal_cons pr in
  (forall a b, a < D -> b < D -> H (n + a) (n + b) = H (n + b) (n + a)) ->
  exists pm,
    compute_phase_matrix (np_zeros2 (D + K) (D + K)) (tabulate2 (n + D) (n + D) H) pr n x
    = Ok pm
    /\ forall i j, i < D + K -> j < D + K -> mget pm i j = mget pm j i.
Proof.
  cbv zeta. intros Hsym.
  destruct (compute_phase_matrix_spec pr n x H
              (np_zeros2 (phase_dof pr + num_internal_cons pr)
                         (phase_dof pr + num_internal_cons pr)))
    as (pm & -> & Hwf & Hr & Hc & Hget); [apply np_zeros2_well_formed | done..|].
  exists pm. split; [done|]. intros i j Hi Hj.
  rewrite (Hget i j), (Hget j i) by done. unfold phase_matrix_entry.
  destruct (decide (i < phase_dof pr)), (decide (j < phase_dof pr)).
  - rewrite !decide_False by lia. now rewrite Hsym.
  - now rewrite !decide_False by lia.
  - now rewrite !decide_False by lia.
  - rewrite !decide_True by lia. now rewrite !mget_np_zeros2.
Qed.

Lemma compute_phase_matrix_symmetric_witness :
  exists pm,
    compute_phase_matrix (np_zeros2 2 2) (tabulate2 2 2 (fun _ _ => 0%float))
      Demo.unit_phase 1 [1000; 0.5]%float = Ok pm
    /\ forall i j, i < 2 -> j < 2 -> mget pm i j = mget pm j i.
Proof.
  apply (compute_phase_matrix_symmetric Demo.unit_phase 1 [1000; 0.5]%float
           (fun _ _ => 0%float)).
  intros; reflexivity.
Defined.

(** ** PhaseSystemBuilder: the phase system *)

Lemma for_each_app {S} l1 l2 (body : nat -> S -> res S) s :
  for_each (l1 ++ l2) body s = for_each l1 body s ≫= for_each l2 body.
Proof.
  revert s. induction l1 as [|i l1 IH]; intros s; simpl; [done|].
  destruct (body i s); simpl; [apply IH | done].
Qed.

Lemma for_range_S {S} n (body : nat -> S -> res S) s :
  for_range (Datatypes.S n) body s = for_range n body s ≫= body n.
Proof.
  unfold for_range. rewrite seq_S, for_each_app. simpl.
  destruct (for_each (seq 0 n) body s) as [s'|]; simpl; [|done].
  now destruct (body n s').
Qed.

Lemma for_range_ext {S} n (b1 b2 : nat -> S -> res S) s :
  (forall i s, i < n -> b1 i s = b2 i s) -> for_range n b1 s = for_range n b2 s.
Proof.
  induction n as [|n IH]; intros H; [done|].
  rewrite !for_range_S, IH by (intros; apply H; lia).
  destruct (for_range n b2 s); simpl; [apply H; lia | done].
Qed.

(** A loop that subtracts from (adds to) one entry of a vector. *)
Lemma vsub_terms n (t : nat -> float) (a : vec) i old :
  a !! i = Some old ->
  for_range n (fun k a => vsub a i (t k)) a = Ok (<[i := subtract_terms old n t]> a).
Proof.
  intros Hold. induction n as [|n IH].
  - unfold for_range, subtract_terms. simpl. now rewrite list_insert_id.
  - rewrite for_range_S, IH. simpl. unfold vsub, vget, vset.
    rewrite list_lookup_insert_eq by (eapply lookup_lt_Some; eauto). simpl.
    rewrite length_insert, decide_True by (eapply lookup_lt_Some; eauto).
    rewrite list_insert_insert_eq. unfold subtract_terms.
    now rewrite seq_S, fold_left_app.
Qed.

Lemma vadd_terms n (t : nat -> float) (a : vec) i old :
  a !! i = Some old ->
  for_range n (fun k a => vadd a i (t k)) a = Ok (<[i := add_terms old n t]> a).
Proof.
  intros Hold. induction n as [|n IH].
  - unfold for_range, add_terms. simpl. now rewrite list_insert_id.
  - rewrite for_range_S, IH. simpl. unfold vadd, vget, vset.
    rewrite list_lookup_insert_eq by (eapply lookup_lt_Some; eauto). simpl.
    rewrite length_insert, decide_True by (eapply lookup_lt_Some; eauto).
    rewrite list_insert_insert_eq. unfold add_terms.
    now rewrite seq_S, fold_left_app.
Qed.

Lemma vget_lookup_total (a : vec) i : i < length a -> vget a i = Ok (a !!! i).
Proof.
  intros Hi. unfold vget. destruct (lookup_lt_is_Some_2 a i Hi) as [v Hv].
  rewrite Hv. simpl. f_equal. symmetry. now apply list_lookup_total_correct.
Qed.

Lemma vec_ext n f (a : vec) :
  length a = n -> (forall i, i < n -> a !! i = Some (f i)) -> a = tabulate n f.
Proof.
  intros Hlen H. apply list_eq_same_length with n; [apply tabulate_length | done |].
  intros i v w Hi Hv Hw. rewrite H in Hv by done. rewrite tabulate_lookup in Hw by done.
  congruence.
Qed.

(** X3.  For a phase with at least one internal constraint,
    [compute_phase_system] returns on zeroed buffers.  The matrix is that of
    [compute_phase_matrix]; row [i] of the right-hand side is minus the
    gradient, minus the Hessian terms of the state-variable increments, plus
    the chemical-potential terms, in this order; the rows after them are
    minus the constraint residuals; and the value returned is the
    NaN-propagating maximum of the absolute residuals. *)
Theorem compute_phase_system_closed_form pr d mu x :
  let D := phase_dof pr in
  let K := num_internal_cons pr in
  0 < K ->
  exists r,
    compute_phase_system (np_zeros2 (D + K) (D + K)) (np_zeros (D + K)) pr d mu x
    = Ok (tabulate2 (D + K) (D + K) (phase_matrix_entry pr (length d) x (hess pr x)),
          tabulate (D + K) (phase_rhs_entry pr d mu x), r)
    /\ F.np_max (np_abs (tabulate K (internal_cons_func pr x))) = Ok r.
Proof.
  cbv zeta. intros HK. unfold compute_phase_system.
  set (D := phase_dof pr). set (K := num_internal_cons pr) in *.
  set (n := length d).
  destruct (compute_phase_matrix_spec pr n x (hess pr x) (np_zeros2 (D + K) (D + K)))
    as (pm & Hpmeq & Hwf & Hnr & Hnc & Hget); [apply np_zeros2_well_formed | done..|].
  fold D K in Hpmeq. rewrite Hpmeq. clear Hpmeq.
  assert (Hpm : pm = tabulate2 (D + K) (D + K) (phase_matrix_entry pr n x (hess pr x))).
  { apply matrix_ext; [done..|]. intros i j Hi Hj. rewrite (Hget i j Hi Hj).
    destruct (decide (phase_dof pr <= i /\ phase_dof pr <= j)) as [[? ?]|Hn]; [|done].
    rewrite mget_np_zeros2 by done. unfold phase_matrix_entry.
    now rewrite !decide_False by lia. }
  subst pm. cbn [mbind res_bind].
  (* the rows of the internal degrees of freedom *)
  pose (I := fun (i0 : nat) (rhs : vec) =>
    length rhs = D + K
    /\ forall i, i < i0 -> rhs !! i = Some (phase_rhs_entry pr d mu x i)).
  match goal with
  | |- context [for_range D ?body (np_zeros (D + K))] =>
      destruct (for_range_total I body D (np_zeros (D + K))) as (rhs1 & -> & Hlen1 & Hrows)
  end.
  { subst I. cbv beta. split; [apply length_replicate | intros; lia]. }
  { intros i rhs Hi [Hlen IH]. subst I. cbv beta.
    rewrite vget_lookup_total by (rewrite tabulate_length; lia).
    rewrite list_lookup_total_correct with (x := grad pr x (n + i))
      by (apply tabulate_lookup; lia).
    cbn [mbind res_bind]. rewrite vset_succeeds by lia. cbn [mbind res_bind].
    rewrite (for_range_ext n _
      (fun sv_idx a => vsub a i (hess pr x (n + i) sv_idx * (d !!! sv_idx))%float)).
    2:{ intros sv a Hsv. rewrite mget_tabulate2 by lia. cbn [mbind res_bind].
        rewrite vget_lookup_total by done. done. }
    rewrite (vsub_terms _ _ _ _ (- grad pr x (n + i))%float)
      by (apply list_lookup_insert_eq; lia).
    cbn [mbind res_bind]. rewrite list_insert_insert_eq.
    rewrite (for_range_ext (length mu) _
      (fun comp a => vadd a i ((mu !!! comp) * mass_grad pr x comp (n + i))%float)).
    2:{ intros comp a Hcomp. rewrite vget_lookup_total by done. cbn [mbind res_bind].
        rewrite mget_tabulate2 by lia. done. }
    erewrite vadd_terms by (apply list_lookup_insert_eq; lia).
    rewrite list_insert_insert_eq.
    eexists. split; [reflexivity|]. rewrite length_insert. split; [done|].
    intros i' Hi'. destruct (decide (i' = i)) as [->|Hne].
    - rewrite list_lookup_insert_eq by lia. unfold phase_rhs_entry. fold D n.
      now rewrite decide_True by done.
    - rewrite list_lookup_insert_ne by done. apply IH. lia. }
  cbn [mbind res_bind].
  (* the rows of the internal constraints *)
  pose (J := fun (k0 : nat) (rhs : vec) =>
    length rhs = D + K
    /\ forall i, i < D + k0 -> rhs !! i = Some (phase_rhs_entry pr d mu x i)).
  match goal with
  | |- context [for_range K ?body rhs1] =>
      destruct (for_range_total J body K rhs1) as (rhs2 & -> & Hlen2 & Hall)
  end.
  { subst J. cbv beta. split; [done|]. intros i Hi. apply Hrows. lia. }
  { intros k rhs Hk [Hlen IH]. subst J. cbv beta.
    rewrite vget_lookup_total by (rewrite tabulate_length; lia).
    rewrite list_lookup_total_correct with (x := internal_cons_func pr x k)
      by (apply tabulate_lookup; lia).
    cbn [mbind res_bind]. rewrite vset_succeeds by lia.
    eexists. split; [reflexivity|]. rewrite length_insert. split; [done|].
    intros i Hi. destruct (decide (i = D + k)) as [->|Hne].
    - rewrite list_lookup_insert_eq by lia. unfold phase_rhs_entry. fold D.
      rewrite decide_False by lia. do 3 f_equal. lia.
    - rewrite list_lookup_insert_ne by done. apply IH. lia. }
  cbn [mbind res_bind].
  assert (Hmax : exists r, F.np_max (np_abs (tabulate K (internal_cons_func pr x))) = Ok r).
  { destruct K as [|K']; [lia|]. unfold tabulate, np_abs. simpl. eauto. }
  destruct Hmax as [r Hr]. exists r. rewrite Hr. cbn [mbind res_bind].
  split; [|done]. do 3 f_equal. apply vec_ext; [done|]. intros i Hi. now apply Hall.
Qed.

Lemma compute_phase_system_closed_form_witness :
  exists r,
    compute_phase_system (np_zeros2 2 2) (np_zeros 2) Demo.unit_phase [0%float] [1%float]
      [1000; 0.5]%float
    = Ok (tabulate2 2 2 (phase_matrix_entry Demo.unit_phase 1 [1000; 0.5]%float
                           (fun _ _ => 0%float)),
          tabulate 2 (phase_rhs_entry Demo.unit_phase [0%float] [1%float]
                        [1000; 0.5]%float), r)
    /\ r = 0.5%float.
Proof.
  destruct (compute_phase_system_closed_form Demo.unit_phase [0%float] [1%float]
              [1000; 0.5]%float) as (r & Hsys & Hr); [simpl; lia|].
  exists r. split; [exact Hsys|]. vm_compute in Hr. congruence.
Defined.

(** ** The order of doubles *)

Ltac compare_cases :=
  repeat match goal with
  | |- context [(?a ?= ?b)%Z] => destruct (Z.compare_spec a b)
  | |- context [Pos.compare_cont Eq ?a ?b] =>
      change (Pos.compare_cont Eq a b) with (Pos.compare a b);
      destruct (Pos.compare_spec a b)
  end.

Lemma SFleb_trans x y z : SFleb x y = true -> SFleb y z = true -> SFleb x z = true.
Proof.
  unfold SFleb.
  destruct x as [sx|sx| |sx mx ex], y as [sy|sy| |sy my ey], z as [sz|sz| |sz mz ez];
    simpl; try (intros; discriminate); try (intros; reflexivity);
    try (destruct sx, sy, sz; simpl; intros; first [discriminate | reflexivity]).
  destruct sx, sy, sz; simpl; try (intros; first [discriminate | reflexivity]);
    compare_cases; simpl; intros; subst; first [discriminate | reflexivity | lia].
Qed.

Lemma SFleb_ltb_trans x y z : SFleb x y = true -> SFltb y z = true -> SFltb x z = true.
Proof.
  unfold SFleb, SFltb.
  destruct x as [sx|sx| |sx mx ex], y as [sy|sy| |sy my ey], z as [sz|sz| |sz mz ez];
    simpl; try (intros; discriminate); try (intros; reflexivity);
    try (destruct sx, sy, sz; simpl; intros; first [discriminate | reflexivity]).
  destruct sx, sy, sz; simpl; try (intros; first [discriminate | reflexivity]);
    compare_cases; simpl; intros; subst; first [discriminate | reflexivity | lia].
Qed.

Lemma leb_trans x y z :
  (x <=? y)%float = true -> (y <=? z)%float = true -> (x <=? z)%float = true.
Proof. rewrite !FloatAxioms.leb_spec. apply SFleb_trans. Qed.

Lemma leb_ltb_trans x y z :
  (x <=? y)%float = true -> (y <? z)%float = true -> (x <? z)%float = true.
Proof. rewrite FloatAxioms.leb_spec, !FloatAxioms.ltb_spec. apply SFleb_ltb_trans. Qed.

Lemma leb_refl x : is_nan x = false -> (x <=? x)%float = true.
Proof.
  intros Hx. destruct (x <=? x)%float eqn:E; [done|].
  apply not_leb_ltb in E; [|done..]. pose proof (leb_not_ltb _ _ (ltb_leb _ _ E)). congruence.
Qed.

Lemma is_nan_abs x : is_nan (abs x) = is_nan x.
Proof.
  destruct (is_nan x) eqn:E.
  - apply is_nan_spec. apply is_nan_spec in E. now rewrite abs_spec, E.
  - apply is_nan_false. rewrite abs_spec. intros H.
    destruct (Prim2SF x) eqn:Ex; try discriminate.
    apply is_nan_spec in Ex. congruence.
Qed.

Lemma leb_nan_l x y : is_nan x = true -> (x <=? y)%float = false.
Proof. intros H%is_nan_spec. now rewrite FloatAxioms.leb_spec, H. Qed.

Lemma ltb_nan_r x y : is_nan y = true -> (x <? y)%float = false.
Proof.
  intros H%is_nan_spec. rewrite FloatAxioms.ltb_spec, H. unfold SFltb.
  now destruct (Prim2SF x) as [[]|[]| |[]].
Qed.

(** [np.maximum]: a NaN wins; otherwise the greater of the two. *)
Lemma np_maximum_nan a b :
  is_nan (F.np_maximum a b) = is_nan a || is_nan b.
Proof.
  unfold F.np_maximum, F.geb. destruct (is_nan a) eqn:Ea.
  - rewrite orb_true_r. simpl. done.
  - rewrite orb_false_r. simpl. destruct (b <=? a)%float eqn:E; [|done].
    destruct (is_nan b) eqn:Eb; [|done]. now rewrite leb_nan_l in E.
Qed.

Lemma np_maximum_ge a b :
  is_nan a = false -> is_nan b = false ->
  (a <=? F.np_maximum a b)%float = true /\ (b <=? F.np_maximum a b)%float = true.
Proof.
  intros Ha Hb. unfold F.np_maximum, F.geb. rewrite Ha, orb_false_r.
  destruct (b <=? a)%float eqn:E.
  - split; [now apply leb_refl | done].
  - split; [now apply ltb_leb, not_leb_ltb | now apply leb_refl].
Qed.

Lemma fold_np_maximum_nan l x :
  is_nan (fold_left F.np_maximum l x) = is_nan x || existsb is_nan l.
Proof.
  revert x. induction l as [|y l IH]; intros x; simpl; [now rewrite orb_false_r|].
  rewrite IH, np_maximum_nan. now rewrite orb_assoc.
Qed.

Lemma fold_np_maximum_ge l x :
  is_nan x = false -> existsb is_nan l = false ->
  (x <=? fold_left F.np_maximum l x)%float = true
  /\ forall y, y ∈ l -> (y <=? fold_left F.np_maximum l x)%float = true.
Proof.
  revert x. induction l as [|y l IH]; intros x Hx Hl; simpl in *.
  - split; [now apply leb_refl|]. intros y Hy. inversion Hy.
  - apply orb_false_iff in Hl as [Hy Hl].
    destruct (np_maximum_ge x y Hx Hy) as [H1 H2].
    destruct (IH (F.np_maximum x y)) as [H3 H4]; [|done|].
    { rewrite np_maximum_nan, Hx, Hy. done. }
    split; [eapply leb_trans; eauto|].
    intros z Hz. apply elem_of_cons in Hz as [->|Hz]; [eapply leb_trans; eauto | auto].
Qed.

(** [np.max]: NaN as soon as one entry is; otherwise an upper bound. *)
Lemma np_max_spec l r :
  F.np_max l = Ok r ->
  is_nan r = existsb is_nan l
  /\ (is_nan r = false -> forall y, y ∈ l -> (y <=? r)%float = true).
Proof.
  destruct l as [|x l]; simpl; [discriminate|]. intros [= <-].
  split; [apply fold_np_maximum_nan|].
  rewrite fold_np_maximum_nan. intros [Hx Hl]%orb_false_iff y Hy.
  destruct (fold_np_maximum_ge l x Hx Hl) as [H1 H2].
  apply elem_of_cons in Hy as [->|Hy]; auto.
Qed.

(** Python's [max(t, r)] of a tracker that is not NaN: not NaN, at least the
    tracker, and at least [r] unless [r] is NaN. *)
Lemma py_max_tracker t r :
  is_nan t = false ->
  is_nan (F.py_max t r) = false
  /\ (t <=? F.py_max t r)%float = true
  /\ (is_nan r = false -> (r <=? F.py_max t r)%float = true).
Proof.
  intros Ht. unfold F.py_max, F.gtb. destruct (t <? r)%float eqn:E.
  - destruct (is_nan r) eqn:Er; [now rewrite ltb_nan_r in E|].
    split; [done|]. split; [now apply ltb_leb | intros _; now apply leb_refl].
  - split; [done|]. split; [now apply leb_refl|]. intros Hr. now apply not_ltb_leb.
Qed.

(** ** SolverDriver: the constraint residuals of the first step *)

Lemma existsb_is_nan_abs_tabulate n f :
  existsb is_nan (np_abs (tabulate n f)) = true ->
  exists k, k < n /\ is_nan (f k) = true.
Proof.
  intros H. apply existsb_exists in H as (y & Hy & Hnan).
  apply list_elem_of_In in Hy. unfold np_abs, tabulate in Hy.
  apply list_elem_of_fmap in Hy as (z & -> & Hz).
  apply list_elem_of_fmap in Hz as (k & -> & Hk). apply elem_of_seq in Hk.
  exists k. split; [lia|]. now rewrite is_nan_abs in Hnan.
Qed.

Lemma compute_phase_system_residual pm rhs pr d mu x pm' rhs' r :
  compute_phase_system pm rhs pr d mu x = Ok (pm', rhs', r) ->
  F.np_max (np_abs (tabulate (num_internal_cons pr) (internal_cons_func pr x))) = Ok r.
Proof. unfold compute_phase_system. intros H. inv_ok. done. Qed.

Lemma np_max_residuals pr x r :
  F.np_max (np_abs (tabulate (num_internal_cons pr) (internal_cons_func pr x))) = Ok r ->
  (is_nan r = true -> nan_residual pr x)
  /\ (is_nan r = false -> residuals_within pr x r).
Proof.
  intros [Hnan Hge]%np_max_spec. split.
  - intros Hr. rewrite Hr in Hnan. symmetry in Hnan.
    now apply existsb_is_nan_abs_tabulate in Hnan.
  - intros Hr k Hk. apply Hge; [done|]. unfold np_abs, tabulate.
    apply list_elem_of_fmap. exists (internal_cons_func pr x k). split; [done|].
    apply list_elem_of_fmap. exists k. split; [done|]. apply elem_of_seq. lia.
Qed.

Section Tracker.

Variable np : NumPy.
Variable compsets : list CompositionSet.
Variable c : conditions.

Lemma update_internal_dof_tracker pa mu d idx cs u u' :
  update_internal_dof np c pa mu d idx cs u = Ok u' ->
  exists x x' r,
    iu_dof u !! idx = Some x
    /\ iu_dof u' = <[idx := x']> (iu_dof u)
    /\ F.np_max (np_abs (tabulate (num_internal_cons (phase_record cs))
                                  (internal_cons_func (phase_record cs) x))) = Ok r
    /\ iu_largest_internal_cons_max_residual u'
       = F.py_max (iu_largest_internal_cons_max_residual u) r.
Proof.
  unfold update_internal_dof. intros H. inv_ok. simpl.
  match goal with Hc : compute_phase_system _ _ _ _ _ _ = Ok _ |- _ =>
    apply compute_phase_system_residual in Hc end.
  eauto 10.
Qed.

(** X4.  After the first step the tracker
    [largest_internal_cons_max_residual] is not NaN, and it bounds the
    absolute value of every internal constraint of every composition set,
    taken at the point the step started from, except for a composition set
    with a NaN constraint: Python's [max] drops its residual.  So when the
    feasibility test passes, every constraint is below 1e-10 or belongs to
    such a composition set. *)
Theorem internal_constraints_below_tracker st u :
  update_internal_dofs np compsets c st = Ok u ->
  is_nan (iu_largest_internal_cons_max_residual u) = false
  /\ (forall idx compset x,
        compsets !! idx = Some compset -> st_dof st !! idx = Some x ->
        nan_residual (phase_record compset) x
        \/ residuals_within (phase_record compset) x
             (iu_largest_internal_cons_max_residual u))
  /\ (forall mass_residual idx compset x k,
        system_is_feasible mass_residual u = true ->
        compsets !! idx = Some compset -> st_dof st !! idx = Some x ->
        k < num_internal_cons (phase_record compset) ->
        nan_residual (phase_record compset) x
        \/ (abs (internal_cons_func (phase_record compset) x k) <? 1e-10)%float = true).
Proof.
  intros H.
  enough (Hmain : is_nan (iu_largest_internal_cons_max_residual u) = false
    /\ forall idx compset x,
        compsets !! idx = Some compset -> st_dof st !! idx = Some x ->
        nan_residual (phase_record compset) x
        \/ residuals_within (phase_record compset) x
             (iu_largest_internal_cons_max_residual u)).
  { destruct Hmain as [Hnan Hall]. split; [done|]. split; [done|].
    intros mr idx compset x k Hf Hcs Hx Hk.
    destruct (Hall idx compset x Hcs Hx) as [?|Hw]; [now left | right].
    apply andb_true_iff in Hf as [_ Hf]. eapply leb_ltb_trans; [apply Hw|]; done. }
  revert H. unfold update_internal_dofs.
  pose (I := fun (n : nat) (u : internal_update) =>
    is_nan (iu_largest_internal_cons_max_residual u) = false
    /\ (forall j, n <= j -> iu_dof u !! j = st_dof st !! j)
    /\ forall idx compset x, idx < n ->
        compsets !! idx = Some compset -> st_dof st !! idx = Some x ->
        nan_residual (phase_record compset) x
        \/ residuals_within (phase_record compset) x
             (iu_largest_internal_cons_max_residual u)).
  intros H. apply (for_range_ind I) in H; subst I; cbv beta in *.
  - destruct H as (Hnan & _ & Hall). split; [done|]. intros idx compset x Hcs Hx.
    apply (Hall idx compset x); [|done..]. eapply lookup_lt_Some; eauto.
  - simpl. split; [done|]. split; [done|]. intros; lia.
  - intros i u1 u2 Hi (Hnan & Hdof & IH) Hbody. inv_ok.
    match goal with Hc : compsets !! i = Some ?cs |- _ => rename Hc into Hcs end.
    apply update_internal_dof_tracker in Hbody as (x & x' & r & Hx & Hd & Hr & Ht).
    destruct (py_max_tracker _ r Hnan) as (Hn' & Hge & Hr').
    rewrite Ht. split; [done|]. split.
    + intros j Hj. rewrite Hd, list_lookup_insert_ne by lia. apply Hdof. lia.
    + intros idx compset y Hidx Hc Hy.
      destruct (decide (idx = i)) as [->|Hne].
      * rewrite Hdof in Hx by lia. simplify_eq.
        apply np_max_residuals in Hr as [Hr1 Hr2].
        destruct (is_nan r) eqn:Er; [left; auto|]. right.
        intros k Hk. eapply leb_trans; [apply Hr2; done | auto].
      * destruct (IH idx compset y) as [?|Hw]; [lia | done..| now left |]. right.
        intros k Hk. eapply leb_trans; [apply Hw; done | done].
Qed.

End Tracker.

Lemma internal_constraints_below_tracker_witness :
  is_nan (iu_largest_internal_cons_max_residual Demo.start_update) = false
  /\ (nan_residual Demo.unit_phase [1000; 0.5]%float
      \/ residuals_within Demo.unit_phase [1000; 0.5]%float 0.5).
Proof.
  destruct (internal_constraints_below_tracker Demo.numpy [Demo.unit_compset]
              Demo.one_free_potential Demo.start Demo.start_update)
    as (Hnan & Hall & _); [vm_compute; reflexivity|].
  split; [exact Hnan|]. apply (Hall 0 Demo.unit_compset); reflexivity.
Defined.

(** ** EquilibriumSystemBuilder: what one phase writes *)

Lemma for_range_keeps {S T} (f : S -> T) n (body : nat -> S -> res S) s s' :
  (forall i s1 s2, i < n -> body i s1 = Ok s2 -> f s2 = f s1) ->
  for_range n body s = Ok s' -> f s' = f s.
Proof.
  intros Hb. apply (for_range_ind (fun _ a => f a = f s)); [done|].
  intros i s1 s2 Hi IH H. rewrite <- IH. eauto.
Qed.

Lemma at_cell_mset m i j v m' a b :
  mset m i j v = Ok m' -> (a, b) <> (i, j) -> at_cell a b m' = at_cell a b m.
Proof. apply mget_mset_ne. Qed.

Lemma at_cell_madd m i j v m' a b :
  madd m i j v = Ok m' -> (a, b) <> (i, j) -> at_cell a b m' = at_cell a b m.
Proof. unfold madd. intros H Hne. inv_ok. eapply mget_mset_ne; eauto. Qed.

Lemma at_cell_msub m i j v m' a b :
  msub m i j v = Ok m' -> (a, b) <> (i, j) -> at_cell a b m' = at_cell a b m.
Proof. unfold msub. intros H Hne. inv_ok. eapply mget_mset_ne; eauto. Qed.

Lemma at_index_vset a i v a' k :
  vset a i v = Ok a' -> k <> i -> at_index k a' = at_index k a.
Proof. intros [_ ->]%vset_Ok Hne. unfold at_index. now apply list_lookup_insert_ne. Qed.

Lemma at_index_vadd a i v a' k :
  vadd a i v = Ok a' -> k <> i -> at_index k a' = at_index k a.
Proof. unfold vadd. intros H Hne. inv_ok. eapply at_index_vset; eauto. Qed.

Lemma at_index_vsub a i v a' k :
  vsub a i v = Ok a' -> k <> i -> at_index k a' = at_index k a.
Proof. unfold vsub. intros H Hne. inv_ok. eapply at_index_vset; eauto. Qed.

Ltac untouched_side :=
  first [ lia | congruence
        | let H := fresh in intros H; inversion H; first [lia | congruence] ].

(** Chains what a cell holds after a block back to what it held before. *)
Ltac untouched :=
  intros; inv_ok;
  repeat match goal with
  | H : (if ?b then _ else _) = Ok _ |- _ => destruct b; inv_ok
  end;
  first
  [ reflexivity
  | match goal with
    | H : for_range _ _ ?m = Ok ?m' |- ?f ?m' = _ =>
        transitivity (f m);
        [apply (for_range_keeps f _ _ _ _) with (2 := H); untouched | untouched]
    | H : mset ?m _ _ _ = Ok ?m' |- at_cell ?a ?b ?m' = _ =>
        transitivity (at_cell a b m); [apply (at_cell_mset _ _ _ _ _ _ _ H); untouched_side | untouched]
    | H : madd ?m _ _ _ = Ok ?m' |- at_cell ?a ?b ?m' = _ =>
        transitivity (at_cell a b m); [apply (at_cell_madd _ _ _ _ _ _ _ H); untouched_side | untouched]
    | H : msub ?m _ _ _ = Ok ?m' |- at_cell ?a ?b ?m' = _ =>
        transitivity (at_cell a b m); [apply (at_cell_msub _ _ _ _ _ _ _ H); untouched_side | untouched]
    | H : vset ?m _ _ = Ok ?m' |- at_index ?k ?m' = _ =>
        transitivity (at_index k m); [apply (at_index_vset _ _ _ _ _ H); untouched_side | untouched]
    | H : vadd ?m _ _ = Ok ?m' |- at_index ?k ?m' = _ =>
        transitivity (at_index k m); [apply (at_index_vadd _ _ _ _ _ H); untouched_side | untouched]
    | H : vsub ?m _ _ = Ok ?m' |- at_index ?k ?m' = _ =>
        transitivity (at_index k m); [apply (at_index_vsub _ _ _ _ _ H); untouched_side | untouched]
    end ].

(** A component row is the only row [fill_component_row] writes to. *)
Lemma fill_component_row_frame acc m mj cc cs cG pa fci fsi fs idx n row comp em rhs
    em' rhs' :
  fill_component_row acc m mj cc cs cG pa fci fsi fs idx n row comp (em, rhs)
  = Ok (em', rhs') ->
  (forall a b, a <> row -> at_cell a b em' = at_cell a b em)
  /\ (forall k, k <> row -> at_index k rhs' = at_index k rhs).
Proof.
  unfold fill_component_row. intros H. inv_ok. split.
  - intros ro co Hne. untouched.
  - intros k Hne. untouched.
Qed.

Section PhaseRows.

Variables (em : matrix) (rhs : vec) (energy : float) (grad : vec)
  (hess masses mass_jac e_matrix : matrix) (mu pa : vec)
  (fci fsi fs fxi pei : list nat) (pea : vec) (idx sidx n : nat)
  (em' : matrix) (rhs' : vec).

Hypothesis Hfill :
  fill_equilibrium_system_for_phase em rhs energy grad hess masses mass_jac e_matrix
    mu pa fci fsi fs fxi pei pea idx sidx n = Ok (em', rhs').

Lemma for_phase_frame_matrix a b :
  a < length fs ->
  a <> sidx \/ length fci <= b < length fci + length fs ->
  at_cell a b em' = at_cell a b em.
Proof using Hfill.
  intros Ha Hab. revert Hfill. unfold fill_equilibrium_system_for_phase. intros H.
  inv_ok.
  repeat match goal with
  | H : for_range _ (fun _ sys => fill_component_row _ _ _ _ _ _ _ _ _ _ _ _ _ _ sys) ?s
        = Ok ?s' |- _ =>
      apply (for_range_keeps (fun s => at_cell a b s.1)) in H;
      [| intros ? [? ?] [? ?] ? Hb;
         apply fill_component_row_frame in Hb as [Hb _]; apply Hb; lia]
  | H : for_range _ (fun _ _ => mbind _ _) (?m, rhs) = Ok ?s' |- _ =>
      apply (for_range_keeps (fun s => at_cell a b s.1)) in H;
      [| intros ? [? ?] [? ?] ? Hb; inv_ok;
         apply fill_component_row_frame in Hb as [Hb _]; apply Hb; lia]
  end.
  simpl in *.
  match goal with
  | H1 : at_cell a b em' = at_cell a b ?s.1, H2 : at_cell a b ?s.1 = at_cell a b ?m
    |- _ => rewrite H1, H2
  end.
  destruct Hab as [Hne|Hb]; untouched.
Qed.

Lemma for_phase_frame_rhs k :
  k < length fs -> k <> idx -> at_index k rhs' = at_index k rhs.
Proof using Hfill.
  intros Hk Hne. revert Hfill. unfold fill_equilibrium_system_for_phase. intros H.
  inv_ok.
  repeat match goal with
  | H : for_range _ (fun _ sys => fill_component_row _ _ _ _ _ _ _ _ _ _ _ _ _ _ sys) ?s
        = Ok ?s' |- _ =>
      apply (for_range_keeps (fun s => at_index k s.2)) in H;
      [| intros ? [? ?] [? ?] ? Hb;
         apply fill_component_row_frame in Hb as [_ Hb]; apply Hb; lia]
  | H : for_range _ (fun _ _ => mbind _ _) (?m, rhs) = Ok ?s' |- _ =>
      apply (for_range_keeps (fun s => at_index k s.2)) in H;
      [| intros ? [? ?] [? ?] ? Hb; inv_ok;
         apply fill_component_row_frame in Hb as [_ Hb]; apply Hb; lia]
  end.
  simpl in *.
  match goal with
  | H1 : at_index k ?r = at_index k ?s.2, H2 : at_index k ?s.2 = at_index k rhs
    |- _ => transitivity (at_index k r); [|now rewrite H1, H2]
  end.
  untouched.
Qed.

(** X5.  [fill_equilibrium_system_for_phase] leaves alone the rows of the
    other stable phases, the stable-phase columns of its own row, and the
    entries of the right-hand side below [num_stable_phases] other than
    entry [idx]. *)
Theorem fill_equilibrium_system_for_phase_frame :
  (forall a b, a < length fs -> a <> sidx -> mget em' a b = mget em a b)
  /\ (forall b, sidx < length fs -> length fci <= b < length fci + length fs ->
        mget em' sidx b = mget em sidx b)
  /\ (forall k, k < length fs -> k <> idx -> rhs' !! k = rhs !! k).
Proof using Hfill.
  split; [|split].
  - intros a b Ha Hne. apply for_phase_frame_matrix; auto.
  - intros b Hs Hb. apply for_phase_frame_matrix; auto.
  - intros k Hk Hne. now apply for_phase_frame_rhs.
Qed.

(** The two loops of step 1a, seen after the component rows are filled. *)
Lemma phase_row_cells :
  sidx < length fs ->
  (forall i chempot_idx, fci !! i = Some chempot_idx ->
     exists m, mget masses chempot_idx 0 = Ok m /\ at_cell sidx i em' = Ok m)
  /\ (forall i statevar_idx, fsi !! i = Some statevar_idx ->
        exists g, grad !! statevar_idx = Some g
          /\ at_cell sidx (length fci + length fs + i) em' = Ok (- g)%float).
Proof using Hfill.
  intros Hs. revert Hfill. unfold fill_equilibrium_system_for_phase. intros H. inv_ok.
  assert (Hrow : forall co, at_cell sidx co em' = at_cell sidx co a3).
  { intros co.
    apply (for_range_keeps (fun s => at_cell sidx co s.1)) in E5;
      [| intros ? [? ?] [? ?] ? Hb;
         apply fill_component_row_frame in Hb as [Hb _]; apply Hb; lia].
    apply (for_range_keeps (fun s => at_cell sidx co s.1)) in E4;
      [| intros ? [? ?] [? ?] ? Hb; inv_ok;
         apply fill_component_row_frame in Hb as [Hb _]; apply Hb; lia].
    simpl in *. congruence. }
  split.
  - intros i cp Hi.
    change (at_cell sidx i em') with (at_cell sidx (0 + i) em'). rewrite Hrow.
    assert (Hkeep : at_cell sidx (0 + i) a3 = at_cell sidx (0 + i) a2).
    { apply lookup_lt_Some in Hi. untouched. }
    rewrite Hkeep. clear Hkeep E3 E4 E5 Hrow. revert i cp Hi.
    enough (Hinv : forall i cp, i < length fci -> fci !! i = Some cp ->
              exists m, mget masses cp 0 = Ok m /\ at_cell sidx (0 + i) a2 = Ok m).
    { intros i cp Hi. apply Hinv; [eapply lookup_lt_Some; eauto | done]. }
    revert E2.
    apply (for_range_ind (fun i0 em1 => forall i cp, i < i0 -> fci !! i = Some cp ->
             exists m, mget masses cp 0 = Ok m /\ at_cell sidx (0 + i) em1 = Ok m)).
    + intros; lia.
    + intros i0 m1 m2 Hi0 IH Hb i cp Hi Hcp. inv_ok. unfold iget in *. inv_ok.
      destruct (decide (i = i0)) as [->|Hne].
      * simplify_eq. eexists. split; [eassumption|]. eapply mget_mset_eq; eauto.
      * destruct (IH i cp) as (m & Hm & Hc); [lia | done |].
        exists m. split; [done|]. rewrite <- Hc.
        eapply at_cell_mset; [eassumption|]. intros [= ?]. lia.
  - intros i sv Hi.
    change (at_cell sidx (length fci + length fs + i) em')
      with (at_cell sidx (0 + length fci + length fs + i) em'). rewrite Hrow.
    clear E4 E5 Hrow. revert i sv Hi.
    enough (Hinv : forall i sv, i < length fsi -> fsi !! i = Some sv ->
              exists g, grad !! sv = Some g
                /\ at_cell sidx (0 + length fci + length fs + i) a3 = Ok (- g)%float).
    { intros i sv Hi. apply Hinv; [eapply lookup_lt_Some; eauto | done]. }
    revert E3.
    apply (for_range_ind (fun i0 em1 => forall i sv, i < i0 -> fsi !! i = Some sv ->
             exists g, grad !! sv = Some g
               /\ at_cell sidx (0 + length fci + length fs + i) em1 = Ok (- g)%float)).
    + intros; lia.
    + intros i0 m1 m2 Hi0 IH Hb i sv Hi Hsv. inv_ok. unfold iget, vget in *. inv_ok.
      destruct (decide (i = i0)) as [->|Hne].
      * simplify_eq. eexists. split; [eassumption|]. eapply mget_mset_eq; eauto.
      * destruct (IH i sv) as (g & Hg & Hc); [lia | done |].
        exists g. split; [done|]. rewrite <- Hc.
        eapply at_cell_mset; [eassumption|]. intros [= ?]. lia.
Qed.

(** X6.  In row [stable_idx] of the matrix, the column of the i-th free
    chemical potential holds [masses[chempot_idx, 0]] and the column of the
    i-th free state variable holds [-grad[statevar_idx]]. *)
Theorem phase_row_coefficients :
  sidx < length fs ->
  (forall i chempot_idx, fci !! i = Some chempot_idx ->
     exists m, mget masses chempot_idx 0 = Ok m /\ mget em' sidx i = Ok m)
  /\ (forall i statevar_idx, fsi !! i = Some statevar_idx ->
        exists g, grad !! statevar_idx = Some g
          /\ mget em' sidx (length fci + length fs + i) = Ok (- g)%float).
Proof using Hfill.
  intros Hs. destruct (phase_row_cells Hs) as [Hmass Hgrad]. split.
  - intros i cp Hi. destruct (Hmass i cp Hi) as (m & Hm & Hcell). now exists m.
  - intros i sv Hi. destruct (Hgrad i sv Hi) as (g & Hg & Hcell). now exists g.
Qed.

(** X7.  For [idx] below [num_stable_phases], entry [idx] of the right-hand
    side ends as the energy minus, in order,
    [masses[chempot_idx, 0] * chemical_potentials[chempot_idx]] for each fixed
    chemical potential. *)
Theorem phase_energy_entry :
  idx < length fs ->
  exists terms,
    Forall2 (fun chempot_idx t =>
               exists m v, mget masses chempot_idx 0 = Ok m /\ mu !! chempot_idx = Some v
                           /\ t = (m * v)%float) fxi terms
    /\ rhs' !! idx = Some (fold_left sub terms energy).
Proof using Hfill.
  intros Hidx. revert Hfill. unfold fill_equilibrium_system_for_phase. intros H. inv_ok.
  match goal with Hv : vset _ idx energy = Ok ?r |- _ =>
    assert (Hstart : r !! idx = Some energy)
      by (apply vset_Ok in Hv as [? ->]; now apply list_lookup_insert_eq)
  end.
  match goal with
  | Hl : for_range (length fxi) _ ?r = Ok rhs' |- _ =>
      enough (Hinv : exists terms,
                Forall2 (fun chempot_idx t =>
                   exists m v, mget masses chempot_idx 0 = Ok m
                     /\ mu !! chempot_idx = Some v /\ t = (m * v)%float)
                  (take (length fxi) fxi) terms
                /\ rhs' !! idx = Some (fold_left sub terms energy));
      [ now rewrite firstn_all in Hinv | revert Hl ]
  end.
  apply (for_range_ind (fun i0 r => exists terms,
           Forall2 (fun chempot_idx t =>
              exists m v, mget masses chempot_idx 0 = Ok m
                /\ mu !! chempot_idx = Some v /\ t = (m * v)%float)
             (take i0 fxi) terms
           /\ r !! idx = Some (fold_left sub terms energy))).
  - exists []. split; [constructor | done].
  - intros i0 r1 r2 Hi0 (terms & Hterms & Hr1) Hb. inv_ok. unfold iget in *. inv_ok.
    match goal with
    | Hcp : fxi !! i0 = Some ?cp, Hm : mget masses ?cp 0 = Ok ?m,
      Hmu : vget mu ?cp = Ok ?v, Hsub : vsub r1 idx _ = Ok ?r,
      Hrest : for_range _ _ ?r = Ok r2 |- _ =>
        exists (terms ++ [(m * v)%float]); split;
        [ rewrite (take_S_r _ _ _ Hcp); apply Forall2_app; [done|];
          constructor; [|constructor]; apply vget_Ok in Hmu; eauto
        | assert (Hkeep : at_index idx r2 = at_index idx r) by untouched;
          unfold at_index in Hkeep; rewrite Hkeep;
          unfold vsub, vget in Hsub; inv_ok;
          apply vset_Ok in Hsub as [? ->];
          rewrite list_lookup_insert_eq by done;
          rewrite fold_left_app; simpl; congruence ]
    end.
Qed.

End PhaseRows.

Lemma phase_rows_example :
  fill_equilibrium_system_for_phase (np_zeros2 3 3) (np_zeros 3) 5
    [0; 1]%float (np_zeros2 2 2) (Matrix 2 1 [1; 2]%float)
    (Matrix 2 2 [0; 1; 0; 1]%float) (Matrix 1 1 [1%float]) [3; 4]%float
    [1]%float [0] [0] [0] [1] [0] [0.25]%float 0 0 1
  = Ok (Matrix 3 3 [1; 0; -0; 1; 1; 0; 2; 3; 0]%float, [-3; -3; 2]%float).
Proof. vm_compute. reflexivity. Qed.

Lemma fill_equilibrium_system_for_phase_frame_witness :
  mget (Matrix 3 3 [1; 0; -0; 1; 1; 0; 2; 3; 0]%float) 0 1 = mget (np_zeros2 3 3) 0 1.
Proof.
  destruct (fill_equilibrium_system_for_phase_frame _ _ _ _ _ _ _ _ _ _ _ _ _ _ _ _ _ _ _
              _ _ phase_rows_example) as (_ & Hcol & _).
  apply Hcol; simpl; lia.
Defined.

Lemma phase_row_coefficients_witness :
  exists m, mget (Matrix 2 1 [1; 2]%float) 0 0 = Ok m
    /\ mget (Matrix 3 3 [1; 0; -0; 1; 1; 0; 2; 3; 0]%float) 0 0 = Ok m.
Proof.
  destruct (phase_row_coefficients _ _ _ _ _ _ _ _ _ _ _ _ _ _ _ _ _ _ _ _ _
              phase_rows_example) as [Hmu _]; [simpl; lia|].
  apply (Hmu 0 0). reflexivity.
Defined.

Lemma phase_energy_entry_witness :
  exists terms,
    Forall2 (fun chempot_idx t =>
               exists m v, mget (Matrix 2 1 [1; 2]%float) chempot_idx 0 = Ok m
                 /\ [3; 4]%float !! chempot_idx = Some v /\ t = (m * v)%float) [1] terms
    /\ [-3; -3; 2]%float !! 0 = Some (fold_left sub terms 5%float).
Proof.
  apply (phase_energy_entry _ _ _ _ _ _ _ _ _ _ _ _ _ _ _ _ _ _ _ _ _ phase_rows_example).
  simpl. lia.
Defined.

(** ** EquilibriumSystemBuilder: the mass residual *)

Lemma add_terms_S init n t :
  add_terms init (S n) t = (add_terms init n t + t n)%float.
Proof. unfold add_terms. now rewrite seq_S, fold_left_app. Qed.

(** X8.  The mass residual that [fill_equilibrium_system] returns depends on
    the amounts only: it is the sum, in the order of the prescribed elements,
    of [|current - prescribed| / |prescribed|], plus
    [|sum(phase_amt) - prescribed_system_amount|].  The prescribed amounts
    are taken to be other than zero, the case in which the compiled division
    is the division of doubles. *)
Theorem mass_residual_closed_form np em rhs compsets mu cea pa fci fsi fs fxi pei pea n
    psa dof em' rhs' mass_residual :
  (forall k target, pea !! k = Some target -> is_zero target = false) ->
  fill_equilibrium_system np em rhs compsets mu cea pa fci fsi fs fxi pei pea n psa dof
  = Ok (em', rhs', mass_residual) ->
  mass_residual = mass_residual_of np cea pa pei pea psa.
Proof.
  unfold fill_equilibrium_system. intros _ H. inv_ok. unfold mass_residual_of. f_equal.
  match goal with
  | Hl : for_range (length pea) _ (?r, 0%float) = Ok (_, ?m) |- ?m = ?rhs =>
      change (snd (m, m) = rhs); revert Hl
  end.
  match goal with
  | |- for_range _ _ _ = Ok (?r, ?m) -> _ =>
      change (snd (m, m)) with (snd (r, m))
  end.
  apply (for_range_ind (fun i0 acc => snd acc = add_terms 0 i0 _)); [done|].
  intros i [r1 m1] [r2 m2] Hi IH Hb. simpl in *. inv_ok. unfold iget, vget in *. inv_ok.
  match goal with
  | Hd : F.c_div _ _ = Ok _ |- _ => unfold F.c_div in Hd; destruct (is_zero _); inv_ok
  end.
  rewrite add_terms_S. cbv zeta.
  repeat match goal with
  | Hk : ?l !! ?k = Some ?v |- _ => apply list_lookup_total_correct in Hk; subst v
  end.
  reflexivity.
Qed.

Lemma mass_residual_closed_form_witness :
  1.5%float = mass_residual_of Demo.numpy [0.5%float] [0.5%float] [0] [0.25%float] 1.
Proof.
  apply (mass_residual_closed_form Demo.numpy (np_zeros2 3 3) (np_zeros 3)
           [Demo.unit_compset] [1%float] [0.5%float] [0.5%float] [0] [0] [0] [] [0]
           [0.25%float] 1 1 [[1000; 1]%float]
           (Matrix 3 3 [1; 0; -0; 0; 1; 0; 0; 1; 0]%float) [0; -0.25; 0.5]%float).
  - intros [|k] target Hk; simpl in Hk; [|discriminate].
    injection Hk as <-. reflexivity.
  - vm_compute. reflexivity.
Defined.

(** ** SolutionExtractor: what is left alone *)

Lemma extract_chemical_potentials_frame fci soln off mu l mu' l' :
  extract_chemical_potentials fci soln off (mu, l) = Ok (mu', l') ->
  length mu' = length mu /\ length l' = length l
  /\ forall k, k ∉ fci -> mu' !! k = mu !! k.
Proof.
  unfold extract_chemical_potentials.
  change mu' with (fst (mu', l')) at 2 3. change l' with (snd (mu', l')) at 2.
  apply (for_range_ind (fun _ acc => length acc.1 = length mu /\ length acc.2 = length l
           /\ forall k, k ∉ fci -> acc.1 !! k = mu !! k)); [done|].
  intros i [mu1 l1] [mu2 l2] Hi (Hlen & Hlen' & IH) Hb. simpl in *. inv_ok.
  unfold iget in *. inv_ok.
  repeat match goal with Hv : vset _ _ _ = Ok _ |- _ => apply vset_Ok in Hv as [? ->] end.
  rewrite !length_insert. split; [done|]. split; [done|].
  intros k Hk. rewrite list_lookup_insert_ne; [auto|].
  intros ->. apply Hk. eapply list_elem_of_lookup_2; eauto.
Qed.

Lemma extract_phase_amounts_frame fs soln off pa l pa' l' :
  extract_phase_amounts fs soln off (pa, l) = Ok (pa', l') ->
  length pa' = length pa /\ length l' = length l
  /\ forall k, k ∉ fs -> pa' !! k = pa !! k.
Proof.
  unfold extract_phase_amounts.
  change pa' with (fst (pa', l')) at 2 3. change l' with (snd (pa', l')) at 2.
  apply (for_range_ind (fun _ acc => length acc.1 = length pa /\ length acc.2 = length l
           /\ forall k, k ∉ fs -> acc.1 !! k = pa !! k)); [done|].
  intros i [pa1 l1] [pa2 l2] Hi (Hlen & Hlen' & IH) Hb. simpl in *. inv_ok.
  unfold iget in *. inv_ok.
  repeat match goal with Hv : vset _ _ _ = Ok _ |- _ => apply vset_Ok in Hv as [? ->] end.
  rewrite !length_insert. split; [done|]. split; [done|].
  intros k Hk. rewrite list_lookup_insert_ne; [auto|].
  intros ->. apply Hk. eapply list_elem_of_lookup_2; eauto.
Qed.

Lemma add_to_prefix_Ok n d a a' :
  add_to_prefix n d a = Ok a' ->
  length (take n a) = length d /\ a' = zip_with add (take n a) d ++ drop n a.
Proof.
  unfold add_to_prefix. intros H. inv_ok.
  match goal with Hz : zip_same _ _ _ = Ok _ |- _ =>
    apply zip_same_Ok in Hz as [Hlen ->] end.
  done.
Qed.

Lemma extract_equilibrium_solution_frame mu pa delta fci fsi fs soln lsc lpac dof e :
  extract_equilibrium_solution mu pa delta fci fsi fs soln lsc lpac dof = Ok e ->
  length (ex_chemical_potentials e) = length mu
  /\ length (ex_phase_amt e) = length pa
  /\ (forall k, k ∉ fci -> ex_chemical_potentials e !! k = mu !! k)
  /\ (forall k, k ∉ fs -> ex_phase_amt e !! k = pa !! k).
Proof.
  unfold extract_equilibrium_solution. intros H. inv_ok. simpl.
  match goal with Hc : extract_chemical_potentials _ _ _ _ = Ok _ |- _ =>
    apply extract_chemical_potentials_frame in Hc as (? & _ & ?) end.
  match goal with Hc : extract_phase_amounts _ _ _ _ = Ok _ |- _ =>
    apply extract_phase_amounts_frame in Hc as (? & _ & ?) end.
  auto.
Qed.

Lemma extract_dof_update mu pa delta fci fsi fs soln lsc lpac dof e :
  extract_equilibrium_solution mu pa delta fci fsi fs soln lsc lpac dof = Ok e ->
  length (ex_delta_statevars e) = length delta
  /\ length (ex_dof e) = length dof
  /\ forall idx x, dof !! idx = Some x ->
       exists x', ex_dof e !! idx = Some x' /\ length x' = length x
         /\ take (length delta) x'
            = zip_with add (take (length delta) x) (ex_delta_statevars e)
         /\ drop (length delta) x' = drop (length delta) x.
Proof.
  intros H. pose proof H as (_ & Hlen & Hall & _)%extract_equilibrium_solution_spec.
  split; [done|]. split; [symmetry; eapply Forall2_length; eauto|].
  intros idx x Hx.
  destruct (Forall2_lookup_l _ _ _ _ _ Hall Hx) as (x' & Hx' & Hadd).
  apply add_to_prefix_Ok in Hadd as [Hl ->]. eexists. split; [done|].
  assert (Hz : length (zip_with add (take (length delta) x) (ex_delta_statevars e))
               = length delta) by (rewrite length_zip_with; lia).
  rewrite length_take in Hl.
  split; [|split].
  - rewrite length_app, Hz, length_drop. lia.
  - rewrite take_app_length'; done.
  - rewrite drop_app_length'; done.
Qed.

(** X9.  [extract_equilibrium_solution] resets [delta_statevars] and then
    sets the entries of the free state variables from the solution vector: an
    entry that is not free is 0, and with distinct free indices the i-th free
    one is [equilibrium_soln[offset + i]].  Every [dof] vector keeps its
    length and its site fractions, and gets the increments added to its state
    variables. *)
Theorem extract_state_variables mu pa delta fci fsi fs soln lsc lpac dof e :
  extract_equilibrium_solution mu pa delta fci fsi fs soln lsc lpac dof = Ok e ->
  let n := length delta in
  let d := ex_delta_statevars e in
  length d = n
  /\ (forall sv, sv < n -> sv ∉ fsi -> d !! sv = Some 0%float)
  /\ (NoDup fsi -> forall i sv, fsi !! i = Some sv ->
        d !! sv = soln !! (length fci + length fs + i))
  /\ (forall idx x, dof !! idx = Some x ->
        exists x', ex_dof e !! idx = Some x' /\ length x' = length x
          /\ take n x' = zip_with add (take n x) d /\ drop n x' = drop n x).
Proof.
  intros H. cbv zeta. pose proof (extract_dof_update _ _ _ _ _ _ _ _ _ _ _ H) as (_ & _ & Hdof).
  revert H. unfold extract_equilibrium_solution. intros H. inv_ok.
  cbn [ex_delta_statevars ex_dof] in *.
  match goal with
  | Hl : for_range (length fsi) _ (np_zeros (length delta)) = Ok ?d |- _ =>
      assert (Hd : length d = length delta
                /\ (forall sv, sv < length delta -> sv ∉ fsi -> d !! sv = Some 0%float)
                /\ (NoDup fsi -> forall i sv, i < length fsi -> fsi !! i = Some sv ->
                      d !! sv = soln !! (0 + length fci + length fs + i)));
      [ revert Hl | ]
  end.
  { apply (for_range_ind (fun i0 d => length d = length delta
       /\ (forall sv, sv < length delta -> sv ∉ fsi -> d !! sv = Some 0%float)
       /\ (NoDup fsi -> forall i sv, i < i0 -> fsi !! i = Some sv ->
             d !! sv = soln !! (0 + length fci + length fs + i)))).
    - split; [apply length_replicate|]. split; [|intros; lia].
      intros sv Hsv _. now apply lookup_replicate_2.
    - intros i0 d1 d2 Hi0 (Hlen & Hzero & Hset) Hb. inv_ok. unfold iget, vget in *. inv_ok.
      apply vset_Ok in Hb as [Hlt ->]. rewrite length_insert. split; [done|]. split.
      + intros sv Hsv Hn. rewrite list_lookup_insert_ne; [auto|].
        intros ->. apply Hn. eapply list_elem_of_lookup_2; eauto.
      + intros Hnd i sv Hi Hsv. destruct (decide (i = i0)) as [->|Hne].
        * simplify_eq. rewrite list_lookup_insert_eq by done. done.
        * rewrite list_lookup_insert_ne; [apply Hset; [done | lia | done]|].
          intros ->. apply Hne. eapply NoDup_lookup; eauto. }
  destruct Hd as (Hlen & Hzero & Hset). split; [done|]. split; [done|]. split; [|done].
  intros Hnd i sv Hsv. apply (Hset Hnd); [eapply lookup_lt_Some; eauto | done].
Qed.

Lemma extract_state_variables_witness :
  exists e,
    extract_equilibrium_solution [0]%float [1]%float [0]%float [0] [] [0]
      [0; 0]%float [0]%float [0]%float [[1000; 1]%float] = Ok e
    /\ ex_delta_statevars e !! 0 = Some 0%float.
Proof.
  assert (H : exists e,
    extract_equilibrium_solution [0]%float [1]%float [0]%float [0] [] [0]
      [0; 0]%float [0]%float [0]%float [[1000; 1]%float] = Ok e)
    by (eexists; vm_compute; reflexivity).
  destruct H as [e H]. exists e. split; [exact H|].
  destruct (extract_state_variables _ _ _ _ _ _ _ _ _ _ _ H) as (_ & Hzero & _).
  apply Hzero; [simpl; lia|]. apply not_elem_of_nil.
Defined.

(** ** SolverDriver: what an iteration keeps *)

Section IterationFrame.

Variable np : NumPy.
Variable compsets : list CompositionSet.
Variable c : conditions.

(** The two steps of an iteration that completes. *)
Lemma iteration_steps st o :
  iteration np compsets c st = Ok o ->
  exists u soln e fs',
    update_internal_dofs np compsets c st = Ok u
    /\ extract_equilibrium_solution (st_chemical_potentials st) (st_phase_amt st)
         (st_delta_statevars st) (free_chemical_potential_indices c)
         (free_statevar_indices c) (st_free_stable_compset_indices st)
         soln (np_zeros 1) (np_zeros 1) (iu_dof u) = Ok e
    /\ outcome_state o = next_state e fs'.
Proof.
  unfold iteration. intros H. inv_ok.
  destruct (system_is_feasible _ _); inv_ok.
  - match goal with b : bool |- _ => destruct b end; inv_ok; eauto 10.
  - eauto 10.
Qed.

Lemma update_internal_dof_vector pa mu d idx cs u u' :
  update_internal_dof np c pa mu d idx cs u = Ok u' ->
  exists x x', iu_dof u !! idx = Some x /\ iu_dof u' = <[idx := x']> (iu_dof u)
    /\ length x' = length x
    /\ take (num_statevars c) x' = take (num_statevars c) x.
Proof.
  unfold update_internal_dof. intros H. inv_ok. simpl.
  repeat match goal with Hz : zip_same _ _ _ = Ok _ |- _ =>
    apply zip_same_Ok in Hz as [? ?] end.
  subst. eexists _, _. split; [eassumption|]. split; [reflexivity|].
  match goal with Hl : length (drop _ ?x) = _ |- _ =>
    rewrite length_drop in Hl; rename Hl into Hlen end.
  match goal with |- context [zip_with add (drop _ ?x) ?dy] =>
    assert (Hz : length (map clip_site_fraction (zip_with add (drop (num_statevars c) x) dy))
                 = length x - num_statevars c)
      by (rewrite length_map, length_zip_with, length_drop; lia)
  end.
  split.
  - rewrite length_app, Hz, length_take. lia.
  - match goal with |- take ?n (take ?n ?x ++ ?y) = _ =>
      destruct (decide (n <= length x)) as [Hle|Hgt] end.
    + rewrite take_app_length'; [done|]. rewrite length_take. lia.
    + match goal with |- context [take _ ?x ++ ?y] =>
        destruct y; [|simpl in Hz; lia] end.
      now rewrite app_nil_r, take_take, Nat.min_id.
Qed.

Lemma update_internal_dofs_vectors st u :
  update_internal_dofs np compsets c st = Ok u ->
  length (iu_dof u) = length (st_dof st)
  /\ forall idx x', iu_dof u !! idx = Some x' ->
       exists x, st_dof st !! idx = Some x /\ length x' = length x
         /\ take (num_statevars c) x' = take (num_statevars c) x.
Proof.
  unfold update_internal_dofs.
  apply (for_range_ind (fun _ u => length (iu_dof u) = length (st_dof st)
    /\ forall idx x', iu_dof u !! idx = Some x' ->
         exists x, st_dof st !! idx = Some x /\ length x' = length x
           /\ take (num_statevars c) x' = take (num_statevars c) x)).
  - simpl. split; [done|]. eauto.
  - intros i u1 u2 Hi [Hlen IH] Hb. inv_ok.
    apply update_internal_dof_vector in Hb as (x & x' & Hx & -> & Hl & Ht).
    rewrite length_insert. split; [done|]. intros idx y Hy.
    destruct (decide (idx = i)) as [->|Hne].
    + rewrite list_lookup_insert_eq in Hy by (eapply lookup_lt_Some; eauto).
      simplify_eq. destruct (IH i x Hx) as (x0 & ? & ? & ?).
      exists x0. split; [done|]. split; congruence.
    + rewrite list_lookup_insert_ne in Hy by done. auto.
Qed.

(** X10.  An iteration keeps the length of every array, the chemical
    potentials that are not free, and the amounts of the composition sets
    outside the active set it started with. *)
Theorem iteration_frame st o :
  iteration np compsets c st = Ok o ->
  let st' := outcome_state o in
  length (st_chemical_potentials st') = length (st_chemical_potentials st)
  /\ length (st_phase_amt st') = length (st_phase_amt st)
  /\ length (st_delta_statevars st') = length (st_delta_statevars st)
  /\ length (st_dof st') = length (st_dof st)
  /\ (forall k, k ∉ free_chemical_potential_indices c ->
        st_chemical_potentials st' !! k = st_chemical_potentials st !! k)
  /\ (forall k, k ∉ st_free_stable_compset_indices st ->
        st_phase_amt st' !! k = st_phase_amt st !! k)
  /\ (forall idx x x', st_dof st !! idx = Some x -> st_dof st' !! idx = Some x' ->
        length x' = length x).
Proof.
  intros (u & soln & e & fs' & Hu & He & ->)%iteration_steps. cbv zeta. simpl.
  pose proof (extract_equilibrium_solution_frame _ _ _ _ _ _ _ _ _ _ _ He)
    as (Hmu & Hpa & Hkmu & Hkpa).
  pose proof (extract_dof_update _ _ _ _ _ _ _ _ _ _ _ He) as (Hd & Hlendof & Hdof).
  apply update_internal_dofs_vectors in Hu as [Hlen Hvec].
  repeat split; try done; try congruence.
  intros idx x x' Hx Hx'.
  destruct (lookup_lt_is_Some_2 (iu_dof u) idx) as [y Hy].
  { rewrite Hlen. eapply lookup_lt_Some; eauto. }
  destruct (Hvec _ _ Hy) as (x0 & Hx0 & Hl & _).
  destruct (Hdof _ _ Hy) as (y' & Hy' & Hl' & _). simplify_eq. congruence.
Qed.

Lemma iteration_keeps_fixed_potentials st o :
  iteration np compsets c st = Ok o ->
  length (st_chemical_potentials (outcome_state o)) = length (st_chemical_potentials st)
  /\ forall k, k ∉ free_chemical_potential_indices c ->
       st_chemical_potentials (outcome_state o) !! k = st_chemical_potentials st !! k.
Proof.
  intros (u & soln & e & fs' & Hu & He & ->)%iteration_steps. simpl.
  pose proof (extract_equilibrium_solution_frame _ _ _ _ _ _ _ _ _ _ _ He)
    as (Hmu & Hpa & Hkmu & Hkpa). done.
Qed.

(** X11.  When all [dof] vectors hold the same state variables before an
    iteration, they do after it. *)
Theorem iteration_shares_state_variables st o :
  length (st_delta_statevars st) = num_statevars c ->
  shared_statevars (num_statevars c) (st_dof st) ->
  iteration np compsets c st = Ok o ->
  shared_statevars (num_statevars c) (st_dof (outcome_state o)).
Proof.
  intros Hn Hsh (u & soln & e & fs' & Hu & He & ->)%iteration_steps. simpl.
  apply update_internal_dofs_vectors in Hu as [Hlen Hvec].
  pose proof (extract_dof_update _ _ _ _ _ _ _ _ _ _ _ He) as (Hd & Hlendof & Hdof).
  rewrite Hn in Hdof.
  intros i j x y Hx Hy.
  destruct (lookup_lt_is_Some_2 (iu_dof u) i) as [xi Hxi];
    [rewrite <- Hlendof; eapply lookup_lt_Some; eauto|].
  destruct (lookup_lt_is_Some_2 (iu_dof u) j) as [xj Hxj];
    [rewrite <- Hlendof; eapply lookup_lt_Some; eauto|].
  destruct (Hdof _ _ Hxi) as (x' & Hx' & _ & Htx & _).
  destruct (Hdof _ _ Hxj) as (y' & Hy' & _ & Hty & _). simplify_eq.
  destruct (Hvec _ _ Hxi) as (x0 & Hx0 & _ & Hx0t).
  destruct (Hvec _ _ Hxj) as (y0 & Hy0 & _ & Hy0t).
  rewrite Htx, Hty, Hx0t, Hy0t. f_equal. eapply Hsh; eauto.
Qed.

End IterationFrame.

Lemma iteration_frame_witness :
  exists o,
    iteration Demo.numpy [Demo.unit_compset; Demo.unit_compset] Demo.one_free_potential
      Demo.two_phases = Ok o
    /\ st_phase_amt (outcome_state o) !! 1 = st_phase_amt Demo.two_phases !! 1.
Proof.
  assert (H : exists o,
    iteration Demo.numpy [Demo.unit_compset; Demo.unit_compset] Demo.one_free_potential
      Demo.two_phases = Ok o) by (eexists; vm_compute; reflexivity).
  destruct H as [o H]. exists o. split; [exact H|].
  destruct (iteration_frame _ _ _ _ _ H) as (_ & _ & _ & _ & _ & Hpa & _).
  apply Hpa. simpl. intros Hin. apply list_elem_of_singleton in Hin. discriminate.
Defined.

Lemma iteration_shares_state_variables_witness :
  exists o,
    iteration Demo.numpy [Demo.unit_compset; Demo.unit_compset] Demo.one_free_potential
      Demo.two_phases = Ok o
    /\ shared_statevars 1 (st_dof (outcome_state o)).
Proof.
  assert (H : exists o,
    iteration Demo.numpy [Demo.unit_compset; Demo.unit_compset] Demo.one_free_potential
      Demo.two_phases = Ok o) by (eexists; vm_compute; reflexivity).
  destruct H as [o H]. exists o. split; [exact H|].
  apply (iteration_shares_state_variables Demo.numpy [Demo.unit_compset; Demo.unit_compset]
           Demo.one_free_potential Demo.two_phases o); [reflexivity | | exact H].
  intros [|[|i]] [|[|j]] x y Hx Hy; simpl in *; simplify_eq; reflexivity.
Defined.

(** ** SolverDriver: what is returned *)

Lemma fold_left_drop_concat n (rest : list vec) (x : vec) :
  fold_left (fun x cs_dof => x ++ drop n cs_dof) rest x
  = x ++ concat (map (drop n) rest).
Proof.
  revert x. induction rest as [|y rest IH]; intros x; simpl.
  - now rewrite app_nil_r.
  - now rewrite IH, app_assoc.
Qed.

(** X12.  The returned vector is [dof[0]] whole, then the site fractions of
    the other composition sets in order, then [phase_amt]: its first
    [len(dof[0])] entries are [dof[0]] and its last [len(phase_amt)] entries
    are [phase_amt].  With no [dof] vector at all, [dof[0]] raises
    IndexError. *)
Theorem pack_solution_layout n (dof0 : vec) (rest : list vec) (phase_amt : vec) :
  pack_solution n [] phase_amt = Raise IndexError
  /\ exists x,
       pack_solution n (dof0 :: rest) phase_amt = Ok x
       /\ x = dof0 ++ concat (map (drop n) rest) ++ phase_amt
       /\ take (length dof0) x = dof0
       /\ drop (length x - length phase_amt) x = phase_amt.
Proof.
  split; [done|]. unfold pack_solution. simpl. rewrite drop_0, fold_left_drop_concat.
  eexists. split; [reflexivity|]. rewrite <- app_assoc. split; [done|]. split.
  - now rewrite take_app_length.
  - rewrite !app_assoc. generalize (dof0 ++ concat (map (drop n) rest)). intros A.
    rewrite length_app. replace (length A + length phase_amt - length phase_amt)
      with (length A) by lia.
    now rewrite drop_app_length.
Qed.

Section Returned.

Variable np : NumPy.
Variable compsets : list nat.
Variable c : conditions.

Lemma initialise_chemical_potentials σ σ0 fr :
  initialise compsets c σ = Ok (σ0, fr) ->
  a_delta_statevars fr <> a_chemical_potentials fr
  /\ read σ0 (a_chemical_potentials fr) = Ok (initial_chemical_potentials c).
Proof.
  unfold initialise, alloc. intros H. inv_ok.
  cbn [fst snd buffers objects a_chemical_potentials a_delta_statevars].
  rewrite length_app. cbn [length]. split; [lia|].
  unfold read. cbn [buffers].
  rewrite lookup_app_l by (rewrite length_app; simpl; lia).
  now rewrite list_lookup_middle.
Qed.

Lemma load_chemical_potentials σ fr fs st :
  load σ fr fs = Ok st -> read σ (a_chemical_potentials fr) = Ok (st_chemical_potentials st).
Proof. unfold load. intros H. inv_ok. done. Qed.

Lemma write_read σ a v σ' b :
  write σ a v = Ok σ' -> read σ' b = if decide (b = a) then Ok v else read σ b.
Proof.
  intros [Ha ->]%write_Ok. unfold read. simpl. destruct (decide (b = a)) as [->|Hne].
  - now rewrite list_lookup_insert_eq.
  - now rewrite list_lookup_insert_ne.
Qed.

Lemma store_back_chemical_potentials σ fr st σ' :
  store_back σ fr st = Ok σ' -> a_delta_statevars fr <> a_chemical_potentials fr ->
  read σ' (a_chemical_potentials fr) = Ok (st_chemical_potentials st).
Proof.
  unfold store_back. intros H Hne. inv_ok.
  rewrite (write_read _ _ _ _ _ H), decide_False by done.
  match goal with Hw : write _ (a_chemical_potentials fr) _ = Ok _ |- _ =>
    rewrite (write_read _ _ _ _ _ Hw) end.
  now rewrite decide_True.
Qed.

Lemma iterations_keep_fixed_potentials n fr mu0 :
  a_delta_statevars fr <> a_chemical_potentials fr ->
  forall σ fs σ' converged fs',
    snd (iterations np compsets c n σ fr fs) = Ok (σ', converged, fs') ->
    (exists mu, read σ (a_chemical_potentials fr) = Ok mu /\ fixed_potentials_kept c mu0 mu) ->
    exists mu, read σ' (a_chemical_potentials fr) = Ok mu /\ fixed_potentials_kept c mu0 mu.
Proof.
  intros Hne. induction n as [|n IH]; intros σ fs σ' conv fs' H Hmu; simpl in H.
  - now inv_ok.
  - destruct (iteration_in_place np compsets c σ fr fs) as [[σ1 o]|] eqn:E;
      [|discriminate].
    assert (Hmu1 : exists mu, read σ1 (a_chemical_potentials fr) = Ok mu
                     /\ fixed_potentials_kept c mu0 mu).
    { unfold iteration_in_place in E. inv_ok.
      match goal with Hl : load _ _ _ = Ok _ |- _ =>
        apply load_chemical_potentials in Hl end.
      match goal with Hs : store_back _ _ _ = Ok _ |- _ =>
        apply store_back_chemical_potentials in Hs; [|done] end.
      match goal with Hi : iteration _ _ _ _ = Ok _ |- _ =>
        apply iteration_keeps_fixed_potentials in Hi as [Hl Hk] end.
      destruct Hmu as (mu & Hr & Hl0 & Hk0).
      match goal with
      | Hld : read σ _ = Ok (st_chemical_potentials _) |- _ =>
          rewrite Hr in Hld; injection Hld as Hld; rewrite <- Hld in *
      end.
      eexists. split; [eassumption|].
      split; [congruence|]. intros k Hkf. rewrite Hk by done. auto. }
    destruct o as [st|st]; simpl in H.
    + eapply IH; eauto.
    + now inv_ok.
Qed.

(** X13.  The chemical potentials [find_solution] returns have the length of
    [initial_chemical_potentials] and agree with them at every index that is
    not in [free_chemical_potential_indices]. *)
Theorem fixed_potentials_returned σ fs σ' converged x mu :
  find_solution np compsets c σ fs = Ok (σ', (converged, x, mu)) ->
  length mu = length (initial_chemical_potentials c)
  /\ forall k, k ∉ free_chemical_potential_indices c ->
       mu !! k = initial_chemical_potentials c !! k.
Proof.
  unfold find_solution, solve.
  destruct (initialise compsets c σ) as [[σ0 fr]|] eqn:Hi; [|discriminate].
  apply initialise_chemical_potentials in Hi as [Hne Hr0].
  pose proof (iterations_keep_fixed_potentials 100 fr (initial_chemical_potentials c)
                Hne σ0 fs) as Hit.
  destruct (iterations np compsets c 100 σ0 fr fs) as [m [[[σ1 conv] fs1]|e]];
    cbn [fst snd mbind res_bind] in *; [|discriminate].
  intros H. inv_ok.
  destruct (Hit _ _ _ eq_refl) as (mu & Hr & Hk).
  { eexists. split; [eassumption|]. split; done. }
  match goal with Hl : load _ _ _ = Ok _ |- _ =>
    apply load_chemical_potentials in Hl; rewrite Hl in Hr end.
  now simplify_eq.
Qed.

Lemma iteration_in_place_no_dof σ fr fs :
  a_dof fr = [] -> exists e, iteration_in_place np [] c σ fr fs = Raise e.
Proof.
  intros Hd. unfold iteration_in_place, get_compsets. simpl.
  destruct (load σ fr fs) as [st|e] eqn:Hl; simpl; [|eauto].
  assert (Hst : st_dof st = []).
  { unfold load in Hl. rewrite Hd in Hl. simpl in Hl. inv_ok. done. }
  destruct (iteration np [] c st) as [o|e] eqn:Hi; simpl; [|eauto].
  apply iteration_dof_nonempty in Hi. contradiction.
Qed.

End Returned.

Lemma iterations_raise np compsets c n σ fr fs e :
  iteration_in_place np compsets c σ fr fs = Raise e ->
  iterations np compsets c (S n) σ fr fs = (1, Raise e).
Proof. intros H. simpl. now rewrite H. Qed.

Lemma initialise_no_compsets c σ :
  exists σ0 fr, initialise [] c σ = Ok (σ0, fr) /\ a_dof fr = [].
Proof. unfold initialise, get_compsets, alloc. simpl. eauto. Qed.

(** X14.  With an empty list of composition sets [find_solution] raises in
    its first iteration: when nothing fails before, [dof[0]] does not exist
    where the solution is extracted. *)
Theorem no_composition_sets np c σ fs :
  exists e, find_solution np [] c σ fs = Raise e
    /\ iterations_executed np [] c σ fs = 1.
Proof.
  destruct (initialise_no_compsets c σ) as (σ0 & fr & Hi & Hd).
  destruct (iteration_in_place_no_dof np c σ0 fr fs Hd) as [e He].
  exists e. unfold find_solution, iterations_executed, solve. rewrite Hi.
  rewrite (iterations_raise np [] c 99 _ _ _ _ He). done.
Qed.

Lemma fixed_potentials_returned_witness :
  exists σ',
    find_solution Demo.numpy [0] Demo.one_free_potential Demo.unit_store [0]
    = Ok (σ', (true, [1000; 1; 1]%float, [0%float]))
    /\ length [0%float] = length (initial_chemical_potentials Demo.one_free_potential).
Proof.
  assert (H : exists σ',
    find_solution Demo.numpy [0] Demo.one_free_potential Demo.unit_store [0]
    = Ok (σ', (true, [1000; 1; 1]%float, [0%float])))
    by (eexists; vm_compute; reflexivity).
  destruct H as [σ' H]. exists σ'. split; [exact H|].
  apply (fixed_potentials_returned _ _ _ _ _ _ _ _ _ H).
Defined.

(** ** SolverDriver: when the loop is left *)

Lemma check_convergence_true cur df a L P new :
  check_convergence_and_change_phases cur df a L P = Ok (true, new) ->
  (a <? 1e-11)%float = true
  /\ (exists l, mget L 0 0 = Ok l /\ (l <? 1e-10)%float = true)
  /\ (exists p, mget P 0 0 = Ok p /\ (p <? 1e-1)%float = true).
Proof.
  unfold check_convergence_and_change_phases. intros H. inv_ok.
  destruct (decide _); [|discriminate].
  destruct (a <? 1e-11)%float; [|discriminate]. inv_ok.
  match goal with E : mget L 0 0 = Ok ?l |- _ =>
    destruct (l <? 1e-10)%float eqn:Hlt; [|congruence] end.
  inv_ok.
  match goal with E : mget P 0 0 = Ok ?p |- _ =>
    destruct (p <? 1e-1)%float eqn:Hpt; [|congruence] end.
  eauto 10.
Qed.

Lemma mget_single v x : mget (Matrix 1 1 v) 0 0 = Ok x -> v !! 0 = Some x.
Proof.
  unfold mget. simpl. apply of_option_Ok.
Qed.

Section Break.

Variable np : NumPy.
Variable compsets : list CompositionSet.
Variable c : conditions.

(** X15.  An iteration reaches [break] only when the phase rule holds, the
    system is feasible (mass residual below 1e-5, constraint residuals below
    1e-10) and the three changes are below their tolerances. *)
Theorem break_only_when_converged st st' :
  iteration np compsets c st = Ok (Break st') ->
  exists u em rhs mass_residual soln e,
    update_internal_dofs np compsets c st = Ok u
    /\ num_equations c st = num_free_variables c st
    /\ equilibrium_system np compsets c st u = Ok (em, rhs, mass_residual)
    /\ linalg_lstsq np em rhs = Some soln
    /\ extract_equilibrium_solution (st_chemical_potentials st) (st_phase_amt st)
         (st_delta_statevars st) (free_chemical_potential_indices c)
         (free_statevar_indices c) (st_free_stable_compset_indices st)
         soln (np_zeros 1) (np_zeros 1) (iu_dof u) = Ok e
    /\ (mass_residual <? 1e-5)%float = true
    /\ (iu_largest_internal_cons_max_residual u <? 1e-10)%float = true
    /\ (iu_largest_internal_dof_change u <? 1e-11)%float = true
    /\ (exists l, ex_largest_phase_amt_change e !! 0 = Some l
                  /\ (l <? 1e-10)%float = true)
    /\ (exists p, ex_largest_statevar_change e !! 0 = Some p
                  /\ (p <? 1e-1)%float = true).
Proof.
  unfold iteration. intros H. inv_ok.
  assert (Heq : num_equations c st = num_free_variables c st).
  { match goal with Hg : check_gibbs_phase_rule _ _ = Ok _ |- _ =>
      unfold check_gibbs_phase_rule in Hg;
      destruct (decide (num_equations c st = num_free_variables c st)) as [|Hn];
      [done | rewrite decide_True in Hg by done; discriminate Hg]
    end. }
  destruct (system_is_feasible _ _) eqn:Hf; inv_ok; [|congruence].
  match goal with b : bool |- _ => destruct b end; inv_ok; [|congruence].
  apply andb_true_iff in Hf as [Hm Hc].
  match goal with Hp : change_phases _ _ _ _ _ _ = Ok _ |- _ =>
    unfold change_phases in Hp; inv_ok;
    apply check_convergence_true in Hp as (Hd & (? & ?%mget_single & ?)
                                           & (? & ?%mget_single & ?))
  end.
  do 6 eexists. repeat (split; [eassumption|]). eauto 10.
Qed.

End Break.

Lemma break_only_when_converged_witness :
  exists u, update_internal_dofs Demo.numpy [Demo.unit_compset] Demo.one_free_potential
              SecondPass.start = Ok u
    /\ (iu_largest_internal_dof_change u <? 1e-11)%float = true.
Proof.
  destruct (break_only_when_converged Demo.numpy [Demo.unit_compset]
              Demo.one_free_potential SecondPass.start SecondPass.start)
    as (u & em & rhs & mr & soln & e & Hu & _ & _ & _ & _ & _ & _ & Hd & _);
    [vm_compute; reflexivity|].
  exists u. split; [exact Hu | exact Hd].
Defined.

(** ** SolverDriver: the tables of the first step *)

Lemma mrow_tabulate m i f :
  well_formed m -> i < nrows m ->
  (forall j, j < ncols m -> mget m i j = Ok (f j)) ->
  mrow m i = Ok (tabulate (ncols m) f).
Proof.
  unfold well_formed, mrow. intros Hwf Hi Hget. rewrite decide_True by done. f_equal.
  apply vec_ext.
  - rewrite length_take, length_drop, Hwf. nia.
  - intros j Hj. rewrite lookup_take_lt, lookup_drop by done.
    specialize (Hget j Hj). unfold mget in Hget. rewrite decide_True in Hget by done.
    now apply of_option_Ok in Hget.
Qed.

Lemma column0_Ok m d :
  column0 m = Ok d ->
  length d = nrows m /\ forall i v, d !! i = Some v <-> (i < nrows m /\ mget m i 0 = Ok v).
Proof.
  unfold column0. destruct (decide _); [|discriminate]. intros H%mapM_Ok.
  pose proof (Forall2_length _ _ _ H) as Hlen. rewrite length_seq in Hlen.
  split; [lia|]. intros i v. split.
  - intros Hv. destruct (Forall2_lookup_r _ _ _ _ _ H Hv) as (k & Hk & Hg).
    apply lookup_seq in Hk as [-> ?]. done.
  - intros [Hi Hg].
    assert (Hk : seq 0 (nrows m) !! i = Some i) by now apply lookup_seq_lt.
    destruct (Forall2_lookup_l _ _ _ _ _ H Hk) as (w & Hw & Hg'). congruence.
Qed.

Lemma check_convergence_new cur df a L P conv new :
  check_convergence_and_change_phases cur df a L P = Ok (conv, new) ->
  exists d, column0 df = Ok d /\ new = py_sorted (list_to_set cur ∪ compsets_to_add d).
Proof.
  unfold check_convergence_and_change_phases. intros H. inv_ok.
  eexists. split; [eassumption|].
  repeat (match goal with
          | H : ?t = Ok (conv, new) |- _ =>
              match t with context [if ?b then _ else _] => destruct b end
          end; inv_ok); done.
Qed.

Lemma mset_shape_wf m i j v m' :
  mset m i j v = Ok m' -> mshape m' = mshape m /\ (well_formed m -> well_formed m').
Proof.
  intros H. split; [eapply mset_mshape; eauto | eapply mset_well_formed; eauto].
Qed.

Section Tables.

Variable np : NumPy.
Variable compsets : list CompositionSet.
Variable c : conditions.

(** The loop over the components of one phase, as far as [all_phase_amounts]
    goes. *)
Lemma masses_table (pr : PhaseRecord) (x : vec) pa idx n apa cea apa' cea' :
  for_range n (fun comp_idx acc =>
      let masses_tmp := mass_obj pr x comp_idx in
      all_phase_amounts ← mset (fst acc) idx comp_idx masses_tmp;
      p ← vget pa idx;
      current_elemental_amounts ←
        (if F.gtb p 0%float
         then vadd (snd acc) comp_idx (p * masses_tmp)%float
         else Ok (snd acc));
      Ok (all_phase_amounts, current_elemental_amounts)) (apa, cea) = Ok (apa', cea') ->
  (forall comp, comp < n -> at_cell idx comp apa' = Ok (mass_obj pr x comp))
  /\ (forall r co, r <> idx \/ n <= co -> at_cell r co apa' = at_cell r co apa)
  /\ mshape apa' = mshape apa /\ (well_formed apa -> well_formed apa').
Proof.
  pose (I := fun (m : nat) (a : matrix * vec) =>
    (forall comp, comp < m -> at_cell idx comp a.1 = Ok (mass_obj pr x comp))
    /\ (forall r co, r <> idx \/ m <= co -> at_cell r co a.1 = at_cell r co apa)
    /\ mshape a.1 = mshape apa /\ (well_formed apa -> well_formed a.1)).
  intros H. apply (for_range_ind I) in H; subst I; cbv beta in *; [exact H | |].
  - simpl. split; [intros; lia|]. done.
  - intros i [a1 c1] [a2 c2] Hi (Hset & Hkeep & Hsh & Hwf) Hb. simpl in *. inv_ok.
    match goal with Hm : mset a1 idx i _ = Ok _ |- _ =>
      pose proof (mset_shape_wf _ _ _ _ _ Hm) as [Hsh' Hwf'];
      pose proof (mget_mset_eq _ _ _ _ _ Hm) as Heq;
      pose proof (fun r co => at_cell_mset _ _ _ _ _ r co Hm) as Hne
    end.
    split; [|split; [|split]].
    + intros comp Hc. destruct (decide (comp = i)) as [->|]; [exact Heq|].
      rewrite Hne by congruence. apply Hset. lia.
    + intros r co Hr. rewrite Hne by (intros [= -> ->]; lia). apply Hkeep. lia.
    + congruence.
    + auto.
Qed.

Lemma update_internal_dof_tables pa mu d idx cs u u' :
  update_internal_dof np c pa mu d idx cs u = Ok u' ->
  exists x', iu_dof u' = <[idx := x']> (iu_dof u) /\ idx < length (iu_dof u)
    /\ at_cell idx 0 (iu_all_phase_energies u') = Ok (obj (phase_record cs) x')
    /\ (forall r co, (r, co) <> (idx, 0) ->
          at_cell r co (iu_all_phase_energies u') = at_cell r co (iu_all_phase_energies u))
    /\ (forall comp, comp < num_components c ->
          at_cell idx comp (iu_all_phase_amounts u')
          = Ok (mass_obj (phase_record cs) x' comp))
    /\ (forall r co, r <> idx \/ num_components c <= co ->
          at_cell r co (iu_all_phase_amounts u') = at_cell r co (iu_all_phase_amounts u))
    /\ mshape (iu_all_phase_energies u') = mshape (iu_all_phase_energies u)
    /\ mshape (iu_all_phase_amounts u') = mshape (iu_all_phase_amounts u)
    /\ (well_formed (iu_all_phase_energies u) -> well_formed (iu_all_phase_energies u'))
    /\ (well_formed (iu_all_phase_amounts u) -> well_formed (iu_all_phase_amounts u')).
Proof.
  unfold update_internal_dof. intros H. inv_ok. simpl.
  match goal with Hl : for_range (num_components c) _ _ = Ok _ |- _ =>
    apply masses_table in Hl as (Hset & Hkeep & Hsh & Hwf) end.
  match goal with Hm : mset (iu_all_phase_energies u) idx 0 _ = Ok _ |- _ =>
    pose proof (mset_shape_wf _ _ _ _ _ Hm) as [Hsh' Hwf'];
    pose proof (mget_mset_eq _ _ _ _ _ Hm) as Heq;
    pose proof (fun r co => at_cell_mset _ _ _ _ _ r co Hm) as Hne
  end.
  eexists. split; [reflexivity|]. split; [eapply lookup_lt_Some; eauto|].
  repeat split; eauto.
Qed.

Lemma update_internal_dofs_tables st u :
  update_internal_dofs np compsets c st = Ok u ->
  well_formed (iu_all_phase_energies u)
  /\ mshape (iu_all_phase_energies u) = (length compsets, 1)
  /\ well_formed (iu_all_phase_amounts u)
  /\ mshape (iu_all_phase_amounts u)
     = (length compsets, length (st_chemical_potentials st))
  /\ (forall r co, r < length compsets -> num_components c <= co ->
        co < length (st_chemical_potentials st) ->
        at_cell r co (iu_all_phase_amounts u) = Ok 0%float)
  /\ forall idx compset, compsets !! idx = Some compset ->
       exists x', iu_dof u !! idx = Some x'
         /\ at_cell idx 0 (iu_all_phase_energies u) = Ok (obj (phase_record compset) x')
         /\ forall comp, comp < num_components c ->
              at_cell idx comp (iu_all_phase_amounts u)
              = Ok (mass_obj (phase_record compset) x' comp).
Proof.
  unfold update_internal_dofs.
  set (N := length compsets). set (M := length (st_chemical_potentials st)).
  pose (I := fun (i0 : nat) (u : internal_update) =>
    well_formed (iu_all_phase_energies u)
    /\ mshape (iu_all_phase_energies u) = (N, 1)
    /\ well_formed (iu_all_phase_amounts u)
    /\ mshape (iu_all_phase_amounts u) = (N, M)
    /\ (forall r co, r < N -> num_components c <= co -> co < M ->
          at_cell r co (iu_all_phase_amounts u) = Ok 0%float)
    /\ forall idx compset, idx < i0 -> compsets !! idx = Some compset ->
         exists x', iu_dof u !! idx = Some x'
           /\ at_cell idx 0 (iu_all_phase_energies u) = Ok (obj (phase_record compset) x')
           /\ forall comp, comp < num_components c ->
                at_cell idx comp (iu_all_phase_amounts u)
                = Ok (mass_obj (phase_record compset) x' comp)).
  intros H. apply (for_range_ind I) in H; subst I; cbv beta in *.
  - destruct H as (? & ? & ? & ? & ? & Hall). repeat (split; [done|]).
    intros idx compset Hcs. apply Hall; [|done]. eapply lookup_lt_Some; eauto.
  - simpl. split; [apply np_zeros2_well_formed|]. split; [done|].
    split; [apply np_zeros2_well_formed|]. split; [done|]. split; [|intros; lia].
    intros r co Hr _ Hco. now apply mget_np_zeros2.
  - intros i u1 u2 Hi (Hwe & Hse & Hwa & Hsa & Hz & IH) Hb. inv_ok.
    match goal with Hc : compsets !! i = Some ?cs |- _ => rename Hc into Hcs end.
    apply update_internal_dof_tables in Hb
      as (x' & Hd & Hlt & He & Hke & Ha & Hka & Hse' & Hsa' & Hwe' & Hwa').
    split; [auto|]. split; [congruence|]. split; [auto|]. split; [congruence|]. split.
    + intros r co Hr Hco HcoM. rewrite Hka by lia. auto.
    + intros idx compset Hidx Hc. destruct (decide (idx = i)) as [->|Hne].
      * simplify_eq. exists x'. rewrite Hd, list_lookup_insert_eq by done. done.
      * destruct (IH idx compset) as (y & Hy & Hye & Hya); [lia | done |].
        exists y. rewrite Hd, list_lookup_insert_ne by done. split; [done|].
        rewrite Hke by (intros [= ? ]; lia). split; [done|].
        intros comp Hcomp. rewrite Hka by lia. auto.
Qed.

(** X16.  After the first step, row [idx] of [all_phase_energies] and of
    [all_phase_amounts] holds the energy and the masses of composition set
    [idx] at its updated point [dof[idx]]. *)
Theorem first_step_tables st u idx compset :
  update_internal_dofs np compsets c st = Ok u ->
  compsets !! idx = Some compset ->
  exists x',
    iu_dof u !! idx = Some x'
    /\ mget (iu_all_phase_energies u) idx 0 = Ok (obj (phase_record compset) x')
    /\ forall comp, comp < num_components c ->
         mget (iu_all_phase_amounts u) idx comp
         = Ok (mass_obj (phase_record compset) x' comp).
Proof.
  intros (_ & _ & _ & _ & _ & H)%update_internal_dofs_tables Hcs. now apply H.
Qed.

End Tables.

Lemma first_step_tables_witness :
  exists x',
    iu_dof Demo.start_update !! 0 = Some x'
    /\ mget (iu_all_phase_energies Demo.start_update) 0 0 = Ok (obj Demo.unit_phase x')
    /\ forall comp, comp < 1 ->
         mget (iu_all_phase_amounts Demo.start_update) 0 comp
         = Ok (mass_obj Demo.unit_phase x' comp).
Proof.
  apply (first_step_tables Demo.numpy [Demo.unit_compset] Demo.one_free_potential
           Demo.start Demo.start_update 0 Demo.unit_compset);
    [vm_compute; reflexivity | reflexivity].
Defined.

(** ** SolverDriver: the active set after an iteration *)

Section ActiveSet.

Variable np : NumPy.
Variable compsets : list CompositionSet.
Variable c : conditions.

(** The loop that turns the phase energies into driving forces. *)
Lemma driving_forces_loop (A : matrix) (mu : vec) N E0 E1 :
  for_range N (fun idx energies =>
    amounts ← mrow A idx;
    msub energies idx 0 (np_dot np mu amounts)) E0 = Ok E1 ->
  mshape E1 = mshape E0
  /\ forall idx, idx < N ->
       exists en row, at_cell idx 0 E0 = Ok en /\ mrow A idx = Ok row
         /\ at_cell idx 0 E1 = Ok (en - np_dot np mu row)%float.
Proof.
  pose (I := fun (i0 : nat) (E : matrix) =>
    mshape E = mshape E0
    /\ (forall idx co, i0 <= idx -> at_cell idx co E = at_cell idx co E0)
    /\ forall idx, idx < i0 ->
         exists en row, at_cell idx 0 E0 = Ok en /\ mrow A idx = Ok row
           /\ at_cell idx 0 E = Ok (en - np_dot np mu row)%float).
  intros H. apply (for_range_ind I) in H; subst I; cbv beta in *.
  - destruct H as (? & _ & ?). done.
  - split; [done|]. split; [done | intros; lia].
  - intros i m1 m2 Hi (Hsh & Hkeep & IH) Hb. inv_ok. unfold msub in Hb. inv_ok.
    pose proof (mset_mshape _ _ _ _ _ Hb) as Hsh'.
    pose proof (mget_mset_eq _ _ _ _ _ Hb) as Heq.
    pose proof (fun r co => at_cell_mset _ _ _ _ _ r co Hb) as Hne.
    split; [congruence|]. split.
    + intros idx co Hle. rewrite Hne by (intros [= -> ->]; lia). apply Hkeep. lia.
    + intros idx Hidx. destruct (decide (idx = i)) as [->|Hn].
      * eexists _, _. split; [|split; [eassumption|exact Heq]].
        rewrite <- Hkeep by lia. done.
      * destruct (IH idx) as (en & row & ? & ? & ?); [lia|].
        exists en, row. rewrite Hne by (intros [= ?]; lia). done.
Qed.

(** X17.  After an iteration on consistent arrays, the active set is the one
    it started with when the system was not feasible.  When it was, the
    active set is sorted, has no duplicates, and holds exactly the
    composition sets whose new amount exceeds [MIN_SITE_FRACTION] or whose
    driving force exceeds -1e-5; the driving force is taken at the old state
    variables and the new site fractions, with the new chemical
    potentials. *)
Theorem active_set_after_iteration st o :
  num_components c = length (st_chemical_potentials st) ->
  length (st_delta_statevars st) = num_statevars c ->
  iteration np compsets c st = Ok o ->
  let st' := outcome_state o in
  let n := num_statevars c in
  exists u em rhs mass_residual,
    update_internal_dofs np compsets c st = Ok u
    /\ equilibrium_system np compsets c st u = Ok (em, rhs, mass_residual)
    /\ if system_is_feasible mass_residual u then
         StronglySorted (≤) (st_free_stable_compset_indices st')
         /\ NoDup (st_free_stable_compset_indices st')
         /\ forall i, i ∈ st_free_stable_compset_indices st' <->
              (exists a, st_phase_amt st' !! i = Some a
                         /\ F.gtb a MIN_SITE_FRACTION = true)
              \/ (exists compset x x',
                    compsets !! i = Some compset /\ st_dof st !! i = Some x
                    /\ st_dof st' !! i = Some x'
                    /\ F.gtb (driving_force np (phase_record compset)
                                (take n x ++ drop n x') (st_chemical_potentials st'))
                             (-1e-5)%float = true)
       else st_free_stable_compset_indices st' = st_free_stable_compset_indices st.
Proof.
  intros Hnc Hn H. cbv zeta. unfold iteration in H. inv_ok.
  match goal with
  | Hu : update_internal_dofs _ _ _ _ = Ok ?u,
    Hs : equilibrium_system _ _ _ _ _ = Ok (?em, ?rhs, ?mr) |- _ =>
      exists u, em, rhs, mr; split; [exact Hu|]; split; [exact Hs|];
      destruct (system_is_feasible mr u)
  end; inv_ok; [|done].
  match goal with
  | Hc : change_phases _ _ _ ?e _ _ = Ok (?b, ?new) |- _ =>
      assert (Hst : outcome_state o = next_state e new)
        by (destruct b; inv_ok; done);
      rename Hc into Hcp
  end.
  clear H. rewrite Hst. clear Hst.
  cbn [next_state st_free_stable_compset_indices st_phase_amt st_dof
       st_chemical_potentials].
  unfold change_phases in Hcp. inv_ok.
  apply check_convergence_new in Hcp as (d & Hd & ->).
  split; [apply py_sorted_sorted|]. split; [apply py_sorted_sorted|].
  match goal with Hl : for_range (length compsets) _ _ = Ok _ |- _ =>
    apply driving_forces_loop in Hl as [Hsh Hdf] end.
  match goal with Hu : update_internal_dofs _ _ _ _ = Ok _ |- _ =>
    pose proof (update_internal_dofs_tables _ _ _ _ _ Hu)
      as (HwE & HsE & HwA & HsA & _ & Htab);
    pose proof (update_internal_dofs_vectors _ _ _ _ _ Hu) as [_ Hvec]
  end.
  match goal with He : extract_equilibrium_solution _ _ _ _ _ _ _ _ _ _ = Ok ?e0 |- _ =>
    set (e := e0) in *; pose proof (extract_dof_update _ _ _ _ _ _ _ _ _ _ _ He) as (_ & _ & Hdof);
    pose proof (extract_equilibrium_solution_frame _ _ _ _ _ _ _ _ _ _ _ He)
      as (Hlmu & _ & _ & _)
  end.
  rewrite Hn in Hdof.
  apply column0_Ok in Hd as [Hlen Hcol].
  injection HsA as HrA HcA. injection HsE as HrE HcE. injection Hsh as HrE1 HcE1.
  (* the driving force of composition set [i] *)
  assert (Hforce : forall i compset, compsets !! i = Some compset ->
    exists x x', st_dof st !! i = Some x /\ ex_dof e !! i = Some x'
      /\ d !! i = Some (driving_force np (phase_record compset)
                          (take (num_statevars c) x ++ drop (num_statevars c) x')
                          (ex_chemical_potentials e))).
  { intros i compset Hcs. pose proof (lookup_lt_Some _ _ _ Hcs) as Hi.
    destruct (Htab i compset Hcs) as (xu & Hxu & Hen & Hmass).
    destruct (Hvec _ _ Hxu) as (x & Hx & _ & Htake).
    destruct (Hdof _ _ Hxu) as (x' & Hx' & _ & _ & Hdrop).
    exists x, x'. split; [done|]. split; [done|].
    rewrite <- Htake, Hdrop, take_drop.
    apply Hcol. split; [lia|].
    destruct (Hdf i Hi) as (en & row & Hen' & Hrow & Hres).
    unfold at_cell in *. rewrite Hres. f_equal. unfold driving_force.
    rewrite Hen in Hen'. injection Hen' as <-.
    rewrite (mrow_tabulate _ i (mass_obj (phase_record compset) xu)) in Hrow;
      [| done | lia | intros j Hj; apply Hmass; lia ].
    injection Hrow as <-. rewrite HcA, Hlmu. done. }
  intros i. rewrite elem_of_py_sorted, elem_of_union, !elem_of_list_to_set.
  unfold compsets_to_add. rewrite elem_of_list_to_set, !elem_of_np_nonzero.
  apply or_iff_compat_l. split.
  - intros (v & Hv & Hgt).
    assert (Hi : i < length compsets).
    { apply Hcol in Hv as [? _]. lia. }
    destruct (lookup_lt_is_Some_2 _ _ Hi) as [compset Hcs].
    destruct (Hforce i compset Hcs) as (x & x' & Hx & Hx' & Hdi).
    exists compset, x, x'. repeat (split; [done|]). congruence.
  - intros (compset & x & x' & Hcs & Hx & Hx' & Hgt).
    destruct (Hforce i compset Hcs) as (y & y' & Hy & Hy' & Hdi).
    simplify_eq. eauto.
Qed.

End ActiveSet.

Lemma active_set_after_iteration_witness :
  exists u em rhs mass_residual,
    update_internal_dofs Demo.numpy [Demo.unit_compset] Demo.one_free_potential
      SecondPass.start = Ok u
    /\ equilibrium_system Demo.numpy [Demo.unit_compset] Demo.one_free_potential
         SecondPass.start u = Ok (em, rhs, mass_residual)
    /\ system_is_feasible mass_residual u = true.
Proof.
  destruct (active_set_after_iteration Demo.numpy [Demo.unit_compset] Demo.one_free_potential
              SecondPass.start (Break SecondPass.start))
    as (u & em & rhs & mr & Hu & Hsys & _);
    [reflexivity | reflexivity | vm_compute; reflexivity |].
  exists u, em, rhs, mr. split; [exact Hu|]. split; [exact Hsys|].
  revert Hu Hsys. vm_compute. intros [= <-] [= _ _ <-]. reflexivity.
Defined.

(** ** EquilibriumSystemBuilder: the rows of the stable phases *)

Lemma mget_tabulate2_Ok r c f i j v : mget (tabulate2 r c f) i j = Ok v -> v = f i j.
Proof.
  intros H. assert (Hb : i < r /\ j < c).
  { unfold mget in H. simpl in H. destruct (decide _); [done | discriminate]. }
  rewrite mget_tabulate2 in H by lia. congruence.
Qed.

Lemma tabulate_lookup_Some n f i v : tabulate n f !! i = Some v -> v = f i.
Proof.
  intros H. pose proof (lookup_lt_Some _ _ _ H) as Hi. rewrite tabulate_length in Hi.
  rewrite tabulate_lookup in H by done. congruence.
Qed.

Section SystemRows.

Variable np : NumPy.
Variable compsets : list CompositionSet.
Variable c : conditions.

(** X18.  In the system that [fill_equilibrium_system] assembles from the
    zero matrix, the row of the [stable_idx]-th stable composition set holds
    the phase's mass of each free chemical potential's component, zeros in the
    columns of the stable composition sets, and minus the phase's gradient
    for each free state variable: the phases filled later leave it alone. *)
Theorem phase_rows_of_system st u em rhs mass_residual sidx idx compset x :
  equilibrium_system np compsets c st u = Ok (em, rhs, mass_residual) ->
  st_free_stable_compset_indices st !! sidx = Some idx ->
  compsets !! idx = Some compset -> iu_dof u !! idx = Some x ->
  let nfc := length (free_chemical_potential_indices c) in
  let nfs := length (st_free_stable_compset_indices st) in
  (forall i chempot_idx, free_chemical_potential_indices c !! i = Some chempot_idx ->
     mget em sidx i = Ok (mass_obj (phase_record compset) x chempot_idx))
  /\ (forall j, nfc <= j < nfc + nfs -> mget em sidx j = Ok 0%float)
  /\ (forall i statevar_idx, free_statevar_indices c !! i = Some statevar_idx ->
        mget em sidx (nfc + nfs + i)
        = Ok (- grad (phase_record compset) x statevar_idx)%float).
Proof.
  intros H Hs Hcs Hx. cbv zeta.
  set (fci := free_chemical_potential_indices c).
  set (fsi := free_statevar_indices c).
  set (fs := st_free_stable_compset_indices st) in *.
  set (em0 := np_zeros2 (num_equations c st) (num_free_variables c st)).
  pose (rowfacts := fun (s : nat) (pr : PhaseRecord) (y : vec) (M : matrix) =>
    (forall i cp, fci !! i = Some cp -> at_cell s i M = Ok (mass_obj pr y cp))
    /\ (forall j, length fci <= j < length fci + length fs ->
          at_cell s j M = at_cell s j em0)
    /\ (forall i sv, fsi !! i = Some sv ->
          at_cell s (length fci + length fs + i) M = Ok (- grad pr y sv)%float)).
  assert (Hrow : rowfacts sidx (phase_record compset) x em).
  { unfold equilibrium_system, fill_equilibrium_system in H. fold fci fsi fs em0 in H.
    inv_ok.
    pose (I := fun (s0 : nat) (sys : matrix * vec) =>
      (forall s j, s0 <= s < length fs -> at_cell s j sys.1 = at_cell s j em0)
      /\ (forall s i0 cs y, s < s0 -> fs !! s = Some i0 -> compsets !! i0 = Some cs ->
            iu_dof u !! i0 = Some y -> rowfacts s (phase_record cs) y sys.1)).
    match goal with
    | Hl : for_range (length fs) _ (em0, _) = Ok (em, ?r) |- _ =>
        assert (Hinv : I (length fs) (em, r));
        [ revert Hl; apply (for_range_ind I); subst I; cbv beta
        | destruct Hinv as [_ Hinv];
          apply (Hinv sidx idx compset x); [eapply lookup_lt_Some; eauto | done..] ]
    end.
    - split; [done | intros; lia].
    - intros s0 [M r] [M' r'] Hs0 [Hzero IH] Hb. cbn [fst snd] in *. inv_ok.
      unfold iget in *. inv_ok.
      match goal with Hf : fill_equilibrium_system_for_phase _ _ _ _ _ _ _ _ _ _ _ _ _ _ _
                             _ _ _ _ = Ok _ |- _ =>
        pose proof (fun a b Ha Hab => for_phase_frame_matrix _ _ _ _ _ _ _ _ _ _ _ _ _ _ _
                      _ _ _ _ _ _ Hf a b Ha Hab) as Hframe;
        pose proof (phase_row_cells _ _ _ _ _ _ _ _ _ _ _ _ _ _ _ _ _ _ _ _ _ Hf Hs0)
          as [Hmass Hgrad]
      end.
      split.
      + intros s j Hsj. rewrite Hframe by lia. apply Hzero. lia.
      + intros s i0 cs y Hlt Hfs Hc Hy. destruct (decide (s = s0)) as [->|Hne].
        * simplify_eq. split; [|split].
          -- intros i cp Hi. destruct (Hmass i cp Hi) as (m & Hm & Hcell).
             apply mget_tabulate2_Ok in Hm. subst m. exact Hcell.
          -- intros j Hj. rewrite Hframe by (try lia; right; lia). apply Hzero. lia.
          -- intros i sv Hi. destruct (Hgrad i sv Hi) as (g & Hg & Hcell).
             apply tabulate_lookup_Some in Hg. subst g. exact Hcell.
        * destruct (IH s i0 cs y) as (H1 & H2 & H3); [lia | done..|].
          pose proof (lookup_lt_Some _ _ _ Hfs) as Hsl.
          split; [|split].
          -- intros i cp Hi. rewrite Hframe by (try lia; left; lia). eauto.
          -- intros j Hj. rewrite Hframe by (try lia; left; lia). eauto.
          -- intros i sv Hi. rewrite Hframe by (try lia; left; lia). eauto. }
  destruct Hrow as (H1 & H2 & H3). split; [exact H1|]. split; [|exact H3].
  intros j Hj. unfold at_cell in H2. rewrite H2 by done.
  pose proof (lookup_lt_Some _ _ _ Hs) as Hsl.
  apply mget_np_zeros2; unfold num_equations, num_free_variables; fold fs fci; lia.
Qed.

End SystemRows.

Lemma phase_rows_of_system_witness :
  mget (Matrix 2 2 [1; 0; 0; 1]%float) 0 0 = Ok 1%float.
Proof.
  destruct (phase_rows_of_system Demo.numpy [Demo.unit_compset] Demo.one_free_potential
              Demo.start Demo.start_update (Matrix 2 2 [1; 0; 0; 1]%float)
              [0; 0.5]%float 0.5%float 0 0 Demo.unit_compset [1000; 1]%float)
    as (Hmass & _ & _); [vm_compute; reflexivity | reflexivity..|].
  apply (Hmass 0 0). reflexivity.
Defined.

(** ** EquilibriumSystemBuilder: the columns of the stable phases *)

Lemma at_cell_madd_eq m i j v m' :
  madd m i j v = Ok m' ->
  exists old, at_cell i j m = Ok old /\ at_cell i j m' = Ok (old + v)%float.
Proof.
  unfold madd. intros H. inv_ok. eexists. split; [eassumption|].
  eapply mget_mset_eq; eauto.
Qed.

(** The column of a stable phase in a component row: [fill_component_row]
    writes to it for the phase [idx] only. *)
Lemma fill_component_row_columns acc masses mj cc cs cG pa fci fsi fs idx n row comp em rhs
    em' rhs' :
  fill_component_row acc masses mj cc cs cG pa fci fsi fs idx n row comp (em, rhs)
  = Ok (em', rhs') ->
  (forall r i other, fs !! i = Some other -> other <> idx ->
     at_cell r (length fci + i) em' = at_cell r (length fci + i) em)
  /\ (forall i, fs !! i = Some idx ->
        exists m, mget masses comp 0 = Ok m
          /\ at_cell row (length fci + i) em'
             = if acc then at_cell row (length fci + i) em ≫= (fun old => Ok (old + m)%float)
               else Ok m).
Proof.
  unfold fill_component_row. intros H. inv_ok.
  match goal with
  | H1 : for_range (length fci) _ em = Ok ?m1,
    H2 : for_range (length fs) _ ?m1 = Ok ?m2,
    H3 : for_range (length fsi) _ ?m2 = Ok em' |- _ =>
      assert (Hk1 : forall r i, i < length fs ->
                at_cell r (length fci + i) m1 = at_cell r (length fci + i) em)
        by (intros r i Hi; clear H2 H3; untouched);
      assert (Hk3 : forall r i, i < length fs ->
                at_cell r (length fci + i) em' = at_cell r (length fci + i) m2)
        by (intros r i Hi; clear H1 H2; untouched);
      rename H2 into Hmid; clear H1 H3
  end.
  split.
  - intros r i other Hi Hne. pose proof (lookup_lt_Some _ _ _ Hi) as Hlt.
    rewrite Hk3, <- Hk1 by done. revert Hmid.
    apply (for_range_keeps (fun m => at_cell r (length fci + i) m)).
    intros i' m1 m2 Hi' Hb. inv_ok. unfold iget in *. inv_ok.
    destruct (decide _) as [->|]; inv_ok; [|done].
    assert (i' <> i) by congruence.
    destruct acc; [eapply at_cell_madd | eapply at_cell_mset]; eauto;
      intros [= ? ?]; lia.
  - intros i Hi. pose proof (lookup_lt_Some _ _ _ Hi) as Hlt.
    rewrite Hk3, <- Hk1 by done.
    match type of Hmid with for_range _ _ ?m1 = Ok ?m2 =>
      pose (I := fun (i0 : nat) (M : matrix) =>
        (i0 <= i -> at_cell row (length fci + i) M = at_cell row (length fci + i) m1)
        /\ (i < i0 -> exists m, mget masses comp 0 = Ok m
              /\ at_cell row (length fci + i) M
                 = if acc then at_cell row (length fci + i) m1
                               ≫= (fun old => Ok (old + m)%float)
                   else Ok m));
      assert (Hinv : I (length fs) m2);
      [ revert Hmid; apply (for_range_ind I); subst I; cbv beta
      | destruct Hinv as [_ Hinv]; exact (Hinv Hlt) ]
    end.
    + split; [done | intros; lia].
    + intros i' m1 m2 Hi' [Hkeep IH] Hb. inv_ok. unfold iget in *. inv_ok.
      change (0 + length fci) with (length fci) in *.
      destruct (decide (i' = i)) as [->|Hne].
      * simplify_eq. rewrite decide_True in Hb by done. inv_ok.
        split; [intros; lia|]. intros _. eexists. split; [eassumption|].
        destruct acc.
        -- apply at_cell_madd_eq in Hb as (old & Hold & ->).
           rewrite <- Hkeep by lia. rewrite Hold. done.
        -- eapply mget_mset_eq; eauto.
      * assert (Hsame : at_cell row (length fci + i) m2 = at_cell row (length fci + i) m1).
        { destruct (decide _); inv_ok; [|done].
          destruct acc; [eapply at_cell_madd | eapply at_cell_mset]; eauto;
            intros [= ?]; lia. }
        rewrite Hsame. split; [intros; apply Hkeep; lia|].
        intros Hlt'. apply IH. lia.
Qed.

Section PhaseColumns.

Variables (em : matrix) (rhs : vec) (energy : float) (grad : vec)
  (hess masses mass_jac e_matrix : matrix) (mu pa : vec)
  (fci fsi fs fxi pei : list nat) (pea : vec) (idx sidx n : nat)
  (em' : matrix) (rhs' : vec).

Hypothesis Hfill :
  fill_equilibrium_system_for_phase em rhs energy grad hess masses mass_jac e_matrix
    mu pa fci fsi fs fxi pei pea idx sidx n = Ok (em', rhs').

(** X19.  [fill_equilibrium_system_for_phase] leaves the columns of the
    other stable composition sets alone in every row.  In the column of its
    own composition set, the row of each prescribed element holds
    [masses[component_idx, 0]], and the N=1 row has the masses of all the
    components added to it, in the order of the components. *)
Theorem stable_phase_columns :
  (forall r i other, fs !! i = Some other -> other <> idx ->
     mget em' r (length fci + i) = mget em r (length fci + i))
  /\ (forall k component_idx i, k < length pea -> pei !! k = Some component_idx ->
        fs !! i = Some idx ->
        mget em' (length fs + k) (length fci + i) = mget masses component_idx 0)
  /\ (forall i, fs !! i = Some idx ->
        exists ms,
          Forall2 (fun component_idx m => mget masses component_idx 0 = Ok m)
                  (seq 0 (length mu)) ms
          /\ mget em' (length fs + length pea) (length fci + i)
             = mget em (length fs + length pea) (length fci + i)
               ≫= (fun old => Ok (fold_left add ms old))).
Proof using Hfill.
  revert Hfill. unfold fill_equilibrium_system_for_phase. intros H. inv_ok.
  match goal with
  | H1 : for_range (length fci) _ em = Ok ?m1,
    H2 : for_range (length fsi) _ ?m1 = Ok ?m2,
    H3 : for_range (length pea) _ (?m2, rhs) = Ok ?s3,
    H4 : for_range (length mu) _ ?s3 = Ok (em', ?r4) |- _ =>
      assert (Hphase : forall r i, i < length fs ->
                at_cell r (length fci + i) m2 = at_cell r (length fci + i) em)
        by (intros r i Hi; clear H3 H4; untouched);
      rename H3 into Hfixed; rename H4 into Hsum; clear H1 H2
  end.
  unfold at_cell in Hphase.
  match type of Hfixed with _ = Ok ?s => destruct s as [m3 r3] end.
  split; [|split].
  - intros r i other Hi Hne. pose proof (lookup_lt_Some _ _ _ Hi) as Hlt.
    rewrite <- (Hphase r i Hlt).
    apply (for_range_keeps (fun s => mget s.1 r (length fci + i))) in Hsum.
    2:{ intros ? [? ?] [? ?] ? Hb.
        apply fill_component_row_columns in Hb as [Hb _]. eapply Hb; eauto. }
    apply (for_range_keeps (fun s => mget s.1 r (length fci + i))) in Hfixed.
    2:{ intros ? [? ?] [? ?] ? Hb. inv_ok.
        apply fill_component_row_columns in Hb as [Hb _]. eapply Hb; eauto. }
    simpl in *. congruence.
  - intros k comp i Hk Hpei Hi.
    apply (for_range_keeps (fun s => mget s.1 (length fs + k) (length fci + i))) in Hsum.
    2:{ intros ? [? ?] [? ?] ? Hb.
        apply fill_component_row_frame in Hb as [Hb _]. apply Hb. lia. }
    simpl in Hsum. rewrite Hsum. clear Hsum.
    pose (I := fun (k0 : nat) (s : matrix * vec) =>
      k < k0 -> mget s.1 (length fs + k) (length fci + i) = mget masses comp 0).
    assert (Hinv : I (length pea) (m3, r3)); [|exact (Hinv Hk)].
    revert Hfixed. apply (for_range_ind I); subst I; cbv beta; [lia|].
    intros k0 [M r] [M' r'] Hk0 IH Hb Hlt. cbn [fst] in *. inv_ok. unfold iget in *. inv_ok.
    destruct (decide (k = k0)) as [->|Hne].
    + simplify_eq.
      apply fill_component_row_columns in Hb as [_ Hb].
      destruct (Hb i Hi) as (m & Hm & Hnew). unfold at_cell in Hnew. congruence.
    + apply fill_component_row_frame in Hb as [Hb _]. unfold at_cell in Hb.
      rewrite Hb by lia. apply IH. lia.
  - intros i Hi. pose proof (lookup_lt_Some _ _ _ Hi) as Hlt.
    rewrite <- (Hphase _ i Hlt).
    apply (for_range_keeps (fun s => mget s.1 (length fs + length pea) (length fci + i)))
      in Hfixed.
    2:{ intros ? [? ?] [? ?] ? Hb. inv_ok.
        apply fill_component_row_frame in Hb as [Hb _]. apply Hb. lia. }
    simpl in Hfixed. rewrite <- Hfixed. clear Hfixed.
    pose (I := fun (c0 : nat) (s : matrix * vec) =>
      exists ms, Forall2 (fun component_idx m => mget masses component_idx 0 = Ok m)
                         (seq 0 c0) ms
        /\ mget s.1 (length fs + length pea) (length fci + i)
           = mget m3 (length fs + length pea) (length fci + i)
             ≫= (fun old => Ok (fold_left add ms old))).
    match type of Hsum with _ = Ok ?s =>
      assert (Hinv : I (length mu) s); [|exact Hinv] end.
    revert Hsum. apply (for_range_ind I); subst I; cbv beta.
    + exists []. split; [constructor|]. simpl.
      now destruct (mget m3 (length fs + length pea) (length fci + i)).
    + intros c0 [M r] [M' r'] Hc0 (ms & Hms & Hcell) Hb. cbn [fst] in *.
      apply fill_component_row_columns in Hb as [_ Hb].
      destruct (Hb i Hi) as (m & Hm & Hnew). unfold at_cell in Hnew.
      exists (ms ++ [m]). split.
      * rewrite seq_S. apply Forall2_app; [done|]. constructor; [done | constructor].
      * rewrite Hnew, Hcell.
        destruct (mget m3 (length fs + length pea) (length fci + i)); simpl; [|done].
        now rewrite fold_left_app.
Qed.

End PhaseColumns.

Lemma stable_phase_columns_witness :
  mget (Matrix 3 3 [1; 0; -0; 1; 1; 0; 2; 3; 0]%float) 1 1
  = mget (Matrix 2 1 [1; 2]%float) 0 0.
Proof.
  destruct (stable_phase_columns _ _ _ _ _ _ _ _ _ _ _ _ _ _ _ _ _ _ _ _ _
              phase_rows_example) as (_ & Hrow & _).
  apply (Hrow 0 0 0); [simpl; lia | reflexivity..].
Defined.

(** ** SolverDriver: what the clips are applied to *)

(** The loop over the stable composition sets: what each amount was before
    the two clips. *)
Lemma extract_phase_amounts_written fs soln off pa l pa' l' :
  extract_phase_amounts fs soln off (pa, l) = Ok (pa', l') ->
  NoDup fs ->
  forall i compset_idx, fs !! i = Some compset_idx ->
    exists old s,
      pa !! compset_idx = Some old /\ soln !! (off + i) = Some s
      /\ pa' !! compset_idx = Some (clip_phase_amt (old + s)).
Proof.
  unfold extract_phase_amounts. intros H Hnd.
  pose (I := fun (i0 : nat) (acc : vec * vec) =>
    (forall i k, i < i0 -> fs !! i = Some k ->
       exists old s, pa !! k = Some old /\ soln !! (off + i) = Some s
         /\ acc.1 !! k = Some (clip_phase_amt (old + s)))
    /\ (forall i k, i0 <= i -> fs !! i = Some k -> acc.1 !! k = pa !! k)).
  assert (Hinv : I (length fs) (pa', l')).
  { revert H. apply (for_range_ind I); subst I; cbv beta.
    - split; [intros; lia | done].
    - intros i0 [pa1 l1] [pa2 l2] Hi0 [Hdone Hrest] Hb.
      cbn [fst snd] in *. inv_ok. unfold iget, vget in *. inv_ok.
      repeat match goal with Hv : vset _ _ _ = Ok _ |- _ =>
        apply vset_Ok in Hv as [? ->] end.
      match goal with
      | Hk : fs !! i0 = Some ?k, Hold : pa1 !! ?k = Some ?old |- _ =>
          rewrite (Hrest i0 k) in Hold by done
      end.
      split.
      + intros i k Hi Hk. destruct (decide (i = i0)) as [->|Hne].
        * simplify_eq. eexists _, _. split; [eassumption|]. split; [eassumption|].
          now apply list_lookup_insert_eq.
        * destruct (Hdone i k) as (old & s & ? & ? & ?); [lia | done |].
          exists old, s. split; [done|]. split; [done|].
          rewrite list_lookup_insert_ne; [done|].
          intros ->. apply Hne. eapply NoDup_lookup; eauto.
      + intros i k Hi Hk. rewrite list_lookup_insert_ne; [apply (Hrest i); [lia|done]|].
        intros ->. assert (i = i0) by (eapply NoDup_lookup; eauto). lia. }
  destruct Hinv as [Hdone _]. intros i k Hk.
  apply Hdone; [eapply lookup_lt_Some; eauto | done].
Qed.

Section Clipping.

Variable np : NumPy.
Variable compsets : list CompositionSet.
Variable c : conditions.

Lemma update_internal_dof_written st idx compset u u' :
  update_internal_dof np c (st_phase_amt st) (st_chemical_potentials st)
    (st_delta_statevars st) idx compset u = Ok u' ->
  exists x psoln,
    iu_dof u !! idx = Some x /\ internal_step np st compset x psoln
    /\ length (drop (num_statevars c) x)
       = length (take (phase_dof (phase_record compset)) psoln)
    /\ iu_dof u'
       = <[idx := take (num_statevars c) x
                  ++ map clip_site_fraction
                       (zip_with add (drop (num_statevars c) x)
                          (take (phase_dof (phase_record compset)) psoln))]> (iu_dof u).
Proof.
  unfold update_internal_dof. intros H. inv_ok. cbn [iu_dof].
  repeat match goal with Hz : zip_same _ _ _ = Ok _ |- _ =>
    apply zip_same_Ok in Hz as [? ?] end.
  subst.
  match goal with
  | Hx : iu_dof u !! idx = Some ?x, Hs : linalg_solve np _ _ = Some ?psoln |- _ =>
      exists x, psoln
  end.
  split; [done|]. split; [unfold internal_step; eauto 10|]. split; done.
Qed.

Lemma update_internal_dofs_written st u :
  update_internal_dofs np compsets c st = Ok u ->
  length (iu_dof u) = length (st_dof st)
  /\ forall idx compset x, compsets !! idx = Some compset -> st_dof st !! idx = Some x ->
       exists psoln,
         internal_step np st compset x psoln
         /\ length (drop (num_statevars c) x)
            = length (take (phase_dof (phase_record compset)) psoln)
         /\ iu_dof u !! idx
            = Some (take (num_statevars c) x
                    ++ map clip_site_fraction
                         (zip_with add (drop (num_statevars c) x)
                            (take (phase_dof (phase_record compset)) psoln))).
Proof.
  unfold update_internal_dofs.
  pose (I := fun (i0 : nat) (u : internal_update) =>
    length (iu_dof u) = length (st_dof st)
    /\ (forall idx, i0 <= idx -> iu_dof u !! idx = st_dof st !! idx)
    /\ forall idx compset x, idx < i0 -> compsets !! idx = Some compset ->
         st_dof st !! idx = Some x ->
         exists psoln,
           internal_step np st compset x psoln
           /\ length (drop (num_statevars c) x)
              = length (take (phase_dof (phase_record compset)) psoln)
           /\ iu_dof u !! idx
              = Some (take (num_statevars c) x
                      ++ map clip_site_fraction
                           (zip_with add (drop (num_statevars c) x)
                              (take (phase_dof (phase_record compset)) psoln)))).
  intros H. assert (Hinv : I (length compsets) u).
  { revert H. apply (for_range_ind I); subst I; cbv beta.
    - cbn [iu_dof]. split; [done|]. split; [done | intros; lia].
    - intros i0 u1 u2 Hi0 (Hlen & Hrest & Hdone) Hb. inv_ok.
      apply update_internal_dof_written in Hb as (x0 & psoln & Hx0 & Hstep & Hl & ->).
      rewrite length_insert. split; [done|]. split; [|].
      + intros idx Hidx. rewrite list_lookup_insert_ne by lia. apply Hrest. lia.
      + intros idx compset x Hidx Hcs Hx. destruct (decide (idx = i0)) as [->|Hne].
        * rewrite Hrest in Hx0 by done. simplify_eq. exists psoln.
          split; [done|]. split; [done|].
          apply list_lookup_insert_eq. rewrite Hlen. eapply lookup_lt_Some; eauto.
        * destruct (Hdone idx compset x) as (ps & ? & ? & ?); [lia | done..|].
          exists ps. split; [done|]. split; [done|].
          now rewrite list_lookup_insert_ne by done. }
  destruct Hinv as (Hlen & _ & Hdone). split; [done|].
  intros idx compset x Hcs Hx. apply Hdone; [eapply lookup_lt_Some; eauto | done..].
Qed.

Lemma iteration_parts st o :
  iteration np compsets c st = Ok o ->
  exists u em rhs mass_residual soln e fs',
    update_internal_dofs np compsets c st = Ok u
    /\ equilibrium_system np compsets c st u = Ok (em, rhs, mass_residual)
    /\ linalg_lstsq np em rhs = Some soln
    /\ extract_equilibrium_solution (st_chemical_potentials st) (st_phase_amt st)
         (st_delta_statevars st) (free_chemical_potential_indices c)
         (free_statevar_indices c) (st_free_stable_compset_indices st)
         soln (np_zeros 1) (np_zeros 1) (iu_dof u) = Ok e
    /\ outcome_state o = next_state e fs'.
Proof.
  unfold iteration. intros H. inv_ok.
  destruct (system_is_feasible _ _); inv_ok.
  - match goal with b : bool |- _ => destruct b end; inv_ok; eauto 12.
  - eauto 12.
Qed.

(** C5 (amended).  What an iteration writes is the clip of a known value.
    The amount of every active composition set ends in [0, 1] or as NaN.
    With distinct active indices, the amount of the i-th active composition
    set becomes the clip to [0, 1] of its amount on entry plus its entry of
    the solution of the global system.  Each site fraction of each
    composition set becomes the clip to [MIN_SITE_FRACTION, 1] of its value
    on entry plus its entry of the solution of the phase system.  The clipped
    value lies in the interval when the value before clipping is not NaN, and
    is NaN when that value is NaN. *)
Theorem clipping_invariants st o :
  length (st_delta_statevars st) = num_statevars c ->
  iteration np compsets c st = Ok o ->
  exists u em rhs mass_residual soln,
    update_internal_dofs np compsets c st = Ok u
    /\ equilibrium_system np compsets c st u = Ok (em, rhs, mass_residual)
    /\ linalg_lstsq np em rhs = Some soln
    /\ (forall compset_idx, compset_idx ∈ st_free_stable_compset_indices st ->
          exists v, st_phase_amt (outcome_state o) !! compset_idx = Some v
            /\ (is_nan v = true \/ F.between 0 1 v))
    /\ (NoDup (st_free_stable_compset_indices st) ->
        forall i compset_idx,
          st_free_stable_compset_indices st !! i = Some compset_idx ->
          exists old s,
            st_phase_amt st !! compset_idx = Some old
            /\ soln !! (length (free_chemical_potential_indices c) + i) = Some s
            /\ st_phase_amt (outcome_state o) !! compset_idx
               = Some (clip_phase_amt (old + s))
            /\ (is_nan (old + s) = false -> F.between 0 1 (clip_phase_amt (old + s)))
            /\ (is_nan (old + s) = true -> is_nan (clip_phase_amt (old + s)) = true))
    /\ (forall idx compset x,
          compsets !! idx = Some compset -> st_dof st !! idx = Some x ->
          exists psoln x',
            internal_step np st compset x psoln
            /\ st_dof (outcome_state o) !! idx = Some x'
            /\ length x' = length x
            /\ forall j old_y, x !! (num_statevars c + j) = Some old_y ->
                 exists delta_y,
                   j < phase_dof (phase_record compset)
                   /\ psoln !! j = Some delta_y
                   /\ x' !! (num_statevars c + j)
                      = Some (clip_site_fraction (old_y + delta_y))
                   /\ (is_nan (old_y + delta_y) = false ->
                         F.between MIN_SITE_FRACTION 1
                           (clip_site_fraction (old_y + delta_y)))
                   /\ (is_nan (old_y + delta_y) = true ->
                         is_nan (clip_site_fraction (old_y + delta_y)) = true)).
Proof.
  intros Hdelta H.
  apply iteration_parts in H as (u & em & rhs & mr & soln & e & fs' & Hu & Hsys & Hsoln
                                   & He & ->).
  exists u, em, rhs, mr, soln. split; [done|]. split; [done|]. split; [done|].
  pose proof (extract_dof_update _ _ _ _ _ _ _ _ _ _ _ He) as (_ & _ & Hdof).
  pose proof (extract_equilibrium_solution_spec _ _ _ _ _ _ _ _ _ _ _ He) as (Hany & _).
  apply update_internal_dofs_written in Hu as [Hlen Hy].
  cbn [next_state st_phase_amt st_dof]. split; [exact Hany|]. split.
  - intros Hnd i k Hk. unfold extract_equilibrium_solution in He. inv_ok.
    cbn [ex_phase_amt].
    match goal with Hp : extract_phase_amounts _ _ _ _ = Ok _ |- _ =>
      destruct (extract_phase_amounts_written _ _ _ _ _ _ _ Hp Hnd i k Hk)
        as (old & s & Hold & Hs & Hnew) end.
    exists old, s. split; [done|]. split; [done|]. split; [done|].
    split; [apply clip_phase_amt_between | apply clip_phase_amt_nan].
  - intros idx compset x Hcs Hx.
    destruct (Hy idx compset x Hcs Hx) as (psoln & Hstep & Hl & Hux).
    destruct (Hdof _ _ Hux) as (x' & Hx' & Hlx & _ & Hdrop).
    exists psoln, x'. split; [done|]. split; [done|].
    rewrite Hdelta in Hdrop.
    set (n := num_statevars c) in *.
    set (new_y := zip_with add (drop n x) (take (phase_dof (phase_record compset)) psoln))
      in *.
    assert (Hnl : length new_y = length x - n).
    { unfold new_y. rewrite length_zip_with, <- Hl, length_drop. lia. }
    split.
    { rewrite Hlx, length_app, length_map, length_take, Hnl. lia. }
    intros j old_y Hj.
    pose proof (lookup_lt_Some _ _ _ Hj) as Hjl.
    assert (Hd : drop n x !! j = Some old_y) by now rewrite lookup_drop.
    assert (Hjd : j < length (take (phase_dof (phase_record compset)) psoln)).
    { rewrite <- Hl, length_drop. lia. }
    destruct (lookup_lt_is_Some_2 _ _ Hjd) as [delta_y Hdy].
    pose proof Hdy as Hdy'. apply lookup_take_Some in Hdy' as [Hps HjD].
    exists delta_y. split; [done|]. split; [done|].
    split; [|split; [apply clip_site_fraction_between|]].
    + rewrite <- lookup_drop, Hdrop.
      rewrite drop_app_length' by (rewrite length_take; lia).
      rewrite list_lookup_fmap. unfold new_y. rewrite lookup_zip_with, Hd. simpl.
      now rewrite Hdy.
    + intros Hn. now rewrite clip_site_fraction_nan.
Qed.

End Clipping.

Lemma clipping_invariants_witness :
  exists o v,
    iteration Demo.numpy [Demo.unit_compset] Demo.one_free_potential Demo.start = Ok o
    /\ st_phase_amt (outcome_state o) !! 0 = Some v
    /\ F.between 0 1 v.
Proof.
  assert (Hi : exists o, iteration Demo.numpy [Demo.unit_compset]
                           Demo.one_free_potential Demo.start = Ok o)
    by (eexists; vm_compute; reflexivity).
  destruct Hi as [o Ho].
  destruct (clipping_invariants Demo.numpy [Demo.unit_compset] Demo.one_free_potential
              Demo.start o eq_refl Ho)
    as (u & em & rhs & mr & soln & Hu & Hsys & Hsoln & _ & Hpa & _).
  destruct (Hpa (NoDup_singleton 0) 0 0 eq_refl)
    as (old & s & Hold & Hs & Hnew & Hin & _).
  exists o, (clip_phase_amt (old + s)). split; [exact Ho|]. split; [exact Hnew|].
  apply Hin. injection Hold as <-.
  revert Hu Hsys Hsoln Hs. vm_compute. intros [= <-] [= <- <- _] [= <-] [= <-].
  reflexivity.
Defined.

(** ** SolverDriver: the loop on the arrays and on the state *)

Lemma mapM_Forall2 {A B} (f : A -> res B) l l' :
  Forall2 (fun a b => f a = Ok b) l l' -> mapM f l = Ok l'.
Proof.
  induction 1 as [|a b l l' Hab _ IH]; simpl; [done|].
  rewrite Hab. simpl. rewrite IH. reflexivity.
Qed.

Lemma write_succeeds σ a v :
  a < length (buffers σ) -> write σ a v = Ok (Store (objects σ) (<[a := v]> (buffers σ))).
Proof. intros Ha. unfold write. now rewrite decide_True. Qed.

Lemma write_all_spec addresses : forall σ values,
  NoDup addresses -> Forall (fun a => a < length (buffers σ)) addresses ->
  length values = length addresses ->
  exists σ',
    write_all σ addresses values = Ok σ'
    /\ objects σ' = objects σ /\ length (buffers σ') = length (buffers σ)
    /\ Forall2 (fun a v => read σ' a = Ok v) addresses values
    /\ forall b, b ∉ addresses -> read σ' b = read σ b.
Proof.
  induction addresses as [|a addresses IH]; intros σ [|v values] Hnd Hall Hlen;
    try discriminate.
  - exists σ. simpl. repeat split; auto.
  - apply NoDup_cons in Hnd as [Hna Hnd]. apply Forall_cons in Hall as [Ha Hall].
    simpl. rewrite (write_succeeds _ _ _ Ha). simpl.
    destruct (IH (Store (objects σ) (<[a := v]> (buffers σ))) values)
      as (σ' & Hw & Ho & Hl & Hread & Hframe); [done | | simpl in Hlen; lia |].
    { simpl. now rewrite length_insert. }
    exists σ'. split; [done|]. split; [done|].
    simpl in Hl. rewrite length_insert in Hl. split; [done|]. split.
    + constructor; [|done]. rewrite Hframe by done. unfold read. simpl.
      now rewrite list_lookup_insert_eq.
    + intros b Hb. apply not_elem_of_cons in Hb as [Hne Hb].
      rewrite Hframe by done. unfold read. simpl.
      now rewrite list_lookup_insert_ne.
Qed.

Lemma frame_allocated_length σ σ' fr :
  frame_allocated σ fr -> length (buffers σ') = length (buffers σ) ->
  frame_allocated σ' fr.
Proof. intros [Hnd Hall] Hl. split; [done|]. now rewrite Hl. Qed.

Lemma write_spec σ a v :
  a < length (buffers σ) ->
  exists σ',
    write σ a v = Ok σ'
    /\ objects σ' = objects σ /\ length (buffers σ') = length (buffers σ)
    /\ forall b, read σ' b = if decide (b = a) then Ok v else read σ b.
Proof.
  intros Ha. eexists. split; [now apply write_succeeds|]. simpl.
  split; [done|]. split; [apply length_insert|].
  intros b. unfold read. simpl. destruct (decide (b = a)) as [->|Hne].
  - now rewrite list_lookup_insert_eq.
  - now rewrite list_lookup_insert_ne.
Qed.

Lemma Forall2_impl_elem {A B} (P Q : A -> B -> Prop) l k :
  Forall2 P l k -> (forall a b, a ∈ l -> P a b -> Q a b) -> Forall2 Q l k.
Proof.
  induction 1 as [|a b l k Hab _ IH]; intros HPQ; constructor.
  - apply HPQ; [left | done].
  - apply IH. intros a' b' Ha'. apply HPQ. now right.
Qed.

Lemma store_back_load σ fr st fs :
  frame_allocated σ fr -> length (st_dof st) = length (a_dof fr) ->
  exists σ',
    store_back σ fr st = Ok σ'
    /\ objects σ' = objects σ /\ length (buffers σ') = length (buffers σ)
    /\ load σ' fr fs
       = Ok (SolverState (st_phase_amt st) (st_dof st) (st_chemical_potentials st)
                         (st_delta_statevars st) fs).
Proof.
  intros [Hnd Hall] Hlen. unfold frame_addresses in *.
  apply NoDup_cons in Hnd as [Hpa Hnd]. apply NoDup_cons in Hnd as [Hmu Hnd].
  apply NoDup_cons in Hnd as [Hd Hnd].
  apply not_elem_of_cons in Hpa as [Hpm Hpa]. apply not_elem_of_cons in Hpa as [Hpd Hpa].
  apply not_elem_of_cons in Hmu as [Hmd Hmu].
  apply Forall_cons in Hall as [Hapa Hall]. apply Forall_cons in Hall as [Hamu Hall].
  apply Forall_cons in Hall as [Had Hall].
  unfold store_back.
  destruct (write_spec σ (a_phase_amt fr) (st_phase_amt st) Hapa)
    as (σ1 & -> & Ho1 & Hl1 & Hr1).
  cbn [mbind res_bind].
  destruct (write_all_spec (a_dof fr) σ1 (st_dof st)) as (σ2 & -> & Ho2 & Hl2 & Hr2 & Hf2);
    [done | now rewrite Hl1 | done |].
  cbn [mbind res_bind].
  destruct (write_spec σ2 (a_chemical_potentials fr) (st_chemical_potentials st))
    as (σ3 & -> & Ho3 & Hl3 & Hr3); [lia|].
  cbn [mbind res_bind].
  destruct (write_spec σ3 (a_delta_statevars fr) (st_delta_statevars st))
    as (σ4 & -> & Ho4 & Hl4 & Hr4); [lia|].
  exists σ4. split; [done|]. split; [congruence|]. split; [lia|].
  assert (Rpa : read σ4 (a_phase_amt fr) = Ok (st_phase_amt st)).
  { rewrite Hr4, decide_False, Hr3, decide_False, Hf2, Hr1, decide_True; done. }
  assert (Rmu : read σ4 (a_chemical_potentials fr) = Ok (st_chemical_potentials st)).
  { rewrite Hr4, decide_False, Hr3, decide_True; done. }
  assert (Rd : read σ4 (a_delta_statevars fr) = Ok (st_delta_statevars st)).
  { rewrite Hr4, decide_True; done. }
  assert (Rdof : mapM (read σ4) (a_dof fr) = Ok (st_dof st)).
  { apply mapM_Forall2. eapply Forall2_impl_elem; [exact Hr2|]. cbv beta.
    intros a v Ha Hav.
    rewrite Hr4, decide_False, Hr3, decide_False; [done|..]; intros ->; contradiction. }
  unfold load. rewrite Rpa, Rdof, Rmu, Rd. reflexivity.
Qed.

Lemma load_dof_length σ fr fs st :
  load σ fr fs = Ok st ->
  length (st_dof st) = length (a_dof fr)
  /\ st_free_stable_compset_indices st = fs.
Proof.
  unfold load. intros H. inv_ok. simpl. split; [|done].
  match goal with Hm : mapM _ _ = Ok _ |- _ =>
    apply mapM_Ok, Forall2_length in Hm end.
  done.
Qed.

Lemma get_compsets_objects compsets σ σ' :
  objects σ' = objects σ -> get_compsets compsets σ' = get_compsets compsets σ.
Proof.
  intros Ho. unfold get_compsets.
  assert (Hg : forall r, get_object σ' r = get_object σ r)
    by (intros r; unfold get_object; now rewrite Ho).
  induction compsets as [|r l IH]; simpl; [done|]. now rewrite Hg, IH.
Qed.

Section Loop.

Variable np : NumPy.
Variable compsets : list nat.
Variable c : conditions.

Lemma iteration_dof_length cs st o :
  iteration np cs c st = Ok o ->
  length (st_dof (outcome_state o)) = length (st_dof st).
Proof.
  intros H. apply iteration_steps in H as (u & soln & e & fs' & Hu & He & ->).
  apply update_internal_dofs_clipped in Hu as [Hlen _].
  apply extract_dof_update in He as (_ & Hd & _). simpl. congruence.
Qed.

(** A pass on the arrays in the store is a pass on the state they hold. *)
Lemma iteration_in_place_spec σ fr fs cs st :
  frame_allocated σ fr -> get_compsets compsets σ = Ok cs -> load σ fr fs = Ok st ->
  match iteration np cs c st with
  | Raise e => iteration_in_place np compsets c σ fr fs = Raise e
  | Ok o =>
      exists σ',
        iteration_in_place np compsets c σ fr fs = Ok (σ', o)
        /\ frame_allocated σ' fr /\ get_compsets compsets σ' = Ok cs
        /\ load σ' fr (st_free_stable_compset_indices (outcome_state o))
           = Ok (outcome_state o)
  end.
Proof.
  intros Hfr Hcs Hl. unfold iteration_in_place. rewrite Hcs, Hl. cbn [mbind res_bind].
  destruct (iteration np cs c st) as [o|e] eqn:Hi; [|done]. cbn [mbind res_bind].
  pose proof (iteration_dof_length _ _ _ Hi) as Hlen.
  apply load_dof_length in Hl as [Hl _].
  destruct (store_back_load σ fr (outcome_state o)
              (st_free_stable_compset_indices (outcome_state o)) Hfr)
    as (σ' & -> & Ho & Hlb & Hload); [congruence|].
  exists σ'. split; [done|]. split; [eapply frame_allocated_length; eauto|].
  split; [now rewrite (get_compsets_objects _ _ _ Ho)|].
  rewrite Hload. now destruct (outcome_state o).
Qed.

Lemma iterations_passes cs k : forall σ fr fs st st',
  frame_allocated σ fr -> get_compsets compsets σ = Ok cs -> load σ fr fs = Ok st ->
  passes np cs c k st = Some st' ->
  exists σ',
    iterations np compsets c k σ fr fs
    = (k, Ok (σ', false, st_free_stable_compset_indices st'))
    /\ frame_allocated σ' fr /\ get_compsets compsets σ' = Ok cs
    /\ load σ' fr (st_free_stable_compset_indices st') = Ok st'.
Proof.
  induction k as [|k IH]; intros σ fr fs st st' Hfr Hcs Hl Hp; simpl in Hp.
  - injection Hp as <-. pose proof (load_dof_length _ _ _ _ Hl) as [_ Hfs].
    exists σ. simpl. rewrite Hfs. auto.
  - pose proof (iteration_in_place_spec σ fr fs cs st Hfr Hcs Hl) as Hstep.
    destruct (iteration np cs c st) as [[st1|st1]|e]; try discriminate.
    destruct Hstep as (σ1 & Hip & Hfr1 & Hcs1 & Hl1). simpl in Hl1.
    destruct (IH σ1 fr _ st1 st' Hfr1 Hcs1 Hl1 Hp) as (σ' & Hit & ? & ? & ?).
    exists σ'. simpl. rewrite Hip, Hit. auto.
Qed.

Lemma iterations_passes_raise cs k n : forall σ fr fs st st' e,
  frame_allocated σ fr -> get_compsets compsets σ = Ok cs -> load σ fr fs = Ok st ->
  passes np cs c k st = Some st' -> iteration np cs c st' = Raise e -> k < n ->
  iterations np compsets c n σ fr fs = (S k, Raise e).
Proof.
  revert n. induction k as [|k IH]; intros n σ fr fs st st' e Hfr Hcs Hl Hp Hi Hk;
    simpl in Hp; (destruct n as [|n]; [lia|]).
  - injection Hp as <-.
    pose proof (iteration_in_place_spec σ fr fs cs st Hfr Hcs Hl) as Hstep.
    rewrite Hi in Hstep. simpl. now rewrite Hstep.
  - pose proof (iteration_in_place_spec σ fr fs cs st Hfr Hcs Hl) as Hstep.
    destruct (iteration np cs c st) as [[st1|st1]|e1]; try discriminate.
    destruct Hstep as (σ1 & Hip & Hfr1 & Hcs1 & Hl1). simpl in Hl1.
    simpl. rewrite Hip.
    rewrite (IH n σ1 fr _ st1 st' e Hfr1 Hcs1 Hl1 Hp Hi) by lia. reflexivity.
Qed.

End Loop.

Lemma copy_dofs_copies cs : forall σ dofs,
  Forall2 (fun compset d => read σ (dof compset) = Ok d) cs dofs ->
  copy_dofs σ cs
  = Ok (Store (objects σ) (buffers σ ++ dofs), seq (length (buffers σ)) (length cs)).
Proof.
  induction cs as [|compset cs IH]; intros σ dofs Hall.
  - apply Forall2_nil_inv_l in Hall as ->. simpl. rewrite app_nil_r. now destruct σ.
  - apply Forall2_cons_inv_l in Hall as (d & dofs' & Hd & Hall & ->).
    simpl. unfold np_array. rewrite Hd. cbn [mbind res_bind alloc].
    rewrite (IH _ dofs').
    + cbn [mbind res_bind objects buffers]. rewrite length_app, <- app_assoc. simpl.
      now rewrite Nat.add_1_r.
    + eapply Forall2_impl; [exact Hall|]. cbv beta. intros x v Hx.
      unfold read in *. cbn [buffers]. apply of_option_Ok in Hx.
      now rewrite (lookup_app_l_Some _ _ _ _ Hx).
Qed.

Lemma read_seq (pre post : list vec) dofs : forall objs,
  Forall2 (fun a d => read (Store objs (pre ++ dofs ++ post)) a = Ok d)
          (seq (length pre) (length dofs)) dofs.
Proof.
  revert pre. induction dofs as [|d dofs IH]; intros pre objs; simpl; constructor.
  - unfold read. cbn [buffers]. now rewrite list_lookup_middle.
  - specialize (IH (pre ++ [d]) objs). rewrite length_app, <- app_assoc in IH.
    simpl in IH. now rewrite Nat.add_1_r in IH.
Qed.

Lemma load_any_active_set σ fr fs fs' st :
  load σ fr fs = Ok st ->
  load σ fr fs'
  = Ok (SolverState (st_phase_amt st) (st_dof st) (st_chemical_potentials st)
                    (st_delta_statevars st) fs').
Proof.
  unfold load. intros H.
  destruct (read σ (a_phase_amt fr)); [|discriminate]. cbn [mbind res_bind] in *.
  destruct (mapM (read σ) (a_dof fr)); [|discriminate]. cbn [mbind res_bind] in *.
  destruct (read σ (a_chemical_potentials fr)); [|discriminate].
  cbn [mbind res_bind] in *.
  destruct (read σ (a_delta_statevars fr)); [|discriminate]. cbn [mbind res_bind] in *.
  injection H as <-. reflexivity.
Qed.

Section Call.

Variable np : NumPy.
Variable compsets : list nat.
Variable c : conditions.

Lemma passes_dof_length cs k : forall st st',
  passes np cs c k st = Some st' -> length (st_dof st') = length (st_dof st).
Proof.
  induction k as [|k IH]; intros st st' H; simpl in H; [now injection H as <-|].
  destruct (iteration np cs c st) as [[st1|st1]|e] eqn:Hi; try discriminate.
  apply iteration_dof_length in Hi. simpl in Hi. rewrite (IH _ _ H). done.
Qed.

Lemma passes_dof_nonempty cs k st st' :
  passes np cs c (S k) st = Some st' -> st_dof st' <> [].
Proof.
  intros H. pose proof (passes_dof_length _ _ _ _ H) as Hlen. simpl in H.
  destruct (iteration np cs c st) as [o|e] eqn:Hi; [|discriminate].
  apply iteration_dof_nonempty in Hi.
  intros Hnil. rewrite Hnil in Hlen. destruct (st_dof st); [done | discriminate].
Qed.

(** The arrays bound before the loop hold the initial state. *)
Lemma initialise_state σ cs dofs fs :
  get_compsets compsets σ = Ok cs ->
  mapM (fun compset => read σ (dof compset)) cs = Ok dofs ->
  exists σ0 fr,
    initialise compsets c σ = Ok (σ0, fr)
    /\ frame_allocated σ0 fr /\ get_compsets compsets σ0 = Ok cs
    /\ load σ0 fr fs = Ok (initial_state c cs dofs fs).
Proof.
  intros Hcs Hd. apply mapM_Ok in Hd. pose proof (Forall2_length _ _ _ Hd) as Hn.
  unfold initialise. rewrite Hcs. cbn [mbind res_bind alloc].
  rewrite (copy_dofs_copies cs _ dofs); cycle 1.
  { eapply Forall2_impl; [exact Hd|]. cbv beta. intros x v Hx.
    unfold read in *. cbn [buffers]. apply of_option_Ok in Hx.
    now rewrite (lookup_app_l_Some _ _ _ _ Hx). }
  cbn [mbind res_bind objects buffers fst snd].
  eexists _, _. split; [reflexivity|].
  set (L := length (buffers σ)).
  assert (HL1 : length (buffers σ ++ [map NP cs]) = S L)
    by (rewrite length_app; simpl; lia).
  assert (HL2 : length ((buffers σ ++ [map NP cs]) ++ dofs) = S L + length cs)
    by (rewrite length_app; lia).
  assert (HL3 : length (((buffers σ ++ [map NP cs]) ++ dofs)
                        ++ [initial_chemical_potentials c]) = S (S L + length cs))
    by (rewrite length_app; simpl; lia).
  rewrite HL1, HL2, HL3.
  split; [|split].
  - split.
    + unfold frame_addresses. cbn [a_phase_amt a_chemical_potentials a_delta_statevars a_dof].
      repeat (apply NoDup_cons; split); rewrite ?not_elem_of_cons, ?elem_of_seq;
        try lia. apply NoDup_seq.
    + unfold frame_addresses. cbn [a_phase_amt a_chemical_potentials a_delta_statevars a_dof
                                   buffers].
      rewrite !length_app. simpl. rewrite <- Hn. fold L.
      repeat (apply Forall_cons; split); try lia.
      apply Forall_forall. intros a Ha%elem_of_seq. lia.
  - etransitivity; [|exact Hcs]. now apply get_compsets_objects.
  - unfold load, initial_state.
    cbn [a_phase_amt a_chemical_potentials a_delta_statevars a_dof].
    assert (Rpa : read (Store (objects σ)
                    ((((buffers σ ++ [map NP cs]) ++ dofs)
                      ++ [initial_chemical_potentials c]) ++ [np_zeros (num_statevars c)]))
                    L = Ok (map NP cs)).
    { unfold read. cbn [buffers]. rewrite <- !app_assoc. simpl.
      now rewrite list_lookup_middle. }
    rewrite Rpa. cbn [mbind res_bind].
    rewrite (mapM_Forall2 _ _ dofs); cycle 1.
    { rewrite <- HL1, Hn.
      replace ((((buffers σ ++ [map NP cs]) ++ dofs) ++ [initial_chemical_potentials c])
               ++ [np_zeros (num_statevars c)])
        with ((buffers σ ++ [map NP cs]) ++ dofs
              ++ [initial_chemical_potentials c; np_zeros (num_statevars c)])
        by (rewrite <- !app_assoc; reflexivity).
      apply read_seq. }
    cbn [mbind res_bind]. unfold read. cbn [buffers].
    assert (Rmu : ((((buffers σ ++ [map NP cs]) ++ dofs)
                    ++ [initial_chemical_potentials c]) ++ [np_zeros (num_statevars c)])
                  !! (S L + length cs) = Some (initial_chemical_potentials c)).
    { rewrite lookup_app_l by (rewrite HL3; lia). now apply list_lookup_middle. }
    assert (Rd : ((((buffers σ ++ [map NP cs]) ++ dofs)
                   ++ [initial_chemical_potentials c]) ++ [np_zeros (num_statevars c)])
                 !! S (S L + length cs) = Some (np_zeros (num_statevars c))).
    { now apply list_lookup_middle. }
    rewrite Rmu, Rd. reflexivity.
Qed.

(** C4 (amended).  A call executes at most 100 outer iterations.  When 100
    passes through the loop body elapse from the initial state, none raising
    and none reaching [break], the call returns [False], the vector that
    packs the [dof] vectors and the amounts the last pass left, and the
    chemical potentials it left.  When a pass raises, the call raises that
    exception and has entered one body more than the passes completed. *)
Theorem bounded_iterations σ fs :
  iterations_executed np compsets c σ fs <= 100
  /\ forall cs dofs,
       get_compsets compsets σ = Ok cs ->
       mapM (fun compset => read σ (dof compset)) cs = Ok dofs ->
       (forall st, passes np cs c 100 (initial_state c cs dofs fs) = Some st ->
          exists σ' x0 rest,
            st_dof st = x0 :: rest
            /\ find_solution np compsets c σ fs
               = Ok (σ', (false,
                          x0 ++ concat (map (drop (num_statevars c)) rest)
                             ++ st_phase_amt st,
                          st_chemical_potentials st)))
       /\ (forall k st e,
             k < 100 -> passes np cs c k (initial_state c cs dofs fs) = Some st ->
             iteration np cs c st = Raise e ->
             find_solution np compsets c σ fs = Raise e
             /\ iterations_executed np compsets c σ fs = S k).
Proof.
  split.
  - unfold iterations_executed, solve.
    destruct (initialise compsets c σ) as [[σ0 fr]|]; [|cbn [fst]; lia].
    pose proof (iterations_le np compsets c 100 σ0 fr fs) as Hle.
    destruct (iterations np compsets c 100 σ0 fr fs) as [k r]. exact Hle.
  - intros cs dofs Hcs Hd.
    destruct (initialise_state σ cs dofs fs Hcs Hd) as (σ0 & fr & Hi & Hfr & Hcs0 & Hl0).
    split.
    + intros st Hp.
      pose proof (passes_dof_nonempty _ _ _ _ Hp) as Hne.
      destruct (iterations_passes np compsets c cs 100 σ0 fr fs _ st Hfr Hcs0 Hl0 Hp)
        as (σ' & Hit & _ & _ & Hl).
      apply (load_any_active_set _ _ _ []) in Hl.
      destruct (st_dof st) as [|x0 rest] eqn:Hdof; [done|].
      exists σ', x0, rest. split; [done|].
      unfold find_solution, solve. rewrite Hi, Hit. cbn [fst snd mbind res_bind].
      rewrite Hl. cbn [mbind res_bind st_dof st_phase_amt st_chemical_potentials].
      unfold pack_solution. cbn [lookup list_lookup of_option mbind res_bind].
      change (drop 1 (x0 :: rest)) with (drop 0 rest).
      rewrite drop_0, fold_left_drop_concat, <- app_assoc. reflexivity.
    + intros k st e Hk Hp He.
      pose proof (iterations_passes_raise np compsets c cs k 100 σ0 fr fs _ st e
                    Hfr Hcs0 Hl0 Hp He Hk) as Hit.
      unfold find_solution, iterations_executed, solve. rewrite Hi, Hit. done.
Qed.

End Call.

Lemma bounded_iterations_witness :
  iterations_executed Demo.numpy [0] Demo.one_free_potential Demo.stuck_store [0] <= 100
  /\ exists σ',
       find_solution Demo.numpy [0] Demo.one_free_potential Demo.stuck_store [0]
       = Ok (σ', (false, [1000; 1e-12; 1]%float, [0%float])).
Proof.
  destruct (bounded_iterations Demo.numpy [0] Demo.one_free_potential
              Demo.stuck_store [0]) as [Hle Hret].
  split; [exact Hle|].
  destruct (Hret [Demo.stuck_compset] [[1000; 0.5]%float] eq_refl eq_refl) as [Hrun _].
  destruct (Hrun (SolverState [1]%float [[1000; 1e-12]%float] [0]%float [0]%float [0]))
    as (σ' & x0 & rest & Hdof & Hfs); [vm_compute; reflexivity|].
  simpl in Hdof. injection Hdof as <- <-. exists σ'. exact Hfs.
Defined.

(** C4 as stated fails: with the potential fixed the first pass raises the
    phase-rule error; no pass reached [break], and the call does not return. *)
Lemma raising_call_does_not_return :
  ~ returns_unless_converged Demo.numpy [0] Demo.no_free_potential Demo.unit_store [0].
Proof.
  intros H. destruct H as (σ' & x & mu & Hf).
  - intros σ0 fr k σ' fs' Hi Hk. vm_compute in Hi. injection Hi as <- <-.
    destruct k as [|k]; [simpl; discriminate|].
    rewrite (iterations_raise _ _ _ k _ _ _ GibbsPhaseRule); [discriminate|].
    vm_compute. reflexivity.
  - vm_compute in Hf. discriminate.
Qed.
